(** * ChemML wrapper engine: graph construction, validation and layering

    A shallow embedding of [chemml/wrapper/engine.py]: the cycle detector
    [cycle_in_graph], the parser ([Parser.serialize], [Parser.make_graph],
    [Parser.validate_keys], [Parser.hierarchicy]) and the data exchange
    [Stack], followed by the properties of the engine's specification.

    Python values are embedded as follows.
    - A [dict] is an association list in insertion order; a well-formed
      dict has pairwise distinct keys ([NoDup (keys d)]).
    - A [set] is a [gset]; a [list] is a [list].
    - A call returns [Ok v], raises ([Raise e]) or does not come back within
      the iteration bound of a [while] loop ([Diverge]). *)

From Stdlib Require Import Ascii.
From stdpp Require Import base decidable option list relations gmap strings
  pretty.

(** ** Outcomes of a call *)

Inductive exn : Type :=
| ValueError (msg : string)
| IndexError
| KeyError.

Inductive result (A : Type) : Type :=
| Ok (a : A)
| Raise (e : exn)
| Diverge.
Arguments Ok {A} a.
Arguments Raise {A} e.
Arguments Diverge {A}.

#[global] Instance result_ret : MRet result := λ A a, Ok a.
#[global] Instance result_bind : MBind result := λ A B f m,
  match m with
  | Ok a => f a
  | Raise e => Raise e
  | Diverge => Diverge
  end.

#[global] Instance result_fmap : FMap result := λ A B f m,
  match m with
  | Ok a => Ok (f a)
  | Raise e => Raise e
  | Diverge => Diverge
  end.

(** [for x in l: s = body(s, x)], stopping at the first exception. *)
Fixpoint for_each {A S : Type} (body : S → A → result S) (l : list A) (s : S)
  : result S :=
  match l with
  | [] => Ok s
  | x :: l' => s' ← body s x; for_each body l' s'
  end.

(** ** Python dictionaries *)

Module Dict.
Section dict.
Context {K V : Type} `{EqDecision K}.

Definition keys (d : list (K * V)) : list K := d.*1.

(** [d.get(k)] *)
Fixpoint get (d : list (K * V)) (k : K) : option V :=
  match d with
  | [] => None
  | (k', v) :: d' => if decide (k' = k) then Some v else get d' k
  end.

(** [d[k]], a [KeyError] when [k] is missing *)
Definition item (d : list (K * V)) (k : K) : result V :=
  match get d k with
  | Some v => Ok v
  | None => Raise KeyError
  end.

(** in-place change of the value stored under an existing key *)
Fixpoint alter (f : V → V) (k : K) (d : list (K * V)) : list (K * V) :=
  match d with
  | [] => []
  | (k', v) :: d' =>
      if decide (k' = k) then (k', f v) :: d' else (k', v) :: alter f k d'
  end.

(** [d[k] = v]: overwrite in place, or insert at the end *)
Fixpoint set (d : list (K * V)) (k : K) (v : V) : list (K * V) :=
  match d with
  | [] => [(k, v)]
  | (k', v') :: d' =>
      if decide (k' = k) then (k', v) :: d' else (k', v') :: set d' k v
  end.
End dict.
End Dict.

(** [d[k].append(x)] for a dict of lists *)
Definition dict_append {K A : Type} `{EqDecision K}
    (d : list (K * list A)) (k : K) (x : A) : result (list (K * list A)) :=
  match Dict.get d k with
  | Some _ => Ok (Dict.alter (λ l, l ++ [x]) k d)
  | None => Raise KeyError
  end.

(** ** [cycle_in_graph] *)

Section cycle_in_graph.
Context {V : Type} `{Countable V}.

(** [graph.get(v, ())] *)
Definition neighbours (graph : list (V * list V)) (v : V) : list V :=
  default [] (Dict.get graph v).

(** The inner [for v in stack[-1]] loop.  It resumes the iterator on top
    of the stack and leaves in one of three ways. *)
Inductive scan_result : Type :=
| FoundOnPath                        (* [return True] *)
| Descend (v : V) (rest : list V)    (* [break] after pushing [v] *)
| Exhausted.                         (* the [else] branch of the [for] *)

(** The sentinel [object()] at the bottom of [path] is [None]; a vertex
    [v] on the path is [Some v]. *)
Fixpoint scan (path_set : gset (option V)) (visited : gset V) (it : list V)
  : scan_result :=
  match it with
  | [] => Exhausted
  | v :: rest =>
      if decide (Some v ∈ path_set) then FoundOnPath
      else if decide (v ∉ visited) then Descend v rest
      else scan path_set visited rest
  end.

(** The [while stack] loop.  [path] and [stack] have their top at the
    head.  Each element of [stack] is what its iterator has left. *)
Fixpoint cycle_loop (fuel : nat) (graph : list (V * list V))
    (visited : gset V) (path : list (option V)) (path_set : gset (option V))
    (stack : list (list V)) : result bool :=
  match stack with
  | [] => Ok false
  | top :: stack' =>
      match fuel with
      | 0 => Diverge
      | S fuel' =>
          match scan path_set visited top with
          | FoundOnPath => Ok true
          | Descend v rest =>
              cycle_loop fuel' graph ({[v]} ∪ visited) (Some v :: path)
                ({[Some v]} ∪ path_set) (neighbours graph v :: rest :: stack')
          | Exhausted =>
              match path with
              | [] => Raise IndexError
              | p :: path' =>
                  if decide (p ∈ path_set)
                  then cycle_loop fuel' graph visited path'
                         (path_set ∖ {[p]}) stack'
                  else Raise KeyError
              end
          end
      end
  end.

(** Every vertex named by the graph, as a key or as a neighbour. *)
Definition vertices (graph : list (V * list V)) : list V :=
  Dict.keys graph ++ mjoin graph.*2.

(** Each round of the loop either visits a new vertex and pushes one
    iterator, or pops one iterator. *)
Definition cycle_fuel (graph : list (V * list V)) : nat :=
  2 * length (vertices graph) + 1.

Definition cycle_in_graph (graph : list (V * list V)) : result bool :=
  cycle_loop (cycle_fuel graph) graph ∅ [None] {[None]} [Dict.keys graph].

(** The graph as a relation, and what a directed cycle is. *)
Definition edge (graph : list (V * list V)) (u v : V) : Prop :=
  v ∈ neighbours graph u.

Definition has_cycle (graph : list (V * list V)) : Prop :=
  ∃ v, tc (edge graph) v v.
End cycle_in_graph.


(** ** Strings and lists as Python has them *)

(** [s[i]] *)
Fixpoint str_index (s : string) (i : nat) : result ascii :=
  match s, i with
  | EmptyString, _ => Raise IndexError
  | String c _, 0 => Ok c
  | String _ s', S i' => str_index s' i'
  end.

(** [s.count(c)] for a one-character [c] *)
Fixpoint str_count (c : ascii) (s : string) : nat :=
  match s with
  | EmptyString => 0
  | String c' s' => (if decide (c' = c) then 1 else 0) + str_count c s'
  end.

(** [str.isspace] on the code points below 256, which is what a
    character of [string] stands for. *)
Definition isspace (c : ascii) : bool :=
  bool_decide (nat_of_ascii c ∈ [9; 10; 11; 12; 13; 28; 29; 30; 31; 32; 133; 160]).

Fixpoint str_lstrip (s : string) : string :=
  match s with
  | EmptyString => EmptyString
  | String c s' => if isspace c then str_lstrip s' else s
  end.

(** [s.strip()] *)
Definition str_strip (s : string) : string :=
  String.rev (str_lstrip (String.rev (str_lstrip s))).

(** [s.split(c)] for a one-character separator [c] *)
Fixpoint str_split (c : ascii) (s : string) : list string :=
  match s with
  | EmptyString => [EmptyString]
  | String c' s' =>
      if decide (c' = c) then EmptyString :: str_split c s'
      else match str_split c s' with
           | w :: ws => String c' w :: ws
           | [] => [String c' EmptyString]
           end
  end.

(** [l[i]] *)
Definition list_index {A : Type} (l : list A) (i : nat) : result A :=
  match l !! i with
  | Some x => Ok x
  | None => Raise IndexError
  end.

(** [l.remove(x)]: drops the first occurrence, a [ValueError] without one *)
Fixpoint list_remove {A : Type} `{EqDecision A} (x : A) (l : list A)
  : result (list A) :=
  match l with
  | [] => Raise (ValueError "list.remove(x): x not in list")
  | y :: l' =>
      if decide (y = x) then Ok l' else l'' ← list_remove x l'; Ok (y :: l'')
  end.

(** ** The input document *)

(** What [json.load] produces.  Only [str] and [bool] are told apart by the
    parser; a number is a literal whatever its value. *)
#[warnings="-register-all"]
Inductive value : Type :=
| VNone
| VBool (b : bool)
| VNum (n : Z)
| VStr (s : string)
| VList (l : list value)
| VDict (d : list (string * value)).

(** [block['method']], with the keys the parser reads *)
Record method_block : Type := {
  m_name : option value;
  m_inputs : option (list (string * value));
  m_outputs : option (list (string * value));
}.

(** A node of the workflow.  A field is [None] when the key is missing;
    [b_other] holds the entries under any further key. *)
Record block : Type := {
  b_name : option value;
  b_library : option value;
  b_module : option value;
  b_inputs : option (list (string * value));
  b_outputs : option (list (string * value));
  b_method : option method_block;
  b_wrapper_io : option (list (string * value));
  b_other : list (string * value);
}.

Record input_dict : Type := {
  nodes : option (list (string * block));
  top_other : list (string * value);
}.

(** [send_recv[node_id] = {'send': [name], 'recv': [(node_id, name)]}] *)
Record send_recv_entry : Type := {
  send : list string;
  recv : list (string * string);
}.

Definition add_send (var : string) (sr : send_recv_entry) : send_recv_entry :=
  {| send := send sr ++ [var]; recv := recv sr |}.
Definition add_recv (tok : string * string) (sr : send_recv_entry)
  : send_recv_entry :=
  {| send := send sr; recv := recv sr ++ [tok] |}.

(** ** [Parser]: a method reads and overwrites [self.input_dict] *)

Definition parser (A : Type) : Type := input_dict → input_dict * result A.

#[global] Instance parser_ret : MRet parser := λ A a self, (self, Ok a).
#[global] Instance parser_bind : MBind parser := λ A B f m self,
  match m self with
  | (self', Ok a) => f a self'
  | (self', Raise e) => (self', Raise e)
  | (self', Diverge) => (self', Diverge)
  end.

Definition lift {A : Type} (r : result A) : parser A := λ self, (self, r).
Definition raise {A : Type} (e : exn) : parser A := λ self, (self, Raise e).
Definition get_input_dict : parser input_dict := λ self, (self, Ok self).
Definition put_input_dict (d : input_dict) : parser unit := λ _, (d, Ok ()).

Fixpoint for_each_p {A S : Type} (body : S → A → parser S) (l : list A) (s : S)
  : parser S :=
  match l with
  | [] => mret s
  | x :: l' => s' ← body s x; for_each_p body l' s'
  end.

(** *** [Parser.validate_keys] *)

Definition all_keys : list string :=
  ["name"; "library"; "module"; "inputs"; "outputs"; "method"; "wrapper_io"].

Definition present {A : Type} (key : string) (field : option A) : list string :=
  match field with Some _ => [key] | None => [] end.

(** [block.keys()] *)
Definition available_keys (b : block) : list string :=
  present "name" (b_name b) ++ present "library" (b_library b)
  ++ present "module" (b_module b) ++ present "inputs" (b_inputs b)
  ++ present "outputs" (b_outputs b) ++ present "method" (b_method b)
  ++ present "wrapper_io" (b_wrapper_io b) ++ Dict.keys (b_other b).

Definition msg_name_missing (block_id : string) : string :=
  "The input json is not valid. @node ID#" +:+ block_id
  +:+ ": name of class/function is missing.".
Definition msg_library_missing (block_id : string) : string :=
  "The input json is not valid. @node ID#" +:+ block_id
  +:+ ": name of library is missing".
Definition msg_redundant_keys (block_id : string) : string :=
  "The input json is not valid. @node ID#" +:+ block_id
  +:+ ": redundant or irrelevant keys".

Definition validate_keys (block_id : string) (b : block) : result unit :=
  if decide ("name" ∉ available_keys b) then
    Raise (ValueError (msg_name_missing block_id))
  else if decide ("library" ∉ available_keys b) then
    Raise (ValueError (msg_library_missing block_id))
  else if decide (¬ (list_to_set (available_keys b) : gset string)
                      ⊆ list_to_set all_keys) then
    Raise (ValueError (msg_redundant_keys block_id))
  else Ok ().

(** *** [Parser.serialize], first part: collecting what is sent and received *)

(** The body of [for var in block['inputs']], the same for
    [method_block['inputs']]:
    [if isinstance(val, str) and val[0] == '@' and val.count('@') == 2]. *)
Definition scan_input (sr : send_recv_entry) (entry : string * value)
  : result send_recv_entry :=
  match entry.2 with
  | VStr val =>
      c ← str_index val 0;
      if bool_decide (c = "@"%char) && bool_decide (str_count "@" val = 2) then
        let temp := str_split "@" (str_strip val) in
        producer ← list_index temp 1;
        name ← list_index temp 2;
        Ok (add_recv (producer, name) sr)
      else Ok sr
  | _ => Ok sr
  end.

(** The body of [for var in block['outputs']]:
    [if isinstance(val, bool) and val]. *)
Definition scan_output (sr : send_recv_entry) (entry : string * value)
  : result send_recv_entry :=
  match entry.2 with
  | VBool true => Ok (add_send entry.1 sr)
  | _ => Ok sr
  end.

(** The body of [for var in block['wrapper_io']]: a reference, [elif] a
    send. *)
Definition scan_wrapper_io (sr : send_recv_entry) (entry : string * value)
  : result send_recv_entry :=
  match entry.2 with
  | VStr val =>
      c ← str_index val 0;
      if bool_decide (c = "@"%char) && bool_decide (str_count "@" val = 2) then
        let temp := str_split "@" (str_strip val) in
        producer ← list_index temp 1;
        name ← list_index temp 2;
        Ok (add_recv (producer, name) sr)
      else Ok sr
  | VBool true => Ok (add_send entry.1 sr)
  | _ => Ok sr
  end.

(** [if key in block: for var in block[key]: ...] *)
Definition for_each_in {A S : Type} (body : S → A → result S)
    (field : option (list A)) (s : S) : result S :=
  match field with
  | Some d => for_each body d s
  | None => Ok s
  end.

Definition scan_method (m : option method_block) (sr : send_recv_entry)
  : result send_recv_entry :=
  match m with
  | Some method_block =>
      sr ← for_each_in scan_input (m_inputs method_block) sr;
      for_each_in scan_output (m_outputs method_block) sr
  | None => Ok sr
  end.

(** One round of [for block_id in self.input_dict['nodes'].keys()]. *)
Definition scan_block (send_recv : list (string * send_recv_entry))
    (node : string * block) : result (list (string * send_recv_entry)) :=
  let '(block_id, b) := node in
  _ ← validate_keys block_id b;
  sr ← for_each_in scan_input (b_inputs b) {| send := []; recv := [] |};
  sr ← for_each_in scan_output (b_outputs b) sr;
  sr ← for_each_in scan_wrapper_io (b_wrapper_io b) sr;
  sr ← scan_method (b_method b) sr;
  Ok (Dict.set send_recv block_id sr).

Definition collect_send_recv (ns : list (string * block))
  : result (list (string * send_recv_entry)) :=
  for_each scan_block ns [].

(** *** [Parser.serialize], second part: the redundant sends *)

Definition all_received_of (send_recv : list (string * send_recv_entry))
  : list (string * string) :=
  mjoin ((λ e, recv e.2) <$> send_recv).

Definition all_sent_of (send_recv : list (string * send_recv_entry))
  : list (string * string) :=
  mjoin ((λ e, (λ token, (e.1, token)) <$> send e.2) <$> send_recv).

Definition redundant_of (send_recv : list (string * send_recv_entry))
  : list (string * string) :=
  filter (λ item, item ∉ all_received_of send_recv) (all_sent_of send_recv).

(** [if var in outputs: outputs[var] = False] *)
Definition turn_off (var : string) (outputs : list (string * value))
  : list (string * value) :=
  if decide (var ∈ Dict.keys outputs)
  then Dict.alter (λ _, VBool false) var outputs
  else outputs.

Definition turn_off_method (var : string) (m : method_block) : method_block :=
  {| m_name := m_name m;
     m_inputs := m_inputs m;
     m_outputs := turn_off var <$> m_outputs m |}.

(** What one round of [for item in redundant] does to the node [id] of the
    document.  A missing ['outputs'], ['method'] or ['wrapper_io'] reads as
    the empty dict, in which [var] is not found. *)
Definition turn_off_block (var : string) (b : block) : block :=
  {| b_name := b_name b;
     b_library := b_library b;
     b_module := b_module b;
     b_inputs := b_inputs b;
     b_outputs := turn_off var <$> b_outputs b;
     b_method := turn_off_method var <$> b_method b;
     b_wrapper_io := turn_off var <$> b_wrapper_io b;
     b_other := b_other b |}.

Definition set_nodes (ns : list (string * block)) (d : input_dict) : input_dict :=
  {| nodes := Some ns; top_other := top_other d |}.

(** One round of [for item in redundant]. *)
Definition turn_off_redundant (send_recv : list (string * send_recv_entry))
    (item : string * string) : parser (list (string * send_recv_entry)) :=
  let '(id, var) := item in
  sr ← lift (Dict.item send_recv id);
  sends ← lift (list_remove var (send sr));
  let send_recv := Dict.alter (λ _, {| send := sends; recv := recv sr |}) id send_recv in
  self ← get_input_dict;
  ns ← lift (match nodes self with Some ns => Ok ns | None => Raise KeyError end);
  _ ← lift (Dict.item ns id);
  _ ← put_input_dict (set_nodes (Dict.alter (turn_off_block var) id ns) self);
  mret send_recv.

(** *** [Parser.make_graph] *)

Definition msg_broken_pipe : string :=
  "The input is not valid. Ther is a broken pipe in the graph construction.".

(** [(graph, graph_send, graph_recv)] *)
Definition graphs : Type :=
  list (string * string) * list (string * list string)
  * list (string * list string).

(** The body of [for item in send_recv[node_id]['recv']]. *)
Definition make_graph_item (send_recv : list (string * send_recv_entry))
    (node_id : string) (g : graphs) (item : string * string) : result graphs :=
  let '(graph, graph_send, graph_recv) := g in
  match Dict.get send_recv item.1 with
  | Some ref =>
      if decide (item.2 ∉ send ref) then Raise (ValueError msg_broken_pipe)
      else
        graph_send ← dict_append graph_send item.1 node_id;
        graph_recv ← dict_append graph_recv node_id item.1;
        Ok (graph ++ [(item.1, node_id)], graph_send, graph_recv)
  | None => Raise (ValueError msg_broken_pipe)
  end.

Definition make_graph (send_recv : list (string * send_recv_entry))
  : result graphs :=
  let graph_send := (λ e, (e.1, [])) <$> send_recv in
  let graph_recv := (λ e, (e.1, [])) <$> send_recv in
  for_each (λ g e, for_each (make_graph_item send_recv e.1) (recv e.2) g)
    send_recv ([], graph_send, graph_recv).

(** *** [Parser.hierarchicy] *)

Definition msg_not_proper : string :=
  "The input graph is not constructed properly.".

(** The body of the first loop, on [(start_nodes, end_nodes)]. *)
Definition classify_node (graph_recv : list (string * list string))
    (acc : list string * list string) (e : string * list string)
  : result (list string * list string) :=
  let '(start_nodes, end_nodes) := acc in
  if decide (length e.2 = 0) then Ok (start_nodes, end_nodes ++ [e.1])
  else
    senders ← Dict.item graph_recv e.1;
    if decide (length senders = 0) then Ok (start_nodes ++ [e.1], end_nodes)
    else Ok acc.

(** [for id in graph_recv: if id not in collected and
    set(graph_recv[id]) <= set(collected): next_layer.append(id)] *)
Definition next_layer_of (graph_recv : list (string * list string))
    (collected : list string) : list string :=
  (filter (λ e, (e.1 ∉ collected)
                ∧ (list_to_set e.2 : gset string) ⊆ list_to_set collected)
     graph_recv).*1.

(** [while len(collected) < len(graph_send)].  A round that adds no node
    leaves the condition as it was, so a run of more than
    [len(graph_send)] rounds never ends. *)
Fixpoint layer_loop (fuel : nat) (graph_send graph_recv : list (string * list string))
    (layers : list (list string)) (collected : list string)
  : result (list (list string)) :=
  if decide (length collected < length graph_send) then
    match fuel with
    | 0 => Diverge
    | S fuel' =>
        let next_layer := next_layer_of graph_recv collected in
        layer_loop fuel' graph_send graph_recv
          (layers ++ [next_layer]) (collected ++ next_layer)
    end
  else Ok layers.

Definition hierarchicy (graph_send graph_recv : list (string * list string))
  : result (list (list string)) :=
  '(start_nodes, end_nodes) ← for_each (classify_node graph_recv) graph_send ([], []);
  layers ← layer_loop (length graph_send) graph_send graph_recv
             [start_nodes] start_nodes;
  final ← list_index layers (length layers - 1);
  if decide ((list_to_set end_nodes : gset string) ≠ list_to_set final)
  then Raise (ValueError msg_not_proper)
  else Ok layers.

(** *** [Parser.prettyprinter]: the lookups it makes; what it prints is not
    modelled *)

Definition prettyprinter_node (ns : list (string * block))
    (graph_send graph_recv : list (string * list string))
    (_ : unit) (id : string) : result unit :=
  b ← Dict.item ns id;
  _ ← (if decide ("name" ∈ available_keys b) then Ok () else Raise KeyError);
  _ ← (if decide ("library" ∈ available_keys b) then Ok () else Raise KeyError);
  _ ← match b_method b with
      | Some m => match m_name m with Some _ => Ok () | None => Raise KeyError end
      | None => Ok ()
      end;
  _ ← Dict.item graph_recv id;
  _ ← Dict.item graph_send id;
  Ok ().

Definition prettyprinter (ns : list (string * block)) (layers : list (list string))
    (graph_send graph_recv : list (string * list string)) : result unit :=
  for_each (prettyprinter_node ns graph_send graph_recv) (mjoin layers) ().

(** *** [Parser.serialize] *)

Definition msg_not_valid : string :=
  "The input json is not a valid ChemMLWrapper input.".
Definition msg_cycle : string :=
  "The input graph is constructed of cycles that is not allowed due to the interdependency.".

Record serialized : Type := {
  out_send_recv : list (string * send_recv_entry);
  out_all_received : list (string * string);
  out_graph : list (string * string);
  out_graph_send : list (string * list string);
  out_graph_recv : list (string * list string);
  out_layers : list (list string);
}.

Definition serialize : parser serialized :=
  self ← get_input_dict;
  match nodes self with
  | None => raise (ValueError msg_not_valid)
  | Some ns =>
      send_recv ← lift (collect_send_recv ns);
      let all_received := all_received_of send_recv in
      let redundant := redundant_of send_recv in
      send_recv ← for_each_p turn_off_redundant redundant send_recv;
      '(graph, graph_send, graph_recv) ← lift (make_graph send_recv);
      cyclic ← lift (cycle_in_graph graph_send);
      if (cyclic : bool) then raise (ValueError msg_cycle)
      else
        layers ← lift (hierarchicy graph_send graph_recv);
        self ← get_input_dict;
        _ ← lift (match nodes self with
                  | Some ns => prettyprinter ns layers graph_send graph_recv
                  | None => Raise KeyError
                  end);
        mret {| out_send_recv := send_recv;
                out_all_received := all_received;
                out_graph := graph;
                out_graph_send := graph_send;
                out_graph_recv := graph_recv;
                out_layers := layers |}
  end.

(** ** [Stack] *)

Module Stack.
Section stack.
(** [Obj]: what a node sends around. *)
Context {Obj : Type}.

Record t : Type := {
  stack : list ((string * string) * Obj);
  start_time : Z;
  references : list (string * Obj);
}.

(** [Stack()], at clock reading [now] *)
Definition init (now : Z) : t :=
  {| stack := []; start_time := now; references := [] |}.

(** The methods below have the body [pass] in the source: they leave
    [self] as it is and return [None]. *)
Definition push (self : t) (token : string * string) (value : Obj)
  : t * option Obj := (self, None).

Definition pull (self : t) (token : string * string) : t * option Obj :=
  (self, None).

Definition getsizeof (self : t) (token : option (string * string))
  : t * option Obj := (self, None).
End stack.
Arguments t : clear implicits.
End Stack.

(** ** [Wrapper]

    [call] runs the nodes layer by layer.  Modelled are its two loops, the
    lookups [self.input_dict['nodes'][block_id]], [block["name"]] and
    [block["library"]], and the arguments of
    [self.prettyprint('block_start', block_id, name, library)] in the order
    of the calls; the clock and the text that is printed are not. *)

(** [block["name"]] and [block["library"]]: the field of the block, or,
    as for every key that is not a field of its own, the entry of
    [b_other], and a [KeyError] without one. *)
Definition block_name (b : block) : result value :=
  match b_name b with
  | Some v => Ok v
  | None => Dict.item (b_other b) "name"
  end.

Definition block_library (b : block) : result value :=
  match b_library b with
  | Some v => Ok v
  | None => Dict.item (b_other b) "library"
  end.

Module Wrapper.
(** The body of [for block_id in group], on the nodes started so far. *)
Definition call_node (self_input_dict : input_dict)
    (started : list (string * value * value)) (block_id : string)
  : result (list (string * value * value)) :=
  ns ← match nodes self_input_dict with
       | Some ns => Ok ns
       | None => Raise KeyError
       end;
  block ← Dict.item ns block_id;
  name ← block_name block;
  library ← block_library block;
  Ok (started ++ [(block_id, name, library)]).

Definition call (self_input_dict : input_dict) (self_layers : list (list string))
  : result (list (string * value * value)) :=
  for_each (λ started group, for_each (call_node self_input_dict) group started)
    self_layers [].
End Wrapper.

(** ** [Settings]

    The file system is a state of type [FS] with the two operations that
    [create_output] uses; what they do is left to the operating system.
    The [while] loop has no bound of its own: [fuel] is the number of
    rounds a run is followed for. *)

Module Settings.
Record t : Type := { output_directory : string }.

(** [Settings(output_directory)] *)
Definition init (output_directory : string) : t :=
  {| output_directory := output_directory |}.

Section create_output.
Context {FS : Type}.
(** [os.path.exists] and [os.makedirs] *)
Variable path_exists : FS → string → bool.
Variable makedirs : FS → string → FS * result unit.

(** ['-%i' % i] *)
Definition suffix (i : nat) : string := "-" +:+ pretty i.

(** [while os.path.exists(self.output_directory)], on
    [(i, self.output_directory)] *)
Fixpoint create_output_loop (fuel : nat) (fs : FS) (initial_output_dir : string)
    (i : nat) (output_directory : string) : result (nat * string) :=
  if path_exists fs output_directory then
    match fuel with
    | 0 => Diverge
    | S fuel' =>
        create_output_loop fuel' fs initial_output_dir (i + 1)
          (initial_output_dir +:+ suffix (i + 1))
    end
  else Ok (i, output_directory).

Definition create_output (fuel : nat) (self : t) (fs : FS)
  : t * FS * result string :=
  let initial_output_dir := output_directory self in
  match create_output_loop fuel fs initial_output_dir 1 (output_directory self)
  with
  | Ok (_, dir) =>
      let self := {| output_directory := dir |} in
      match makedirs fs dir with
      | (fs, Ok _) => (self, fs, Ok dir)
      | (fs, Raise e) => (self, fs, Raise e)
      | (fs, Diverge) => (self, fs, Diverge)
      end
  | Raise e => (self, fs, Raise e)
  | Diverge => (self, fs, Diverge)
  end.
End create_output.
End Settings.

(** * Vocabulary of the specification *)

(** ** Directed cycles and the state of the traversal *)

Section cycle_spec.
Context {V : Type} `{Countable V}.
Implicit Types (graph : list (V * list V)) (visited : gset V)
  (path : list (option V)) (stack : list (list V)).

(** What the iterator pushed for the path element [p] runs over. *)
Definition source graph (p : option V) : list V :=
  match p with
  | None => Dict.keys graph
  | Some v => neighbours graph v
  end.

(** A visited vertex that has left the path. *)
Definition finished visited path (b : V) : Prop :=
  b ∈ visited ∧ Some b ∉ path.

(** [path] and [stack] grow and shrink together.  The iterator of a
    path element has consumed [done], all of it visited and none of it
    on the path from that element downwards; consecutive path elements
    are joined by an edge; the sentinel sits at the bottom only. *)
Inductive frames graph visited : list (option V) → list (list V) → Prop :=
| frames_nil : frames graph visited [] []
| frames_cons p path it stack done :
    frames graph visited path stack →
    source graph p = done ++ it →
    (∀ w, w ∈ done → w ∈ visited ∧ Some w ∉ p :: path) →
    p ∉ path →
    (∀ v, p = Some v →
       v ∈ visited
       ∧ ∃ q, head path = Some q ∧ ∀ u, q = Some u → edge graph u v) →
    (p = None → path = []) →
    frames graph visited (p :: path) (it :: stack).

(** The loop invariant: the finished vertices are closed under edges
    and lie on no cycle. *)
Record cycle_inv graph visited path stack : Prop := {
  inv_frames : frames graph visited path stack;
  inv_closed : ∀ b w, finished visited path b → edge graph b w →
                      finished visited path w;
  inv_acyclic : ∀ b, finished visited path b → ¬ tc (edge graph) b b;
}.

(** Rounds the loop still needs at most. *)
Definition budget graph visited stack : nat :=
  2 * size ((list_to_set (vertices graph) : gset V) ∖ visited) + length stack.
End cycle_spec.

(** ** The references of a send/recv structure *)

(** Every [(consumer, (producer, variable))], in the order [make_graph]
    meets them. *)
Definition references (send_recv : list (string * send_recv_entry))
  : list (string * (string * string)) :=
  mjoin ((λ e, (λ item, (e.1, item)) <$> recv e.2) <$> send_recv).

(** The producer exists and has declared the variable as sent. *)
Definition declared (send_recv : list (string * send_recv_entry))
    (item : string * string) : Prop :=
  ∃ ref, Dict.get send_recv item.1 = Some ref ∧ item.2 ∈ send ref.

#[global] Instance declared_dec send_recv item :
  Decision (declared send_recv item).
Proof.
  unfold declared. destruct (Dict.get send_recv item.1) as [ref|] eqn:E.
  - destruct (decide (item.2 ∈ send ref)) as [Hin|Hnin].
    + left. by exists ref.
    + right. intros (ref' & [= <-] & ?). done.
  - right. by intros (ref' & [=] & ?).
Defined.

Definition edge_of (r : string * (string * string)) : string * string :=
  (r.2.1, r.1).

Definition receivers_of (rs : list (string * (string * string))) (u : string)
  : list string :=
  (filter (λ r, r.2.1 = u) rs).*1.

Definition senders_of (rs : list (string * (string * string))) (v : string)
  : list string :=
  (λ r, r.2.1) <$> filter (λ r, r.1 = v) rs.

(** The three graphs after the references [rs] have been added to [g]. *)
Definition graphs_after (rs : list (string * (string * string))) (g : graphs)
  : graphs :=
  (g.1.1 ++ (edge_of <$> rs),
   foldl (λ d r, Dict.alter (λ l, l ++ [r.1]) r.2.1 d) g.1.2 rs,
   foldl (λ d r, Dict.alter (λ l, l ++ [r.2.1]) r.1 d) g.2 rs).

(** Number of occurrences of [x] in [l]. *)
Definition count_of {A : Type} `{EqDecision A} (x : A) (l : list A) : nat :=
  length (filter (λ y, y = x) l).

(** ** Layers *)

(** Index of the layer that holds [id]. *)
Fixpoint layer_index (layers : list (list string)) (id : string) : option nat :=
  match layers with
  | [] => None
  | l :: ls => if decide (id ∈ l) then Some 0 else S <$> layer_index ls id
  end.

Definition start_nodes_of (graph_recv l : list (string * list string))
  : list string :=
  (filter (λ e, e.2 ≠ [] ∧ neighbours graph_recv e.1 = []) l).*1.

Definition end_nodes_of (l : list (string * list string)) : list string :=
  (filter (λ e, e.2 = []) l).*1.

(** What the [while] loop of [hierarchicy] keeps true of [layers]: no node
    twice, only nodes of the graph, and every sender of a node in an
    earlier layer. *)
Record layering (graph_send graph_recv : list (string * list string))
    (layers : list (list string)) : Prop := {
  layering_nodup : NoDup (mjoin layers);
  layering_keys : ∀ id, id ∈ mjoin layers → id ∈ Dict.keys graph_send;
  layering_order : ∀ j l v u,
    layers !! j = Some l → v ∈ l → u ∈ neighbours graph_recv v →
    u ∈ mjoin (take j layers);
}.

(** A node without outgoing edge. *)
Definition sink (send_recv : list (string * send_recv_entry))
    (graph : list (string * string)) (id : string) : Prop :=
  id ∈ Dict.keys send_recv ∧ ∀ v, (id, v) ∉ graph.

(** The layers as the edges fix them.  The first layer is the nodes with an
    outgoing and without an incoming edge; a round after the layers
    [collected] takes the nodes outside [collected] all of whose senders
    are in [collected]; both in the order of the node ids. *)
Definition source_nodes (send_recv : list (string * send_recv_entry))
    (graph : list (string * string)) : list string :=
  filter (λ id, Exists (λ e, e.1 = id) graph ∧ Forall (λ e, e.2 ≠ id) graph)
    (Dict.keys send_recv).

Definition ready_nodes (send_recv : list (string * send_recv_entry))
    (graph : list (string * string)) (collected : list string) : list string :=
  filter (λ id, (id ∉ collected)
                ∧ Forall (λ e, e.2 = id → e.1 ∈ collected) graph)
    (Dict.keys send_recv).

(** [layers] starts with the source nodes, and each later layer is the
    ready nodes after the layers before it, of which there are some. *)
Definition layered (send_recv : list (string * send_recv_entry))
    (graph : list (string * string)) (layers : list (list string)) : Prop :=
  head layers = Some (source_nodes send_recv graph)
  ∧ ∀ j l, layers !! (S j) = Some l →
           l = ready_nodes send_recv graph (mjoin (take (S j) layers))
           ∧ l ≠ [].

(** ** Values of a node *)

Definition values_of (field : option (list (string * value))) : list value :=
  match field with
  | Some d => d.*2
  | None => []
  end.

(** The values that [serialize] tests for being a reference. *)
Definition input_values (b : block) : list value :=
  values_of (b_inputs b) ++ values_of (b_wrapper_io b)
  ++ values_of (b_method b ≫= m_inputs).

Definition ok_or_IndexError {A : Type} (r : result A) : Prop :=
  (∃ a, r = Ok a) ∨ r = Raise IndexError.

(** [self.input_dict['nodes'][id][field][var]] for the three fields that
    the redundancy pass overwrites *)
Definition outputs_entry (d : input_dict) (id var : string) : option value :=
  ns ← nodes d; b ← Dict.get ns id; o ← b_outputs b; Dict.get o var.
Definition wrapper_io_entry (d : input_dict) (id var : string) : option value :=
  ns ← nodes d; b ← Dict.get ns id; o ← b_wrapper_io b; Dict.get o var.

(** [s.endswith(c)] for a one-character [c] *)
Fixpoint ends_with (c : ascii) (s : string) : Prop :=
  match s with
  | EmptyString => False
  | String c' EmptyString => c' = c
  | String _ s' => ends_with c s'
  end.


(** ** Layers, continued *)

(** Each layer after the first is what the loop of [hierarchicy] adds to
    the layers before it, and it is not empty. *)
Definition layers_tight (graph_recv : list (string * list string))
    (layers : list (list string)) : Prop :=
  ∀ j l, layers !! (S j) = Some l →
         l = next_layer_of graph_recv (mjoin (take (S j) layers)) ∧ l ≠ [].

(** ** What a node sends and receives *)

(** The entries of a dictionary of the node, none when the key is
    missing. *)
Definition entries (field : option (list (string * value)))
  : list (string * value) := default [] field.

(** [val] passes the reference test and splits into [token]. *)
Definition reference (val : value) (token : string * string) : Prop :=
  ∃ s, val = VStr s ∧ str_index s 0 = Ok "@"%char ∧ str_count "@" s = 2
       ∧ str_split "@" (str_strip s) = [EmptyString; token.1; token.2].

(** [var] is [True] in [outputs], [wrapper_io] or [method.outputs] of the
    node. *)
Definition sent_by (b : block) (var : string) : Prop :=
  (var, VBool true) ∈ entries (b_outputs b) ++ entries (b_wrapper_io b)
                      ++ entries (b_method b ≫= m_outputs).

(** [inputs], [wrapper_io] or [method.inputs] of the node holds a
    reference to [token]. *)
Definition received_by (b : block) (token : string * string) : Prop :=
  ∃ var val,
    (var, val) ∈ entries (b_inputs b) ++ entries (b_wrapper_io b)
                 ++ entries (b_method b ≫= m_inputs)
    ∧ reference val token.

#[global] Instance value_is_true_dec (val : value) : Decision (val = VBool true).
Proof. destruct val as [|[]| | | |]; (by left) || (by right). Defined.

(** [s.rstrip()] *)
Definition str_rstrip (s : string) : string :=
  String.rev (str_lstrip (String.rev s)).

(** [self.input_dict['nodes'][id]['method']['outputs'][var]] *)
Definition method_outputs_entry (d : input_dict) (id var : string)
  : option value :=
  ns ← nodes d; b ← Dict.get ns id; m ← b_method b; o ← m_outputs m;
  Dict.get o var.

(** Some node of the document refers to [token]. *)
Definition received (ns : list (string * block)) (token : string * string)
  : Prop :=
  ∃ consumer b, (consumer, b) ∈ ns ∧ received_by b token.

(** The node [id] sends [var] and no node refers to it. *)
Definition redundant_send (ns : list (string * block)) (id var : string)
  : Prop :=
  (∃ b, (id, b) ∈ ns ∧ sent_by b var) ∧ ¬ received ns (id, var).

(** ** The redundancy pass *)

(** [l] after [l.remove(x)], when [x] is in [l] *)
Fixpoint remove_first {A : Type} `{EqDecision A} (x : A) (l : list A) : list A :=
  match l with
  | [] => []
  | y :: l' => if decide (y = x) then l' else y :: remove_first x l'
  end.

(** [send_recv[id]['send']], empty for an unknown [id] *)
Definition sends_of (send_recv : list (string * send_recv_entry)) (id : string)
  : list string :=
  from_option send [] (Dict.get send_recv id).

(** The send/recv structure and the nodes after the rounds of
    [for item in redundant] for [items]. *)
Definition prune_send_recv (items : list (string * string))
    (send_recv : list (string * send_recv_entry))
  : list (string * send_recv_entry) :=
  foldl (λ sr item,
           Dict.alter (λ e, {| send := remove_first item.2 (send e);
                               recv := recv e |}) item.1 sr)
    send_recv items.

Definition prune_nodes (items : list (string * string))
    (ns : list (string * block)) : list (string * block) :=
  foldl (λ ns item, Dict.alter (turn_off_block item.2) item.1 ns) ns items.

(** The names among [items] that belong to the node [id]. *)
Definition names_of (items : list (string * string)) (id : string)
  : list string :=
  (filter (λ item, item.1 = id) items).*2.

(** [outputs] after [if var in outputs: outputs[var] = False] for each of
    [vars] *)
Definition turn_off_all (vars : list string) (outputs : list (string * value))
  : list (string * value) :=
  foldl (λ o var, turn_off var o) outputs vars.

(** ** What [serialize] may change in the document *)

(** [d'] has the keys of [d] in their order, and each value is the one of
    [d] or [False]. *)
Definition switched_off (d d' : list (string * value)) : Prop :=
  Forall2 (λ e e', e'.1 = e.1 ∧ (e'.2 = e.2 ∨ e'.2 = VBool false)) d d'.

(** What may differ between a [method] block, a node and a document and
    what the redundancy pass has made of it: values of [outputs],
    [method.outputs] and [wrapper_io] that have become [False]. *)
Definition method_frame (m m' : method_block) : Prop :=
  m_name m' = m_name m ∧ m_inputs m' = m_inputs m
  ∧ option_Forall2 switched_off (m_outputs m) (m_outputs m').

Definition block_frame (b b' : block) : Prop :=
  b_name b' = b_name b ∧ b_library b' = b_library b
  ∧ b_module b' = b_module b ∧ b_inputs b' = b_inputs b
  ∧ b_other b' = b_other b
  ∧ option_Forall2 switched_off (b_outputs b) (b_outputs b')
  ∧ option_Forall2 method_frame (b_method b) (b_method b')
  ∧ option_Forall2 switched_off (b_wrapper_io b) (b_wrapper_io b').

Definition document_frame (d d' : input_dict) : Prop :=
  top_other d' = top_other d
  ∧ option_Forall2 (Forall2 (λ n n', n'.1 = n.1 ∧ block_frame n.2 n'.2))
      (nodes d) (nodes d').

(** ** What [serialize] raises *)

(** The ['method'] block of the node, when there is one, has a ['name']. *)
Definition method_named (b : block) : Prop :=
  ∀ m, b_method b = Some m → is_Some (m_name m).

#[global] Instance method_named_dec b : Decision (method_named b).
Proof.
  unfold method_named. destruct (b_method b) as [m|].
  - destruct (m_name m) as [name|] eqn:Hname.
    + left. intros ? [= <-]. by eexists.
    + right. intros H. destruct (H m eq_refl) as [? ?]. congruence.
  - by left.
Defined.

(** The exceptions that [serialize] raises on the document with the nodes
    [ns]. *)
Definition serialize_error (ns : list (string * block)) (e : exn) : Prop :=
  (e = IndexError ∧ ∃ id b, (id, b) ∈ ns ∧ VStr EmptyString ∈ input_values b)
  ∨ (e = KeyError
     ∧ ∃ id b m, (id, b) ∈ ns ∧ b_method b = Some m ∧ m_name m = None)
  ∨ (∃ id b, (id, b) ∈ ns
             ∧ (e = ValueError (msg_name_missing id)
                ∨ e = ValueError (msg_library_missing id)
                ∨ e = ValueError (msg_redundant_keys id)))
  ∨ e = ValueError msg_broken_pipe
  ∨ e = ValueError msg_cycle
  ∨ e = ValueError msg_not_proper.

(** The node [consumer] refers to an output of the node [producer]. *)
Definition refers_to (ns : list (string * block)) (consumer producer : string)
  : Prop :=
  ∃ b var, (consumer, b) ∈ ns ∧ received_by b (producer, var).

(** Every reference of the document names a node that sends the
    variable. *)
Definition pipes_intact (ns : list (string * block)) : Prop :=
  ∀ token, received ns token → ∃ b, (token.1, b) ∈ ns ∧ sent_by b token.2.

(** ** Starting the nodes, and the output directory *)

(** The node [block_id] of the document can be started: it exists and has
    the name [name] and the library [library]. *)
Definition startable (d : input_dict) (block_id : string) (name library : value)
  : Prop :=
  ∃ ns b, nodes d = Some ns ∧ Dict.get ns block_id = Some b
          ∧ block_name b = Ok name ∧ block_library b = Ok library.

(** The [k]-th name that [create_output] tries: the directory asked for,
    then the same with [-2], [-3], ... appended. *)
Definition candidate (initial : string) (k : nat) : string :=
  if decide (k = 1) then initial else initial +:+ Settings.suffix k.

(** ** Small workflows used below *)

Definition plain_block (inputs outputs wrapper_io : option (list (string * value)))
  : block :=
  {| b_name := Some (VStr "fit"); b_library := Some (VStr "sklearn");
     b_module := None; b_inputs := inputs; b_outputs := outputs;
     b_method := None; b_wrapper_io := wrapper_io; b_other := [] |}.

Definition document (ns : list (string * block)) : input_dict :=
  {| nodes := Some ns; top_other := [] |}.

(** [C] receives from [B], which receives from [A]. *)
Definition sr_chain : list (string * send_recv_entry) :=
  [("C", {| send := []; recv := [("B", "y")] |});
   ("B", {| send := ["y"]; recv := [("A", "x")] |});
   ("A", {| send := ["x"]; recv := [] |})].

(** [B] receives two variables of [A]. *)
Definition sr_double : list (string * send_recv_entry) :=
  [("A", {| send := ["x"; "y"]; recv := [] |});
   ("B", {| send := []; recv := [("A", "x"); ("A", "y")] |})].

(** [B] refers to a node that does not exist. *)
Definition sr_broken : list (string * send_recv_entry) :=
  [("B", {| send := []; recv := [("A", "x")] |})].

(** One node, which neither sends nor receives. *)
Definition graph_isolated : list (string * list string) := [("A", [])].

(** The output [x] of [N] is not used, and [N] keeps a reference to the
    output [y] of [A] under the same name [x] in its [wrapper_io]. *)
Definition doc_collision : input_dict :=
  document
    [("A", plain_block None (Some [("y", VBool true)]) None);
     ("N", plain_block None (Some [("x", VBool true)])
             (Some [("x", VStr "@A@y")]))].

(** [C] uses the output [y] of [B], which uses the output [x] of [A]; the
    output [z] of [A] is used by nobody. *)
Definition doc_chain : input_dict :=
  document
    [("C", plain_block (Some [("i", VStr "@B@y")]) None None);
     ("B", plain_block (Some [("i", VStr "@A@x")]) (Some [("y", VBool true)])
             None);
     ("A", plain_block None (Some [("x", VBool true); ("z", VBool true)]) None)].

(** A node with the empty string as an input. *)
Definition doc_empty_string : input_dict :=
  document [("A", plain_block (Some [("p", VStr EmptyString)]) None None)].

(** The same, but the node has no ['name']. *)
Definition doc_nameless : input_dict :=
  document
    [("A", {| b_name := None; b_library := Some (VStr "sklearn");
              b_module := None; b_inputs := Some [("p", VStr EmptyString)];
              b_outputs := None; b_method := None; b_wrapper_io := None;
              b_other := [] |})].

(** [A] and [B] receive from each other. *)
Definition sr_cycle : list (string * send_recv_entry) :=
  [("A", {| send := ["x"]; recv := [("B", "y")] |});
   ("B", {| send := ["y"]; recv := [("A", "x")] |})].

(** A node whose [method] has no ['name']. *)
Definition doc_unnamed_method : input_dict :=
  document
    [("A", {| b_name := Some (VStr "fit"); b_library := Some (VStr "sklearn");
              b_module := None; b_inputs := None; b_outputs := None;
              b_method := Some {| m_name := None; m_inputs := None;
                                  m_outputs := None |};
              b_wrapper_io := None; b_other := [] |})].

(** [B] refers to an output of a node that is not there. *)
Definition doc_broken_pipe : input_dict :=
  document [("B", plain_block (Some [("i", VStr "@A@x")]) None None)].

(** [A] uses the output [y] of [B], and [B] the output [x] of [A]. *)
Definition doc_cycle : input_dict :=
  document
    [("A", plain_block (Some [("i", VStr "@B@y")]) (Some [("x", VBool true)])
             None);
     ("B", plain_block (Some [("i", VStr "@A@x")]) (Some [("y", VBool true)])
             None)].

(** A file system that is the list of the paths that exist, in which
    [os.makedirs] makes the path exist. *)
Definition listed_exists (fs : list string) (path : string) : bool :=
  bool_decide (path ∈ fs).
Definition listed_makedirs (fs : list string) (path : string)
  : list string * result unit :=
  (path :: fs, Ok ()).

(** * Properties *)

(** ** Loops, dictionaries and lists *)

Section for_each.
Context {A S : Type}.
Implicit Types (body : S → A → result S).

Lemma for_each_app body l1 l2 s :
  for_each body (l1 ++ l2) s = s' ← for_each body l1 s; for_each body l2 s'.
Proof.
  revert s. induction l1 as [|x l1 IH]; intros s; simpl; [done|].
  destruct (body s x); simpl; [apply IH|done..].
Qed.

Lemma for_each_fmap {B} (f : B → A) body l s :
  for_each body (f <$> l) s = for_each (λ s x, body s (f x)) l s.
Proof.
  revert s. induction l as [|x l IH]; intros s; simpl; [done|].
  destruct (body s (f x)); simpl; [apply IH|done..].
Qed.
End for_each.

Lemma for_each_nested {A B K S} (key : A → K) (inner : A → list B)
    (body : K → S → B → result S) (l : list A) (s : S) :
  for_each (λ s a, for_each (body (key a)) (inner a) s) l s
  = for_each (λ s r, body r.1 s r.2)
      (mjoin ((λ a, (λ b, (key a, b)) <$> inner a) <$> l)) s.
Proof.
  revert s. induction l as [|a l IH]; intros s; simpl; [done|].
  rewrite for_each_app, for_each_fmap. simpl.
  destruct (for_each (body (key a)) (inner a) s); simpl; [apply IH|done..].
Qed.

Section dict.
Context {K V : Type} `{EqDecision K}.
Implicit Types (d : list (K * V)).

Lemma Dict_get_Some_keys d k x : Dict.get d k = Some x → k ∈ Dict.keys d.
Proof.
  induction d as [|[k' v] d IH]; simpl; [done|].
  case_decide; intros; subst.
  - apply list_elem_of_here.
  - apply list_elem_of_further. by apply IH.
Qed.

Lemma Dict_get_elem_of d k x : Dict.get d k = Some x → (k, x) ∈ d.
Proof.
  induction d as [|[k' v] d IH]; simpl; [done|].
  case_decide; intros; simplify_eq.
  - apply list_elem_of_here.
  - apply list_elem_of_further. by apply IH.
Qed.

Lemma Dict_get_None d k : Dict.get d k = None ↔ k ∉ Dict.keys d.
Proof.
  induction d as [|[k' v] d IH]; simpl.
  - split; [intros _; apply not_elem_of_nil|done].
  - rewrite not_elem_of_cons. case_decide; subst.
    + split; [done|]. by intros [? _].
    + rewrite IH. split; [by split|]. by intros [_ ?].
Qed.

Lemma Dict_get_is_Some d k : is_Some (Dict.get d k) ↔ k ∈ Dict.keys d.
Proof.
  rewrite <- not_eq_None_Some, Dict_get_None.
  split; [apply dec_stable|]. by intros ? ?.
Qed.

Lemma Dict_get_NoDup d k x :
  NoDup (Dict.keys d) → (k, x) ∈ d → Dict.get d k = Some x.
Proof.
  induction d as [|[k' v] d IH]; simpl.
  - by intros _ ?%elem_of_nil.
  - intros [Hk Hd]%NoDup_cons [[= -> ->]|Hin]%elem_of_cons.
    + by rewrite decide_True.
    + rewrite decide_False; [by apply IH|].
      intros ->. apply Hk. apply list_elem_of_fmap. by exists (k, x).
Qed.

Lemma Dict_keys_alter f k d : Dict.keys (Dict.alter f k d) = Dict.keys d.
Proof.
  unfold Dict.keys. induction d as [|[k' v] d IH]; [done|].
  cbn [Dict.alter]. case_decide; [done|]. rewrite !fmap_cons. by f_equal.
Qed.

Lemma Dict_get_alter f k d k' :
  Dict.get (Dict.alter f k d) k'
  = if decide (k = k') then f <$> Dict.get d k' else Dict.get d k'.
Proof.
  induction d as [|[k0 v] d IH]; simpl; [by destruct (decide (k = k'))|].
  destruct (decide (k0 = k)) as [->|Hne]; simpl.
  - by destruct (decide (k = k')).
  - destruct (decide (k0 = k')) as [->|]; [by rewrite decide_False|done].
Qed.
End dict.

Lemma get_foldl_append {A K B} `{EqDecision K} (key : A → K) (val : A → B)
    (rs : list A) (d : list (K * list B)) (k : K) :
  Dict.get (foldl (λ d r, Dict.alter (λ l, l ++ [val r]) (key r) d) d rs) k
  = (λ l, l ++ (val <$> filter (λ r, key r = k) rs)) <$> Dict.get d k.
Proof.
  revert d. induction rs as [|r rs IH]; intros d; simpl.
  - destruct (Dict.get d k); simpl; [|done]. by rewrite app_nil_r.
  - rewrite IH, Dict_get_alter, filter_cons.
    destruct (decide (key r = k)); [|done].
    destruct (Dict.get d k); simpl; [|done]. by rewrite <- (assoc_L (++)).
Qed.

Lemma keys_foldl_append {A K B} `{EqDecision K} (key : A → K) (val : A → B)
    (rs : list A) (d : list (K * list B)) :
  Dict.keys (foldl (λ d r, Dict.alter (λ l, l ++ [val r]) (key r) d) d rs)
  = Dict.keys d.
Proof.
  revert d. induction rs as [|r rs IH]; intros d; simpl; [done|].
  by rewrite IH, Dict_keys_alter.
Qed.

Lemma get_fmap_nil {K A B} `{EqDecision K} (d : list (K * A)) (k : K) :
  Dict.get ((λ e, (e.1, @nil B)) <$> d) k
  = if decide (k ∈ Dict.keys d) then Some [] else None.
Proof.
  induction d as [|[k' a] d IH].
  { rewrite decide_False; [done|]. apply not_elem_of_nil. }
  rewrite fmap_cons. cbn [Dict.get fst].
  destruct (decide (k' = k)) as [->|Hne].
  - rewrite decide_True; [done|]. apply list_elem_of_here.
  - rewrite IH. destruct (decide (k ∈ Dict.keys d)).
    + rewrite decide_True; [done|]. by apply list_elem_of_further.
    + rewrite decide_False; [done|]. by intros [->|?]%elem_of_cons.
Qed.

Lemma keys_fmap_nil {K A B} (d : list (K * A)) :
  Dict.keys ((λ e, (e.1, @nil B)) <$> d) = Dict.keys d.
Proof. unfold Dict.keys. rewrite <- list_fmap_compose. done. Qed.

Section make_graph.
Context (send_recv : list (string * send_recv_entry)).

Lemma dict_append_Ok {A} (d : list (string * list A)) k x :
  k ∈ Dict.keys d → dict_append d k x = Ok (Dict.alter (λ l, l ++ [x]) k d).
Proof.
  intros [l Hl]%Dict_get_is_Some. unfold dict_append. by rewrite Hl.
Qed.

Lemma make_graph_item_undeclared node_id g item :
  ¬ declared send_recv item →
  make_graph_item send_recv node_id g item = Raise (ValueError msg_broken_pipe).
Proof.
  intros Hn. destruct g as [[graph gs] gr]. unfold make_graph_item.
  destruct (Dict.get send_recv item.1) as [ref|] eqn:E; [|done].
  case_decide; [done|]. destruct Hn. exists ref. split; [done|].
  by destruct (decide (item.2 ∈ send ref)).
Qed.

Lemma make_graph_item_declared r g :
  Dict.keys g.1.2 = Dict.keys send_recv →
  Dict.keys g.2 = Dict.keys send_recv →
  r.1 ∈ Dict.keys send_recv →
  declared send_recv r.2 →
  make_graph_item send_recv r.1 g r.2 = Ok (graphs_after [r] g).
Proof.
  destruct g as [[graph gs] gr]. simpl. intros Hgs Hgr Hr (ref & Href & Hin).
  unfold make_graph_item. rewrite Href. rewrite decide_False by auto.
  rewrite (dict_append_Ok gs), (dict_append_Ok gr); [done|..].
  - by rewrite Hgr.
  - rewrite Hgs. by eapply Dict_get_Some_keys.
Qed.

Lemma graphs_after_cons r rs g :
  graphs_after (r :: rs) g = graphs_after rs (graphs_after [r] g).
Proof.
  destruct g as [[graph gs] gr]. unfold graphs_after; simpl.
  by rewrite <- (assoc_L (++)).
Qed.

Lemma make_graph_loop rs : ∀ g,
  Dict.keys g.1.2 = Dict.keys send_recv →
  Dict.keys g.2 = Dict.keys send_recv →
  Forall (λ r, r.1 ∈ Dict.keys send_recv) rs →
  for_each (λ g r, make_graph_item send_recv r.1 g r.2) rs g
  = if decide (Forall (λ r, declared send_recv r.2) rs)
    then Ok (graphs_after rs g)
    else Raise (ValueError msg_broken_pipe).
Proof.
  induction rs as [|r rs IH]; intros g Hgs Hgr Hrs.
  - rewrite decide_True by constructor. destruct g as [[graph gs] gr].
    unfold graphs_after; simpl. by rewrite app_nil_r.
  - apply Forall_cons in Hrs as [Hr Hrs]. cbn [for_each].
    destruct (decide (declared send_recv r.2)) as [Hd|Hd].
    + rewrite make_graph_item_declared by done. cbn [mbind result_bind].
      rewrite IH; [|simpl; by rewrite Dict_keys_alter..|done].
      rewrite <- graphs_after_cons.
      destruct (decide (Forall (λ r, declared send_recv r.2) rs)).
      * rewrite decide_True; [done|]. by constructor.
      * rewrite decide_False; [done|]. by intros [_ ?]%Forall_cons.
    + rewrite make_graph_item_undeclared by done. cbn [mbind result_bind].
      rewrite decide_False; [done|]. by intros [? _]%Forall_cons.
Qed.

Lemma references_consumer r :
  r ∈ references send_recv → r.1 ∈ Dict.keys send_recv.
Proof.
  unfold references. intros (l & Hr & Hl)%list_elem_of_join.
  apply list_elem_of_fmap in Hl as (e & -> & He).
  apply list_elem_of_fmap in Hr as (item & -> & _). simpl.
  apply list_elem_of_fmap. by exists e.
Qed.

Lemma make_graph_unfold :
  make_graph send_recv
  = if decide (Forall (λ r, declared send_recv r.2) (references send_recv))
    then Ok (graphs_after (references send_recv)
               ([], (λ e, (e.1, [])) <$> send_recv, (λ e, (e.1, [])) <$> send_recv))
    else Raise (ValueError msg_broken_pipe).
Proof.
  unfold make_graph.
  rewrite (for_each_nested fst (λ e, recv e.2)
             (λ node_id g item, make_graph_item send_recv node_id g item)).
  apply make_graph_loop; simpl.
  - apply keys_fmap_nil.
  - apply keys_fmap_nil.
  - apply Forall_forall, references_consumer.
Qed.
End make_graph.

Lemma filter_fmap_pre {A B} (f : A → B) (P : B → Prop) `{∀ b, Decision (P b)}
    (l : list A) :
  filter P (f <$> l) = f <$> filter (λ a, P (f a)) l.
Proof.
  induction l as [|a l IH]; [done|].
  rewrite fmap_cons, !filter_cons. destruct (decide (P (f a))); [|done].
  by rewrite fmap_cons, IH.
Qed.

Lemma filter_none {A} (P : A → Prop) `{∀ a, Decision (P a)} (l : list A) :
  (∀ a, a ∈ l → ¬ P a) → filter P l = [].
Proof.
  induction l as [|a l IH]; intros Hl; [done|].
  rewrite filter_cons_False; [|apply Hl, list_elem_of_here].
  apply IH. intros b Hb. by apply Hl, list_elem_of_further.
Qed.

Lemma filter_all {A} (P : A → Prop) `{∀ a, Decision (P a)} (l : list A) :
  (∀ a, a ∈ l → P a) → filter P l = l.
Proof.
  induction l as [|a l IH]; intros Hl; [done|].
  rewrite filter_cons_True; [|apply Hl, list_elem_of_here].
  f_equal. apply IH. intros b Hb. by apply Hl, list_elem_of_further.
Qed.

Lemma references_cons e send_recv :
  references (e :: send_recv)
  = ((λ item, (e.1, item)) <$> recv e.2) ++ references send_recv.
Proof. done. Qed.

Lemma references_of_consumer send_recv v e :
  NoDup (Dict.keys send_recv) → Dict.get send_recv v = Some e →
  filter (λ r, r.1 = v) (references send_recv) = (λ item, (v, item)) <$> recv e.
Proof.
  induction send_recv as [|[k e'] send_recv IH]; [done|].
  intros [Hk Hnd]%NoDup_cons. cbn [Dict.get]. rewrite references_cons, filter_app.
  cbn [fst snd]. destruct (decide (k = v)) as [->|Hne].
  - intros [= ->]. rewrite filter_all, filter_none, app_nil_r; [done|..].
    + intros r Hr%references_consumer Heq. by rewrite Heq in Hr.
    + by intros r (item & -> & _)%list_elem_of_fmap.
  - intros He. rewrite filter_none, IH; [done..|].
    by intros r (item & -> & _)%list_elem_of_fmap.
Qed.

Section make_graph_result.
Context (send_recv : list (string * send_recv_entry))
  (graph : list (string * string)) (gs gr : list (string * list string)).
Hypothesis Hmake : make_graph send_recv = Ok (graph, gs, gr).

Lemma make_graph_declared :
  Forall (λ r, declared send_recv r.2) (references send_recv).
Proof.
  rewrite make_graph_unfold in Hmake. by case_decide.
Qed.

Lemma make_graph_edges : graph = edge_of <$> references send_recv.
Proof.
  rewrite make_graph_unfold in Hmake. case_decide; [|done].
  by injection Hmake as <- _ _.
Qed.

Lemma make_graph_keys_send : Dict.keys gs = Dict.keys send_recv.
Proof.
  rewrite make_graph_unfold in Hmake. case_decide; [|done].
  injection Hmake as _ <- _. cbn [fst snd].
  by rewrite keys_foldl_append, keys_fmap_nil.
Qed.

Lemma make_graph_keys_recv : Dict.keys gr = Dict.keys send_recv.
Proof.
  rewrite make_graph_unfold in Hmake. case_decide; [|done].
  injection Hmake as _ _ <-. cbn [fst snd].
  by rewrite keys_foldl_append, keys_fmap_nil.
Qed.

Lemma make_graph_get_send u :
  Dict.get gs u = if decide (u ∈ Dict.keys send_recv)
                  then Some (receivers_of (references send_recv) u) else None.
Proof.
  rewrite make_graph_unfold in Hmake. case_decide; [|done].
  injection Hmake as _ <- _. cbn [fst snd].
  rewrite (get_foldl_append (λ r, r.2.1) fst), get_fmap_nil.
  by case_decide.
Qed.

Lemma make_graph_get_recv v :
  Dict.get gr v = if decide (v ∈ Dict.keys send_recv)
                  then Some (senders_of (references send_recv) v) else None.
Proof.
  rewrite make_graph_unfold in Hmake. case_decide; [|done].
  injection Hmake as _ _ <-. cbn [fst snd].
  rewrite (get_foldl_append fst (λ r, r.2.1)), get_fmap_nil.
  by case_decide.
Qed.

Lemma make_graph_producer r :
  r ∈ references send_recv → r.2.1 ∈ Dict.keys send_recv.
Proof.
  intros Hr. pose proof make_graph_declared as Hd.
  rewrite Forall_forall in Hd. destruct (Hd r Hr) as (ref & Href & _).
  by eapply Dict_get_Some_keys.
Qed.

Lemma make_graph_neighbours_send u :
  neighbours gs u = receivers_of (references send_recv) u.
Proof.
  unfold neighbours. rewrite make_graph_get_send. case_decide as Hu; [done|].
  simpl. unfold receivers_of. rewrite filter_none; [done|].
  intros r Hr <-. by apply Hu, make_graph_producer.
Qed.

Lemma make_graph_neighbours_recv v :
  neighbours gr v = senders_of (references send_recv) v.
Proof.
  unfold neighbours. rewrite make_graph_get_recv. case_decide as Hv; [done|].
  simpl. unfold senders_of. rewrite filter_none; [done|].
  intros r Hr <-. by apply Hv, references_consumer.
Qed.

Lemma make_graph_edge_send u v : (u, v) ∈ graph ↔ v ∈ neighbours gs u.
Proof.
  rewrite make_graph_edges, make_graph_neighbours_send. unfold receivers_of.
  rewrite !list_elem_of_fmap. split.
  - intros (r & [= -> ->] & Hr). exists r. split; [done|].
    by apply list_elem_of_filter.
  - intros (r & -> & [<- Hr]%list_elem_of_filter). by exists r.
Qed.

Lemma make_graph_edge_recv u v : (u, v) ∈ graph ↔ u ∈ neighbours gr v.
Proof.
  rewrite make_graph_edges, make_graph_neighbours_recv. unfold senders_of.
  rewrite !list_elem_of_fmap. split.
  - intros (r & [= -> ->] & Hr). exists r. split; [done|].
    by apply list_elem_of_filter.
  - intros (r & -> & [<- Hr]%list_elem_of_filter). by exists r.
Qed.

Lemma make_graph_edge_keys u v :
  (u, v) ∈ graph → u ∈ Dict.keys send_recv ∧ v ∈ Dict.keys send_recv.
Proof.
  rewrite make_graph_edges. intros (r & [= -> ->] & Hr)%list_elem_of_fmap.
  split; [by apply make_graph_producer|by apply references_consumer].
Qed.
End make_graph_result.

Lemma references_elem_of send_recv node_id e item :
  (node_id, e) ∈ send_recv → item ∈ recv e → (node_id, item) ∈ references send_recv.
Proof.
  intros He Hitem. apply list_elem_of_join.
  exists ((λ item, (node_id, item)) <$> recv e). split.
  - by apply list_elem_of_fmap_2.
  - apply list_elem_of_fmap. by exists (node_id, e).
Qed.

(** C3: a recv reference whose producer is missing from [send_recv], or
    whose producer has not declared the variable as sent, makes
    [make_graph] raise the broken-pipe [ValueError]; no graph is
    returned. *)
Theorem make_graph_broken_pipe send_recv node_id e producer_id variable_name :
  (node_id, e) ∈ send_recv →
  (producer_id, variable_name) ∈ recv e →
  (producer_id ∉ Dict.keys send_recv
   ∨ ∃ ref, Dict.get send_recv producer_id = Some ref ∧ variable_name ∉ send ref) →
  make_graph send_recv = Raise (ValueError msg_broken_pipe).
Proof.
  intros He Hitem Hbad. rewrite make_graph_unfold. apply decide_False.
  intros Hall. rewrite Forall_forall in Hall.
  destruct (Hall _ (references_elem_of _ _ _ _ He Hitem)) as (ref & Href & Hin).
  simpl in *. destruct Hbad as [Hk|(ref' & Href' & Hnin)].
  - by apply Hk, (Dict_get_Some_keys _ _ ref).
  - by simplify_eq.
Qed.

Lemma count_of_fmap {A B} `{EqDecision B} (f : A → B) (y : B) (l : list A) :
  count_of y (f <$> l) = length (filter (λ a, f a = y) l).
Proof. unfold count_of. by rewrite filter_fmap_pre, length_fmap. Qed.

Lemma filter_comm {A} (P Q : A → Prop) `{∀ a, Decision (P a)}
    `{∀ a, Decision (Q a)} (l : list A) :
  filter P (filter Q l) = filter Q (filter P l).
Proof.
  induction l as [|a l IH]; [done|]. rewrite !filter_cons.
  destruct (decide (Q a)), (decide (P a)); rewrite ?filter_cons;
    repeat case_decide; try done; by rewrite IH.
Qed.

Lemma filter_edge_of u v (rs : list (string * (string * string))) :
  filter (λ r, edge_of r = (u, v)) rs
  = filter (λ r, r.2.1 = u) (filter (λ r, r.1 = v) rs).
Proof.
  induction rs as [|[c [p x]] rs IH]; [done|]. rewrite !filter_cons.
  unfold edge_of at 1. cbn [fst snd].
  destruct (decide (c = v)) as [->|Hc].
  - rewrite filter_cons. cbn [fst snd]. destruct (decide (p = u)) as [->|Hp].
    + rewrite decide_True by done. by rewrite IH.
    + rewrite decide_False; [done|]. by intros [= ->].
  - rewrite decide_False; [done|]. by intros [= _ ->].
Qed.

(** C9, amended: when [make_graph] returns, [graph_send[u]] holds [v] and
    [graph_recv[v]] holds [u] once per reference of [v] to an output of
    [u], exactly as the edge list holds [(u, v)]; the adjacency lists do
    not collapse the repeated entries. *)
Theorem make_graph_entry_per_reference send_recv graph gs gr u v e :
  NoDup (Dict.keys send_recv) →
  make_graph send_recv = Ok (graph, gs, gr) →
  Dict.get send_recv v = Some e →
  count_of v (neighbours gs u) = length (filter (λ item, item.1 = u) (recv e))
  ∧ count_of u (neighbours gr v) = length (filter (λ item, item.1 = u) (recv e))
  ∧ count_of (u, v) graph = length (filter (λ item, item.1 = u) (recv e)).
Proof.
  intros Hnd Hmake He.
  assert (length (filter (λ r, r.2.1 = u)
                    (filter (λ r, r.1 = v) (references send_recv)))
          = length (filter (λ item, item.1 = u) (recv e))) as Hn.
  { rewrite (references_of_consumer _ _ _ Hnd He).
    by rewrite filter_fmap_pre, length_fmap. }
  rewrite (make_graph_neighbours_send _ _ _ _ Hmake),
    (make_graph_neighbours_recv _ _ _ _ Hmake), (make_graph_edges _ _ _ _ Hmake).
  unfold receivers_of, senders_of. rewrite !count_of_fmap.
  split; [|split].
  - by rewrite filter_comm.
  - done.
  - by rewrite filter_edge_of.
Qed.

(** ** The cycle detector *)

Section cycle_proofs.
Context {V : Type} `{Countable V}.
Implicit Types (graph : list (V * list V)) (visited : gset V)
  (path : list (option V)) (stack : list (list V)).

Lemma edge_key graph u v : edge graph u v → u ∈ Dict.keys graph.
Proof.
  unfold edge, neighbours. destruct (Dict.get graph u) eqn:E; simpl.
  - intros _. by eapply Dict_get_Some_keys.
  - by intros ?%not_elem_of_nil.
Qed.

Lemma edge_vertex graph u v : edge graph u v → v ∈ vertices graph.
Proof.
  unfold edge, neighbours, vertices. destruct (Dict.get graph u) eqn:E; simpl.
  - intros Hv. apply elem_of_app. right. apply list_elem_of_join.
    exists l. split; [done|]. apply Dict_get_elem_of in E.
    apply list_elem_of_fmap. by exists (u, l).
  - by intros ?%not_elem_of_nil.
Qed.

Lemma source_vertex graph p v : v ∈ source graph p → v ∈ vertices graph.
Proof.
  destruct p as [u|]; simpl.
  - apply edge_vertex.
  - intros. apply elem_of_app. by left.
Qed.

Lemma tc_cycle_key graph v : tc (edge graph) v v → v ∈ Dict.keys graph.
Proof. inversion 1; by eapply edge_key. Qed.

(** What the three exits of [scan] say about the iterator. *)
Lemma scan_FoundOnPath path_set visited it :
  scan path_set visited it = FoundOnPath →
  ∃ v, v ∈ it ∧ Some v ∈ path_set.
Proof.
  induction it as [|v it IH]; simpl; [done|].
  repeat case_decide; try done.
  - intros _. exists v. split; [apply list_elem_of_here|done].
  - intros [w [??]]%IH. exists w. split; [by apply list_elem_of_further|done].
Qed.

Lemma scan_Descend path_set visited it : ∀ v rest,
  scan path_set visited it = Descend v rest →
  ∃ skipped, it = skipped ++ v :: rest ∧ (Some v ∉ path_set) ∧ (v ∉ visited)
    ∧ ∀ w, w ∈ skipped → w ∈ visited ∧ Some w ∉ path_set.
Proof.
  induction it as [|x it IH]; intros v rest; simpl; [done|].
  repeat case_decide; try done.
  - intros [= ??]. subst. exists [].
    split; [done|]. split; [done|]. split; [done|].
    intros w Hw. by apply elem_of_nil in Hw.
  - intros (skipped & -> & ? & ? & Hs)%IH. exists (x :: skipped).
    split; [done|]. split; [done|]. split; [done|]. intros w [->|?]%elem_of_cons; [|by apply Hs].
    split; [|done]. by destruct (decide (x ∈ visited)).
Qed.

Lemma scan_Exhausted path_set visited it :
  scan path_set visited it = Exhausted →
  ∀ w, w ∈ it → w ∈ visited ∧ Some w ∉ path_set.
Proof.
  induction it as [|x it IH]; simpl.
  - by intros _ w ?%not_elem_of_nil.
  - repeat case_decide; try done.
    intros Hs w [->|?]%elem_of_cons; [|by apply IH].
    split; [by destruct (decide (x ∈ visited))|done].
Qed.

Lemma frames_mono graph visited visited' path stack :
  visited ⊆ visited' →
  frames graph visited path stack → frames graph visited' path stack.
Proof.
  intros Hsub. induction 1 as [|p path it stack done ? IH Hsrc Hdone ? Hp ?].
  - constructor.
  - econstructor; eauto.
    + intros w Hw. destruct (Hdone w Hw). split; [by apply Hsub|done].
    + intros v Hv. destruct (Hp v Hv) as [? ?]. split; [by apply Hsub|done].
Qed.

(** The path is a chain of edges: its top is reachable from every vertex
    on it. *)
Lemma frames_reach graph visited v path stack u :
  frames graph visited (Some v :: path) stack →
  Some u ∈ Some v :: path → rtc (edge graph) u v.
Proof.
  revert v stack. induction path as [|q path IH]; intros v stack Hf Hu.
  - apply list_elem_of_singleton in Hu as [= ->]. done.
  - apply elem_of_cons in Hu as [[= ->]|Hu]; [done|].
    inversion Hf as [|????? Hf' _ _ _ Hp _]; subst.
    destruct (Hp v eq_refl) as [_ (q' & [= <-] & Hq)].
    destruct q as [u'|].
    + eapply rtc_r; [|by apply Hq]. eapply IH; done.
    + inversion Hf' as [|????? _ _ _ _ _ Hnil]; subst.
      rewrite (Hnil eq_refl) in Hu. by apply list_elem_of_singleton in Hu.
Qed.

Lemma closed_rtc graph visited path b w :
  (∀ b w, finished visited path b → edge graph b w → finished visited path w) →
  finished visited path b → rtc (edge graph) b w → finished visited path w.
Proof. intros Hc Hb. induction 1; eauto. Qed.

Lemma size_list_to_set_le (l : list V) :
  size (list_to_set l : gset V) ≤ length l.
Proof.
  induction l as [|x l IH].
  - by rewrite list_to_set_nil, size_empty.
  - rewrite list_to_set_cons, size_union_alt, size_singleton. simpl.
    assert (size (list_to_set l ∖ {[x]} : gset V) ≤ size (list_to_set l : gset V)).
    { apply subseteq_size. intros y. rewrite elem_of_difference. tauto. }
    lia.
Qed.

Lemma budget_descend graph visited stack v it1 it2 it3 :
  v ∈ vertices graph → v ∉ visited →
  S (budget graph ({[v]} ∪ visited) (it1 :: it2 :: stack))
  ≤ budget graph visited (it3 :: stack).
Proof.
  intros Hv Hn. unfold budget; simpl.
  assert (size ((list_to_set (vertices graph) : gset V) ∖ ({[v]} ∪ visited))
          < size ((list_to_set (vertices graph) : gset V) ∖ visited)); [|lia].
  apply subset_size, strict_spec_alt. split.
  - intros x. rewrite !elem_of_difference, elem_of_union. tauto.
  - intros Heq.
    assert (v ∈ (list_to_set (vertices graph) : gset V) ∖ visited) as Hin.
    { apply elem_of_difference. by rewrite elem_of_list_to_set. }
    rewrite <- Heq in Hin. apply elem_of_difference in Hin as [_ Hin].
    apply Hin, elem_of_union. left. by apply elem_of_singleton.
Qed.

Lemma finished_descend visited path v b :
  v ∉ visited →
  finished ({[v]} ∪ visited) (Some v :: path) b ↔ finished visited path b.
Proof.
  intros Hv. unfold finished.
  rewrite elem_of_union, elem_of_singleton, not_elem_of_cons. split.
  - intros [[ ->|?] [Hne ?]]; [by destruct Hne|done].
  - intros [? ?]. split; [by right|]. split; [|done]. by intros [= ->].
Qed.

Lemma cycle_loop_nil graph fuel visited path path_set :
  cycle_loop fuel graph visited path path_set [] = Ok false.
Proof. by destruct fuel. Qed.

Lemma cycle_loop_correct graph fuel : ∀ visited path stack path_set,
  cycle_inv graph visited path stack →
  path_set = list_to_set path →
  (None ∈ path ∨ ∀ k, k ∈ Dict.keys graph → k ∈ visited) →
  budget graph visited stack ≤ fuel →
  ∃ b, cycle_loop fuel graph visited path path_set stack = Ok b
       ∧ (b = true ↔ has_cycle graph).
Proof.
  induction fuel as [|fuel IH];
    intros visited path stack path_set [Hf Hc Ha] -> Hkeys Hfuel;
    (destruct stack as [|top stack];
     [rewrite cycle_loop_nil; exists false; split; [done|];
      split; [done|]; intros [c Hcyc]; exfalso;
      inversion Hf; subst;
      destruct Hkeys as [?%elem_of_nil|Hk]; [done|];
      apply (Ha c); [|done]; split; [|apply not_elem_of_nil];
      apply Hk; by apply tc_cycle_key
     |]).
  { unfold budget in Hfuel; simpl in Hfuel; lia. }
  inversion Hf as [|p path' ? ? done Hf' Hsrc Hdone Hnotin Hp Hnone]; subst.
  cbn [cycle_loop]. destruct (scan _ visited top) as [|v rest|] eqn:Hscan.
  - (* a neighbour of the top of the path is on the path *)
    exists true. split; [done|]. split; [intros _|done].
    apply scan_FoundOnPath in Hscan as (v & Hv & Hon).
    apply elem_of_list_to_set in Hon.
    destruct p as [v0|].
    + exists v0. eapply tc_rtc_r.
      * apply tc_once. unfold edge. simpl in Hsrc. rewrite Hsrc.
        apply elem_of_app. by right.
      * by eapply frames_reach.
    + rewrite (Hnone eq_refl) in Hon. by apply list_elem_of_singleton in Hon.
  - (* a new vertex is visited and pushed *)
    apply scan_Descend in Hscan as (skipped & -> & Hnp & Hnv & Hs).
    assert (v ∈ source graph p) as Hvsrc.
    { rewrite Hsrc. rewrite !elem_of_app, elem_of_cons. tauto. }
    apply IH.
    + split.
      * apply frames_cons with (done := []); try done.
        -- apply frames_cons with (done := done ++ skipped ++ [v]).
           ++ eapply frames_mono; [|done]. apply union_subseteq_r.
           ++ rewrite Hsrc. by rewrite <- !(assoc_L (++)).
           ++ intros w. rewrite !elem_of_app, list_elem_of_singleton.
              rewrite elem_of_union, elem_of_singleton.
              intros [Hw|[Hw| ->]].
              ** destruct (Hdone w Hw). auto.
              ** destruct (Hs w Hw) as [? Hw']. split; [auto|].
                 by rewrite elem_of_list_to_set in Hw'.
              ** split; [auto|]. by rewrite elem_of_list_to_set in Hnp.
           ++ done.
           ++ intros v' Hv'. destruct (Hp v' Hv') as [? ?].
              split; [|done]. apply elem_of_union. by right.
           ++ done.
        -- by intros w ?%elem_of_nil.
        -- by rewrite elem_of_list_to_set in Hnp.
        -- intros v' [= <-]. split.
           ++ apply elem_of_union. left. by apply elem_of_singleton.
           ++ exists p. split; [done|]. by intros u ->.
      * intros b w Hb Hbw. apply finished_descend; [done|].
        apply finished_descend in Hb; [|done]. by eapply Hc.
      * intros b Hb. apply finished_descend in Hb; [|done]. by apply Ha.
    + by rewrite list_to_set_cons.
    + destruct Hkeys as [?|Hk]; [left; by apply list_elem_of_further|].
      right. intros k Hkk. apply elem_of_union. right. by apply Hk.
    + pose proof (budget_descend graph visited stack v (neighbours graph v)
        rest (skipped ++ v :: rest) (source_vertex _ _ _ Hvsrc) Hnv). lia.
  - (* the iterator on top is exhausted: pop *)
    pose proof (scan_Exhausted _ _ _ Hscan) as Hex.
    assert (∀ w, w ∈ source graph p → w ∈ visited ∧ Some w ∉ p :: path') as Hall.
    { intros w. rewrite Hsrc, elem_of_app. intros [Hw|Hw]; [by apply Hdone|].
      destruct (Hex w Hw) as [? Hw']. by rewrite elem_of_list_to_set in Hw'. }
    assert (∀ b w, Some b = p → edge graph b w → finished visited (p :: path') w)
      as Hpop.
    { intros b w <- Hbw. by apply Hall. }
    case_decide as Hin;
      [|exfalso; apply Hin, elem_of_list_to_set, list_elem_of_here].
    apply IH.
    + split; [done| |].
      * intros b w [Hb Hnb] Hbw.
        cut (finished visited (p :: path') w).
        { intros [? [? ?]%not_elem_of_cons]. by split. }
        destruct (decide (Some b = p)) as [Heq|Hne]; [by eapply Hpop|].
        eapply Hc; [|done]. split; [done|]. by apply not_elem_of_cons.
      * intros b [Hb Hnb] Hcyc.
        destruct (decide (Some b = p)) as [Heq|Hne].
        -- assert (finished visited (p :: path') b) as [_ Hfin].
           { inversion Hcyc as [? ? Hbb|? y ? Hby Hyb]; subst.
             - by eapply Hpop.
             - eapply closed_rtc; [done| |by apply tc_rtc]. by eapply Hpop. }
           apply Hfin. rewrite <- Heq. apply list_elem_of_here.
        -- apply (Ha b); [|done]. split; [done|]. by apply not_elem_of_cons.
    + apply set_eq. intros x.
      rewrite elem_of_difference, !elem_of_list_to_set, elem_of_cons,
        elem_of_singleton.
      split; [intros [[?|?] ?]; done|]. intros Hx. split; [by right|].
      by intros ->.
    + destruct Hkeys as [[ <-|?]%elem_of_cons|Hk]; [|by left|by right].
      right. intros k Hk. by destruct (Hall k Hk).
    + unfold budget in *. simpl in Hfuel. lia.
Qed.

Lemma cycle_in_graph_correct graph :
  ∃ b, cycle_in_graph graph = Ok b ∧ (b = true ↔ has_cycle graph).
Proof.
  apply cycle_loop_correct.
  - split.
    + apply frames_cons with (done := []); try done.
      * constructor.
      * by intros w ?%elem_of_nil.
      * apply not_elem_of_nil.
    + intros b w [Hb _]. by apply elem_of_empty in Hb.
    + intros b [Hb _]. by apply elem_of_empty in Hb.
  - apply set_eq. intros x.
    by rewrite elem_of_list_to_set, list_elem_of_singleton, elem_of_singleton.
  - left. apply list_elem_of_here.
  - unfold budget, cycle_fuel. simpl.
    pose proof (size_list_to_set_le (vertices graph)).
    assert (size ((list_to_set (vertices graph) : gset V) ∖ ∅)
            ≤ size (list_to_set (vertices graph) : gset V)).
    { apply subseteq_size. intros x. rewrite elem_of_difference. tauto. }
    lia.
Qed.
(** C1: [cycle_in_graph] returns, and it returns [True] exactly when the
    graph has a directed cycle; vertices need not be keys and the graph
    need not be connected. *)
Theorem cycle_in_graph_iff_cycle graph :
  (cycle_in_graph graph = Ok true ↔ has_cycle graph)
  ∧ (cycle_in_graph graph = Ok false ↔ ¬ has_cycle graph).
Proof.
  destruct (cycle_in_graph_correct graph) as (b & -> & Hb).
  destruct b; split; split; try done.
  - intros _. by apply Hb.
  - intros Hn. destruct Hn. by apply Hb.
  - intros Hc. by apply Hb in Hc.
  - intros _ Hc. by apply Hb in Hc.
Qed.
End cycle_proofs.

(** ** Layering *)

Lemma layer_index_Some layers id j :
  layer_index layers id = Some j → ∃ l, layers !! j = Some l ∧ id ∈ l.
Proof.
  revert j. induction layers as [|l ls IH]; intros j; simpl; [done|].
  case_decide.
  - intros [= <-]. by exists l.
  - destruct (layer_index ls id) as [i|]; simpl; [|done].
    intros [= <-]. by apply IH.
Qed.

Lemma layer_index_lt layers id j :
  layer_index layers id = Some j → j < length layers.
Proof.
  intros (l & Hl & _)%layer_index_Some. by eapply lookup_lt_Some.
Qed.

Lemma layer_index_elem_of layers id :
  id ∈ mjoin layers → is_Some (layer_index layers id).
Proof.
  induction layers as [|l ls IH]; simpl.
  - by intros ?%elem_of_nil.
  - intros [?|Hin]%elem_of_app; case_decide; try done.
    destruct (IH Hin) as [i ->]. done.
Qed.

Lemma layer_index_app layers1 layers2 id i :
  layer_index layers1 id = Some i → layer_index (layers1 ++ layers2) id = Some i.
Proof.
  revert i. induction layers1 as [|l ls IH]; intros i; simpl; [done|].
  case_decide; [done|].
  destruct (layer_index ls id) as [j|]; simpl; [|done].
  intros [= <-]. by rewrite (IH j).
Qed.

Lemma tc_flip {A} (R : relation A) x y : tc (flip R) x y → tc R y x.
Proof.
  induction 1 as [x y Hxy|x y z Hxy _ IH].
  - by apply tc_once.
  - eapply tc_r; [apply IH|done].
Qed.

Lemma neighbours_entry {V} `{Countable V} (d : list (V * list V)) e :
  NoDup (Dict.keys d) → e ∈ d → neighbours d e.1 = e.2.
Proof.
  intros Hnd He. unfold neighbours. destruct e as [k l].
  by rewrite (Dict_get_NoDup d k l Hnd He).
Qed.

Lemma neighbours_key {V} `{Countable V} (d : list (V * list V)) u v :
  v ∈ neighbours d u → u ∈ Dict.keys d.
Proof.
  unfold neighbours. destruct (Dict.get d u) eqn:E; simpl.
  - intros _. by eapply Dict_get_Some_keys.
  - by intros ?%elem_of_nil.
Qed.

Lemma keys_elem_of {K V} (d : list (K * V)) k :
  k ∈ Dict.keys d ↔ ∃ e, e ∈ d ∧ e.1 = k.
Proof.
  unfold Dict.keys. rewrite list_elem_of_fmap. split.
  - intros (e & -> & He). by exists e.
  - intros (e & He & <-). by exists e.
Qed.

Section classify.
Context (graph_send graph_recv : list (string * list string)).

Lemma classify_node_unfold acc e :
  classify_node graph_recv acc e
  = if decide (e.2 = []) then Ok (acc.1, acc.2 ++ [e.1])
    else match Dict.get graph_recv e.1 with
         | Some senders =>
             if decide (senders = []) then Ok (acc.1 ++ [e.1], acc.2) else Ok acc
         | None => Raise KeyError
         end.
Proof.
  destruct acc as [starts ends]. unfold classify_node, Dict.item.
  destruct e as [id [|x l]]; simpl; [done|].
  destruct (Dict.get graph_recv id) as [[|y senders]|]; done.
Qed.

Lemma classify_loop_Ok l : ∀ acc res,
  for_each (classify_node graph_recv) l acc = Ok res →
  res = (acc.1 ++ start_nodes_of graph_recv l, acc.2 ++ end_nodes_of l).
Proof.
  unfold start_nodes_of, end_nodes_of.
  induction l as [|e l IH]; intros acc res; cbn [for_each].
  - intros [= <-]. destruct acc. simpl. by rewrite !app_nil_r.
  - rewrite classify_node_unfold, !filter_cons. unfold neighbours.
    destruct (decide (e.2 = [])) as [He|He].
    + cbn [mbind result_bind]. intros ->%IH. cbn [fst snd].
      rewrite decide_False by (by intros [? _]).
      by rewrite fmap_cons, <- (assoc_L (++)).
    + destruct (Dict.get graph_recv e.1) as [senders|]; [|done].
      cbn [default]. destruct (decide (senders = [])) as [Hs|Hs].
      * cbn [mbind result_bind]. intros ->%IH. cbn [fst snd].
        rewrite decide_True by done.
        by rewrite fmap_cons, <- (assoc_L (++)).
      * cbn [mbind result_bind]. intros ->%IH.
        rewrite decide_False; [done|]. by intros [_ ?].
Qed.

Lemma classify_loop_total l acc :
  (∀ e, e ∈ l → e.1 ∈ Dict.keys graph_recv) →
  ∃ res, for_each (classify_node graph_recv) l acc = Ok res.
Proof.
  revert acc. induction l as [|e l IH]; intros acc Hl; cbn [for_each].
  - by eexists.
  - rewrite classify_node_unfold.
    assert (∀ e', e' ∈ l → e'.1 ∈ Dict.keys graph_recv) as Hl'.
    { intros e' He'. by apply Hl, list_elem_of_further. }
    destruct (decide (e.2 = [])); [by apply IH|].
    destruct (Dict_get_is_Some graph_recv e.1) as [_ [senders Hs]].
    { apply Hl, list_elem_of_here. }
    rewrite Hs. destruct (decide (senders = [])); by apply IH.
Qed.

Lemma layer_loop_prefix fuel : ∀ layers collected layers',
  layer_loop fuel graph_send graph_recv layers collected = Ok layers' →
  ∃ rest, layers' = layers ++ rest.
Proof.
  induction fuel as [|fuel IH]; intros layers collected layers'; simpl;
    case_decide; try done.
  - intros [= <-]. exists []. by rewrite app_nil_r.
  - intros [rest ->]%IH. eexists. by rewrite <- (assoc_L (++)).
  - intros [= <-]. exists []. by rewrite app_nil_r.
Qed.
(** [Diverge] stands for a run that does not end: a round that finds no
    node leaves [collected] as it is, and the loop goes on for ever. *)
Lemma layer_loop_stuck fuel : ∀ layers collected,
  length collected < length graph_send →
  next_layer_of graph_recv collected = [] →
  layer_loop fuel graph_send graph_recv layers collected = Diverge.
Proof.
  induction fuel as [|fuel IH]; intros layers collected Hlt Hnil;
    cbn [layer_loop]; rewrite decide_True by done; [done|].
  rewrite Hnil, app_nil_r. by apply IH.
Qed.

(** With [len(graph_send)] rounds allowed, the loop is only cut short on
    such a run. *)
Lemma layer_loop_Diverge fuel : ∀ layers collected,
  length graph_send - length collected ≤ fuel →
  layer_loop fuel graph_send graph_recv layers collected = Diverge →
  ∃ collected', length collected' < length graph_send
                ∧ next_layer_of graph_recv collected' = [].
Proof.
  induction fuel as [|fuel IH]; intros layers collected Hfuel;
    cbn [layer_loop]; (case_decide as Hlt; [|done]).
  - lia.
  - destruct (next_layer_of graph_recv collected) as [|id next] eqn:Hnext.
    + intros _. by exists collected.
    + apply IH. rewrite length_app. simpl. lia.
Qed.
End classify.

Lemma NoDup_filter_keys {K V} (P : K * V → Prop) `{∀ e, Decision (P e)}
    (d : list (K * V)) :
  NoDup (Dict.keys d) → NoDup (filter P d).*1.
Proof.
  intros Hnd. apply (sublist_NoDup _ (Dict.keys d)); [done|].
  apply fmap_sublist, sublist_filter.
Qed.

Lemma filter_keys_elem_of {K V} (P : K * V → Prop) `{∀ e, Decision (P e)}
    (d : list (K * V)) k :
  k ∈ (filter P d).*1 ↔ ∃ e, e ∈ d ∧ e.1 = k ∧ P e.
Proof.
  rewrite list_elem_of_fmap. split.
  - intros (e & -> & [? ?]%list_elem_of_filter). by exists e.
  - intros (e & He & <- & HP). exists e. split; [done|].
    by apply list_elem_of_filter.
Qed.

Lemma join_snoc {A} (ls : list (list A)) (l : list A) :
  mjoin (ls ++ [l]) = mjoin ls ++ l.
Proof. rewrite join_app. simpl. by rewrite app_nil_r. Qed.

Section layering.
Context (graph_send graph_recv : list (string * list string)).
Hypothesis Hnodup : NoDup (Dict.keys graph_send).
Hypothesis Hkeys : Dict.keys graph_recv = Dict.keys graph_send.
Hypothesis Hrecv :
  ∀ u v, u ∈ neighbours graph_recv v → v ∈ neighbours graph_send u.
Hypothesis Hacyclic : ¬ has_cycle graph_send.

Abbreviation layering := (layering graph_send graph_recv).

Lemma next_layer_elem_of collected id :
  id ∈ next_layer_of graph_recv collected
  ↔ id ∈ Dict.keys graph_recv ∧ (id ∉ collected)
    ∧ ∀ u, u ∈ neighbours graph_recv id → u ∈ collected.
Proof.
  unfold next_layer_of. rewrite filter_keys_elem_of, keys_elem_of.
  assert (NoDup (Dict.keys graph_recv)) as Hnd by (by rewrite Hkeys).
  split.
  - intros (e & He & <- & Hn & Hsub). split; [by exists e|]. split; [done|].
    intros u Hu. rewrite (neighbours_entry _ _ Hnd He) in Hu.
    rewrite elem_of_subseteq in Hsub. specialize (Hsub u).
    rewrite !elem_of_list_to_set in Hsub. auto.
  - intros ((e & He & <-) & Hn & Hsub). exists e. split; [done|].
    split; [done|]. split; [done|].
    apply elem_of_subseteq. intros u. rewrite !elem_of_list_to_set.
    intros Hu. apply Hsub. by rewrite (neighbours_entry _ _ Hnd He).
Qed.

Lemma next_layer_NoDup collected :
  NoDup (next_layer_of graph_recv collected).
Proof. apply NoDup_filter_keys. by rewrite Hkeys. Qed.

Lemma layering_snoc layers :
  layering layers →
  layering (layers ++ [next_layer_of graph_recv (mjoin layers)]).
Proof.
  intros [Hnd Hk Ho]. split.
  - rewrite join_snoc. apply NoDup_app. split; [done|].
    split; [|apply next_layer_NoDup].
    intros id Hid (_ & Hn & _)%next_layer_elem_of. done.
  - intros id. rewrite join_snoc, elem_of_app.
    intros [?|(Hid & _)%next_layer_elem_of]; [by apply Hk|].
    by rewrite <- Hkeys.
  - intros j l v u Hj Hv Hu.
    apply lookup_app_Some in Hj as [Hj|[Hlen Hj]].
    + rewrite take_app_le by (by eapply Nat.lt_le_incl, lookup_lt_Some).
      by eapply Ho.
    + destruct (j - length layers) as [|n] eqn:Hn; [|done].
      injection Hj as <-. assert (j = length layers) as -> by lia.
      rewrite take_app_length.
      apply next_layer_elem_of in Hv as (_ & _ & Hv). by apply Hv.
Qed.

(** In an acyclic graph, walking back along senders ends. *)
Lemma senders_sn x : sn (λ v u, u ∈ neighbours graph_recv v) x.
Proof.
  assert (∀ a b, tc (λ v u, u ∈ neighbours graph_recv v) a b
                 → tc (edge graph_send) b a) as Hback.
  { induction 1 as [a b Hab|a b c Hab _ IH].
    - by apply tc_once, Hrecv.
    - eapply tc_r; [done|]. by apply Hrecv. }
  apply tc_finite_sn.
  - intros v Hv. apply Hacyclic. exists v. by apply Hback.
  - exists (Dict.keys graph_send). intros y Hy.
    assert (∀ a b, tc (λ v u, u ∈ neighbours graph_recv v) a b
                   → b ∈ Dict.keys graph_send) as Hin.
    { induction 1 as [a b Hab|a b c Hab _ IH]; [|done].
      eapply neighbours_key. by apply Hrecv. }
    by eapply Hin.
Qed.

Lemma ready_node collected x :
  x ∈ Dict.keys graph_send → x ∉ collected →
  ∃ y, y ∈ next_layer_of graph_recv collected.
Proof.
  induction (senders_sn x) as [x _ IH]. intros Hx Hn.
  destruct (decide (Forall (λ u, u ∈ collected) (neighbours graph_recv x)))
    as [Hall|Hex].
  - exists x. apply next_layer_elem_of. rewrite Hkeys. split; [done|].
    split; [done|]. by apply Forall_forall.
  - apply not_Forall_Exists in Hex; [|apply _].
    apply Exists_exists in Hex as (u & Hu & Hnu).
    apply (IH u).
    + exact Hu.
    + eapply neighbours_key. by apply Hrecv.
    + exact Hnu.
Qed.

Lemma uncollected_node collected :
  NoDup collected → length collected < length graph_send →
  ∃ x, x ∈ Dict.keys graph_send ∧ x ∉ collected.
Proof.
  intros Hnd Hlen.
  destruct (decide (Forall (λ x, x ∈ collected) (Dict.keys graph_send)))
    as [Hall|Hex].
  - exfalso. rewrite Forall_forall in Hall.
    pose proof (submseteq_length _ _ (NoDup_submseteq _ _ Hnodup Hall)) as Hle.
    unfold Dict.keys in Hle. rewrite length_fmap in Hle. lia.
  - apply not_Forall_Exists in Hex; [|apply _].
    apply Exists_exists in Hex as (x & Hx & Hnx). by exists x.
Qed.

Lemma layer_loop_layering fuel : ∀ layers,
  layering layers →
  length graph_send - length (mjoin layers) ≤ fuel →
  ∃ layers', layer_loop fuel graph_send graph_recv layers (mjoin layers)
             = Ok layers'
    ∧ layering layers' ∧ length graph_send ≤ length (mjoin layers').
Proof.
  induction fuel as [|fuel IH]; intros layers Hl Hfuel; cbn [layer_loop];
    (case_decide as Hlt; [|exists layers; split; [done|]; split; [done|lia]]).
  - lia.
  - destruct (uncollected_node (mjoin layers)) as (x & Hx & Hnx);
      [by destruct Hl|done|].
    destruct (ready_node _ _ Hx Hnx) as [y Hy].
    rewrite <- join_snoc. apply IH; [by apply layering_snoc|].
    rewrite join_snoc, length_app.
    assert (0 < length (next_layer_of graph_recv (mjoin layers))); [|lia].
    destruct (next_layer_of graph_recv (mjoin layers)); simpl; [|lia].
    by apply elem_of_nil in Hy.
Qed.

Lemma layering_Permutation layers :
  layering layers → length graph_send ≤ length (mjoin layers) →
  mjoin layers ≡ₚ Dict.keys graph_send.
Proof.
  intros [Hnd Hk _] Hlen. apply submseteq_length_Permutation.
  - by apply NoDup_submseteq.
  - unfold Dict.keys. by rewrite length_fmap.
Qed.

Lemma layering_start :
  layering [start_nodes_of graph_recv graph_send].
Proof.
  unfold start_nodes_of. split.
  - simpl. rewrite app_nil_r. by apply NoDup_filter_keys.
  - intros id. simpl. rewrite app_nil_r.
    intros (e & He & <- & _)%filter_keys_elem_of.
    apply keys_elem_of. by exists e.
  - intros [|j] l v u; [|done]. intros [= <-].
    intros (e & He & <- & _ & Hr)%filter_keys_elem_of. rewrite Hr.
    by intros ?%elem_of_nil.
Qed.

Lemma hierarchicy_layering :
  ∃ layers final,
    layering layers ∧ mjoin layers ≡ₚ Dict.keys graph_send
    ∧ last layers = Some final
    ∧ hierarchicy graph_send graph_recv
      = if decide ((list_to_set (end_nodes_of graph_send) : gset string)
                   ≠ list_to_set final)
        then Raise (ValueError msg_not_proper) else Ok layers.
Proof.
  unfold hierarchicy.
  destruct (classify_loop_total graph_recv graph_send ([], [])) as [res Hres].
  { intros e He. rewrite Hkeys. apply keys_elem_of. by exists e. }
  rewrite Hres. apply classify_loop_Ok in Hres as ->.
  cbn [mbind result_bind fst snd app].
  destruct (layer_loop_layering (length graph_send)
              [start_nodes_of graph_recv graph_send] layering_start)
    as (layers & Hloop & Hl & Hlen); [lia|].
  simpl in Hloop. rewrite app_nil_r in Hloop. rewrite Hloop.
  cbn [mbind result_bind].
  destruct (layer_loop_prefix _ _ _ _ _ _ Hloop) as [rest ->].
  destruct (last ([start_nodes_of graph_recv graph_send] ++ rest))
    as [final|] eqn:Hlast.
  2:{ by apply last_None in Hlast. }
  exists ([start_nodes_of graph_recv graph_send] ++ rest), final.
  split; [done|]. split; [by apply layering_Permutation|]. split; [done|].
  unfold list_index. rewrite Nat.sub_1_r, <- last_lookup, Hlast.
  cbn [mbind result_bind]. by case_decide.
Qed.

Lemma layering_index layers u v :
  layering layers → v ∈ mjoin layers → u ∈ neighbours graph_recv v →
  ∃ i j, layer_index layers u = Some i ∧ layer_index layers v = Some j ∧ i < j.
Proof.
  intros [_ _ Ho] [j Hj]%layer_index_elem_of Hu.
  destruct (layer_index_Some _ _ _ Hj) as (l & Hl & Hv).
  destruct (layer_index_elem_of _ _ (Ho j l v u Hl Hv Hu)) as [i Hi].
  exists i, j. split; [|split; [done|]].
  - rewrite <- (take_drop j layers). by apply layer_index_app.
  - apply layer_index_lt in Hi. rewrite length_take in Hi. lia.
Qed.

Lemma end_nodes_elem_of id :
  id ∈ end_nodes_of graph_send
  ↔ id ∈ Dict.keys graph_send ∧ neighbours graph_send id = [].
Proof.
  unfold end_nodes_of. rewrite filter_keys_elem_of, keys_elem_of. split.
  - intros (e & He & <- & Hnil). split; [by exists e|].
    by rewrite (neighbours_entry _ _ Hnodup He).
  - intros ((e & He & <-) & Hnil). exists e. split; [done|]. split; [done|].
    by rewrite <- (neighbours_entry _ _ Hnodup He).
Qed.
End layering.

Lemma hierarchicy_head graph_send graph_recv layers :
  hierarchicy graph_send graph_recv = Ok layers →
  head layers = Some (start_nodes_of graph_recv graph_send).
Proof.
  unfold hierarchicy.
  destruct (for_each _ graph_send _) as [res| |] eqn:Hres; [|done..].
  apply classify_loop_Ok in Hres as ->. cbn [mbind result_bind fst snd app].
  destruct (layer_loop _ _ _ _ _) as [layers'| |] eqn:Hloop; [|done..].
  apply layer_loop_prefix in Hloop as [rest ->]. cbn [mbind result_bind].
  destruct (list_index _ _); [|done..]. cbn [mbind result_bind].
  case_decide; [done|]. by intros [= <-].
Qed.

(** The layers that the loop builds, whatever the validation says of
    them. *)
Lemma layer_index_unique layers j l v :
  NoDup (mjoin layers) → layers !! j = Some l → v ∈ l →
  layer_index layers v = Some j.
Proof.
  revert j. induction layers as [|l0 layers IH]; intros j Hnd Hj Hv; [done|].
  simpl in Hnd. apply NoDup_app in Hnd as (_ & Hdisj & Hnd).
  destruct j as [|j]; simpl in *.
  - injection Hj as ->. by rewrite decide_True.
  - rewrite decide_False.
    + by rewrite (IH j).
    + intros Hv0. apply (Hdisj v Hv0). apply list_elem_of_join.
      exists l. split; [done|]. by eapply list_elem_of_lookup_2.
Qed.

Lemma layer_index_member layers v j :
  layer_index layers v = Some j → v ∈ mjoin layers.
Proof.
  intros (l & Hl & Hv)%layer_index_Some. apply list_elem_of_join.
  exists l. split; [done|]. by eapply list_elem_of_lookup_2.
Qed.

Section layer_loop_result.
Context (graph_send graph_recv : list (string * list string)).
Hypothesis Hnodup : NoDup (Dict.keys graph_send).
Hypothesis Hkeys : Dict.keys graph_recv = Dict.keys graph_send.

Lemma layers_tight_snoc layers :
  layers ≠ [] →
  next_layer_of graph_recv (mjoin layers) ≠ [] →
  layers_tight graph_recv layers →
  layers_tight graph_recv (layers ++ [next_layer_of graph_recv (mjoin layers)]).
Proof.
  intros Hne Hnext Ht j l Hj.
  apply lookup_app_Some in Hj as [Hj|[Hlen Hj]].
  - rewrite take_app_le by (by apply lookup_lt_Some in Hj; lia).
    by apply Ht.
  - destruct (S j - length layers) as [|n] eqn:Hn; [|done].
    injection Hj as <-. assert (S j = length layers) as -> by lia.
    by rewrite take_app_length.
Qed.

Lemma layer_loop_Ok_layering fuel : ∀ layers layers',
  layers ≠ [] →
  layering graph_send graph_recv layers →
  layers_tight graph_recv layers →
  layer_loop fuel graph_send graph_recv layers (mjoin layers) = Ok layers' →
  layering graph_send graph_recv layers'
  ∧ layers_tight graph_recv layers'
  ∧ length graph_send ≤ length (mjoin layers').
Proof.
  induction fuel as [|fuel IH]; intros layers layers' Hne Hl Ht;
    cbn [layer_loop]; case_decide as Hlt; try done.
  - intros [= <-]. split; [done|]. split; [done|lia].
  - destruct (decide (next_layer_of graph_recv (mjoin layers) = []))
      as [Hnil|Hnext].
    + rewrite Hnil, app_nil_r.
      by rewrite (layer_loop_stuck _ _ _ _ _ Hlt Hnil).
    + rewrite <- join_snoc. apply IH.
      * by destruct layers.
      * by apply layering_snoc.
      * by apply layers_tight_snoc.
  - intros [= <-]. split; [done|]. split; [done|lia].
Qed.

Lemma layer_loop_no_Raise fuel : ∀ layers collected e,
  layer_loop fuel graph_send graph_recv layers collected ≠ Raise e.
Proof.
  induction fuel as [|fuel IH]; intros layers collected e;
    cbn [layer_loop]; case_decide; done.
Qed.

(** What [hierarchicy] computes before it compares the last layer with the
    end nodes. *)
Lemma hierarchicy_Ok_layering layers :
  hierarchicy graph_send graph_recv = Ok layers →
  layering graph_send graph_recv layers
  ∧ layers_tight graph_recv layers
  ∧ mjoin layers ≡ₚ Dict.keys graph_send.
Proof.
  unfold hierarchicy.
  destruct (for_each _ graph_send _) as [res| |] eqn:Hres; [|done..].
  apply classify_loop_Ok in Hres as ->. cbn [mbind result_bind fst snd app].
  destruct (layer_loop _ _ _ _ _) as [layers'| |] eqn:Hloop; [|done..].
  cbn [mbind result_bind]. destruct (list_index _ _); [|done..].
  cbn [mbind result_bind]. case_decide; [done|]. intros [= <-].
  destruct (layer_loop_Ok_layering (length graph_send)
              [start_nodes_of graph_recv graph_send] layers')
    as (Hl & Ht & Hlen);
    [done|exact (layering_start graph_send graph_recv Hnodup)| | |].
  - by intros j l ?.
  - simpl. by rewrite app_nil_r.
  - split; [done|]. split; [done|].
    by apply (layering_Permutation _ graph_recv).
Qed.
End layer_loop_result.

Lemma filter_ext_elem {A} (P Q : A → Prop) `{∀ a, Decision (P a)}
    `{∀ a, Decision (Q a)} (l : list A) :
  (∀ a, a ∈ l → P a ↔ Q a) → filter P l = filter Q l.
Proof.
  induction l as [|a l IH]; intros Hl; [done|]. rewrite !filter_cons.
  assert (filter P l = filter Q l) as ->.
  { apply IH. intros b Hb. by apply Hl, list_elem_of_further. }
  pose proof (Hl a (list_elem_of_here _ _)) as Ha.
  destruct (decide (P a)), (decide (Q a)); tauto.
Qed.

Section layered.
Context (send_recv : list (string * send_recv_entry)).
Context (graph : list (string * string))
  (graph_send graph_recv : list (string * list string)).
Hypothesis Hnd : NoDup (Dict.keys send_recv).
Hypothesis Hmake : make_graph send_recv = Ok (graph, graph_send, graph_recv).

Lemma source_nodes_start :
  start_nodes_of graph_recv graph_send = source_nodes send_recv graph.
Proof.
  pose proof (make_graph_keys_send _ _ _ _ Hmake) as Hks.
  assert (NoDup (Dict.keys graph_send)) as Hnds by (by rewrite Hks).
  unfold start_nodes_of, source_nodes. rewrite <- Hks. unfold Dict.keys.
  rewrite filter_fmap_pre. f_equal. apply filter_ext_elem. intros e He.
  rewrite <- (neighbours_entry _ _ Hnds He).
  rewrite Exists_exists, Forall_forall. split.
  - intros [Hsend Hrecv]. split.
    + destruct (neighbours graph_send e.1) as [|v vs] eqn:Hn; [done|].
      exists (e.1, v). split; [|done].
      apply (make_graph_edge_send _ _ _ _ Hmake). rewrite Hn.
      apply list_elem_of_here.
    + intros [u v] Huv Hv. cbn in Hv. subst v.
      apply (make_graph_edge_recv _ _ _ _ Hmake) in Huv.
      rewrite Hrecv in Huv. by apply elem_of_nil in Huv.
  - intros [([u v] & Huv & Hu) Hnone]. cbn in Hu. subst u. split.
    + apply (make_graph_edge_send _ _ _ _ Hmake) in Huv.
      intros Hnil. rewrite Hnil in Huv. by apply elem_of_nil in Huv.
    + apply elem_of_nil_inv. intros u Hu.
      apply (make_graph_edge_recv _ _ _ _ Hmake) in Hu.
      by apply (Hnone _ Hu).
Qed.

Lemma ready_nodes_next collected :
  next_layer_of graph_recv collected = ready_nodes send_recv graph collected.
Proof.
  pose proof (make_graph_keys_recv _ _ _ _ Hmake) as Hkr.
  assert (NoDup (Dict.keys graph_recv)) as Hndr by (by rewrite Hkr).
  unfold next_layer_of, ready_nodes. rewrite <- Hkr. unfold Dict.keys.
  rewrite filter_fmap_pre. f_equal. apply filter_ext_elem. intros e He.
  apply and_iff_compat_l.
  rewrite <- (neighbours_entry _ _ Hndr He), Forall_forall. split.
  - intros Hsub [u v] Huv Hv. cbn in Hv |- *. subst v.
    apply (make_graph_edge_recv _ _ _ _ Hmake) in Huv.
    assert (u ∈ (list_to_set collected : gset string)) as Hu.
    { apply Hsub. by apply elem_of_list_to_set. }
    by apply elem_of_list_to_set in Hu.
  - intros Hall u Hu%elem_of_list_to_set. apply elem_of_list_to_set.
    apply (make_graph_edge_recv _ _ _ _ Hmake) in Hu.
    by apply (Hall _ Hu).
Qed.

Lemma layered_tight layers :
  head layers = Some (start_nodes_of graph_recv graph_send) →
  layers_tight graph_recv layers → layered send_recv graph layers.
Proof.
  intros Hhead Htight. split; [by rewrite <- source_nodes_start|].
  intros j l Hl. rewrite <- ready_nodes_next. by apply Htight.
Qed.

(** The layers are determined: two lists of layers that are built by the
    rule agree as far as both go, and one that holds every node ends. *)
Lemma layered_take layers layers' n :
  layered send_recv graph layers → layered send_recv graph layers' →
  n ≤ length layers → n ≤ length layers' → take n layers = take n layers'.
Proof.
  intros [Hhead Hnext] [Hhead' Hnext'].
  induction n as [|[|j] IH]; intros Hn Hn'; [done|..].
  - destruct layers as [|l layers]; [done|].
    destruct layers' as [|l' layers']; [done|].
    injection Hhead as ->. injection Hhead' as ->. done.
  - destruct (lookup_lt_is_Some_2 layers (S j)) as [l Hl]; [lia|].
    destruct (lookup_lt_is_Some_2 layers' (S j)) as [l' Hl']; [lia|].
    rewrite (take_S_r _ _ _ Hl), (take_S_r _ _ _ Hl'), IH by lia.
    destruct (Hnext _ _ Hl) as [-> _]. destruct (Hnext' _ _ Hl') as [-> _].
    by rewrite IH by lia.
Qed.

Lemma layered_ends layers layers' :
  layered send_recv graph layers → layered send_recv graph layers' →
  mjoin layers ≡ₚ Dict.keys send_recv →
  length layers' ≤ length layers.
Proof.
  intros Hl Hl' Hperm.
  destruct (decide (length layers' ≤ length layers)) as [|Hlt]; [done|].
  exfalso.
  assert (0 < length layers) as Hpos.
  { destruct Hl as [Hhead _]. destruct layers; [done|cbn; lia]. }
  destruct (lookup_lt_is_Some_2 layers' (length layers)) as [l Hlook]; [lia|].
  destruct layers as [|l0 layers]; [cbn in Hpos; lia|].
  cbn [length] in Hlook, Hlt.
  destruct Hl' as [Hhead' Hnext'].
  destruct (Hnext' _ _ Hlook) as [Heq Hne].
  rewrite <- (layered_take (l0 :: layers) layers') in Heq;
    [|done|by split|cbn; lia|cbn in *; lia].
  change (S (length layers)) with (length (l0 :: layers)) in Heq.
  rewrite firstn_all in Heq.
  destruct l as [|id l]; [done|].
  assert (id ∈ ready_nodes send_recv graph (mjoin (l0 :: layers))) as Hid
    by (rewrite <- Heq; apply list_elem_of_here).
  apply list_elem_of_filter in Hid as [[Hout _] Hkey].
  apply Hout. by rewrite Hperm.
Qed.

Lemma layered_unique layers layers' :
  layered send_recv graph layers → layered send_recv graph layers' →
  mjoin layers ≡ₚ Dict.keys send_recv →
  mjoin layers' ≡ₚ Dict.keys send_recv →
  layers' = layers.
Proof.
  intros Hl Hl' Hperm Hperm'.
  pose proof (layered_ends _ _ Hl Hl' Hperm).
  pose proof (layered_ends _ _ Hl' Hl Hperm').
  assert (length layers' = length layers) as Hlen by lia.
  rewrite <- (firstn_all layers'), <- (firstn_all layers), Hlen.
  symmetry. apply layered_take; [done..|lia].
Qed.
End layered.

Lemma hierarchicy_layering_tight graph_send graph_recv :
  NoDup (Dict.keys graph_send) →
  Dict.keys graph_recv = Dict.keys graph_send →
  (∀ u v, u ∈ neighbours graph_recv v → v ∈ neighbours graph_send u) →
  ¬ has_cycle graph_send →
  ∃ layers final,
    layering graph_send graph_recv layers
    ∧ head layers = Some (start_nodes_of graph_recv graph_send)
    ∧ layers_tight graph_recv layers
    ∧ mjoin layers ≡ₚ Dict.keys graph_send
    ∧ last layers = Some final
    ∧ hierarchicy graph_send graph_recv
      = if decide ((list_to_set (end_nodes_of graph_send) : gset string)
                   ≠ list_to_set final)
        then Raise (ValueError msg_not_proper) else Ok layers.
Proof.
  intros Hnodup Hkeys Hrecv Hacyclic. unfold hierarchicy.
  destruct (classify_loop_total graph_recv graph_send ([], [])) as [res Hres].
  { intros e He. rewrite Hkeys. apply keys_elem_of. by exists e. }
  rewrite Hres. apply classify_loop_Ok in Hres as ->.
  cbn [mbind result_bind fst snd app].
  pose proof (layering_start graph_send graph_recv Hnodup) as Hstart.
  destruct (layer_loop_layering graph_send graph_recv Hnodup Hkeys Hrecv
              Hacyclic (length graph_send)
              [start_nodes_of graph_recv graph_send] Hstart)
    as (layers & Hloop & Hl & Hlen); [lia|].
  destruct (layer_loop_Ok_layering graph_send graph_recv Hnodup Hkeys
              (length graph_send) [start_nodes_of graph_recv graph_send]
              layers) as (_ & Htight & _); [done|done|by intros j l ?|done|].
  simpl in Hloop. rewrite app_nil_r in Hloop. rewrite Hloop.
  cbn [mbind result_bind].
  destruct (layer_loop_prefix _ _ _ _ _ _ Hloop) as [rest ->].
  destruct (last ([start_nodes_of graph_recv graph_send] ++ rest))
    as [final|] eqn:Hlast.
  2:{ by apply last_None in Hlast. }
  exists ([start_nodes_of graph_recv graph_send] ++ rest), final.
  split; [done|]. split; [done|]. split; [done|].
  split; [by apply (layering_Permutation _ graph_recv)|]. split; [done|].
  unfold list_index. rewrite Nat.sub_1_r, <- last_lookup, Hlast.
  cbn [mbind result_bind]. by case_decide.
Qed.

(** C2: for an acyclic graph built by [make_graph], the layers that
    [hierarchicy] computes are the ones the edges fix: the nodes that send
    and do not receive first, then round by round the nodes all of whose
    senders are placed, and no other list of layers is built by this rule
    and holds every node.  In them every edge goes from a layer to a
    strictly later one and every node id occurs exactly once;
    [hierarchicy] returns them when the final layer is the set of nodes
    without outgoing edge, and raises the validation [ValueError]
    otherwise. *)
Theorem hierarchicy_topological_partition send_recv graph graph_send graph_recv :
  NoDup (Dict.keys send_recv) →
  make_graph send_recv = Ok (graph, graph_send, graph_recv) →
  cycle_in_graph graph_send = Ok false →
  ∃ layers final,
    layered send_recv graph layers
    ∧ (∀ layers', layered send_recv graph layers' →
                  mjoin layers' ≡ₚ Dict.keys send_recv → layers' = layers)
    ∧ last layers = Some final
    ∧ (∀ u v, (u, v) ∈ graph →
         ∃ i j, layer_index layers u = Some i ∧ layer_index layers v = Some j
                ∧ i < j)
    ∧ mjoin layers ≡ₚ Dict.keys send_recv
    ∧ (((∀ id, id ∈ final ↔ sink send_recv graph id)
         ∧ hierarchicy graph_send graph_recv = Ok layers)
       ∨ (¬ (∀ id, id ∈ final ↔ sink send_recv graph id)
          ∧ hierarchicy graph_send graph_recv = Raise (ValueError msg_not_proper))).
Proof.
  intros Hnd Hmake Hcyc.
  pose proof (make_graph_keys_send _ _ _ _ Hmake) as Hks.
  pose proof (make_graph_keys_recv _ _ _ _ Hmake) as Hkr.
  assert (NoDup (Dict.keys graph_send)) as Hnds by (by rewrite Hks).
  assert (Dict.keys graph_recv = Dict.keys graph_send) as Hkeys by congruence.
  assert (∀ u v, u ∈ neighbours graph_recv v → v ∈ neighbours graph_send u)
    as Hrecv.
  { intros u v Hu. apply (make_graph_edge_send _ _ _ _ Hmake).
    by apply (make_graph_edge_recv _ _ _ _ Hmake). }
  assert (¬ has_cycle graph_send) as Hacyc.
  { destruct (cycle_in_graph_correct graph_send) as (b & Hb & Hiff).
    rewrite Hcyc in Hb. injection Hb as <-. intros Hc. by apply Hiff in Hc. }
  destruct (hierarchicy_layering_tight _ _ Hnds Hkeys Hrecv Hacyc)
    as (layers & final & Hl & Hhead & Htight & Hperm & Hlast & Hres).
  assert (layered send_recv graph layers) as Hlayered
    by (by eapply layered_tight).
  assert (mjoin layers ≡ₚ Dict.keys send_recv) as Hperm'
    by (by rewrite Hperm, Hks).
  exists layers, final. split; [done|]. split.
  { intros layers' Hl' Hp'. by eapply layered_unique. }
  split; [done|]. split; [|split; [done|]].
  - intros u v Huv. eapply layering_index; [done| |].
    + rewrite Hperm, Hks. by eapply make_graph_edge_keys.
    + by apply (make_graph_edge_recv _ _ _ _ Hmake).
  - assert ((list_to_set (end_nodes_of graph_send) : gset string)
            = list_to_set final
            ↔ ∀ id, id ∈ final ↔ sink send_recv graph id) as Hsinks.
    { rewrite set_eq. apply forall_proper. intros id.
      rewrite !elem_of_list_to_set, (end_nodes_elem_of _ Hnds), Hks.
      unfold sink.
      assert (neighbours graph_send id = [] ↔ ∀ v, (id, v) ∉ graph) as ->.
      { split.
        - intros Hnil v Hv%(make_graph_edge_send _ _ _ _ Hmake).
          rewrite Hnil in Hv. by apply elem_of_nil in Hv.
        - intros Hno. apply elem_of_nil_inv. intros v Hv.
          by apply (Hno v), (make_graph_edge_send _ _ _ _ Hmake). }
      split; intros Hiff; by rewrite Hiff. }
    rewrite Hres. case_decide as Hne.
    + right. split; [|done]. by rewrite <- Hsinks.
    + left. split; [|done]. apply Hsinks.
      by destruct (decide (list_to_set (end_nodes_of graph_send)
                           =@{gset string} list_to_set final)).
Qed.

(** C5, amended: the first layer returned by [hierarchicy] is the set of
    nodes that receive nothing and send something; a node that neither
    sends nor receives is not in it. *)
Theorem hierarchicy_first_layer_sources graph_send graph_recv layers :
  NoDup (Dict.keys graph_send) →
  hierarchicy graph_send graph_recv = Ok layers →
  ∃ first, head layers = Some first
    ∧ ∀ id, id ∈ first
        ↔ id ∈ Dict.keys graph_send ∧ neighbours graph_send id ≠ []
          ∧ neighbours graph_recv id = [].
Proof.
  intros Hnd Hh. exists (start_nodes_of graph_recv graph_send).
  split; [by apply hierarchicy_head|]. intros id.
  unfold start_nodes_of. rewrite filter_keys_elem_of, keys_elem_of. split.
  - intros (e & He & <- & Hne & Hnil). split; [by exists e|].
    by rewrite (neighbours_entry _ _ Hnd He).
  - intros ((e & He & <-) & Hne & Hnil). exists e. split; [done|].
    split; [done|]. by rewrite <- (neighbours_entry _ _ Hnd He).
Qed.

(** ** References among the inputs *)

Lemma str_count_rev_app c s1 s2 :
  str_count c (String.rev_app s1 s2) = str_count c s1 + str_count c s2.
Proof.
  revert s2. induction s1 as [|c' s1 IH]; intros s2; simpl; [done|].
  rewrite IH. simpl. lia.
Qed.

Lemma str_count_rev c s : str_count c (String.rev s) = str_count c s.
Proof. unfold String.rev. rewrite str_count_rev_app. simpl. lia. Qed.

Lemma str_count_lstrip c s :
  isspace c = false → str_count c (str_lstrip s) = str_count c s.
Proof.
  intros Hc. induction s as [|c' s IH]; simpl; [done|].
  destruct (isspace c') eqn:Hc'; [|done].
  rewrite IH, decide_False; [done|]. intros ->. congruence.
Qed.

Lemma str_count_strip c s :
  isspace c = false → str_count c (str_strip s) = str_count c s.
Proof.
  intros Hc. unfold str_strip.
  by rewrite str_count_rev, str_count_lstrip, str_count_rev, str_count_lstrip.
Qed.

Lemma ends_with_rev_app c s1 s2 :
  ends_with c s2 → ends_with c (String.rev_app s1 s2).
Proof.
  revert s2. induction s1 as [|c' s1 IH]; intros s2 Hs2; simpl; [done|].
  apply IH. simpl. by destruct s2.
Qed.

Lemma ends_with_lstrip c s :
  isspace c = false → ends_with c s → ends_with c (str_lstrip s).
Proof.
  intros Hc. induction s as [|c' s IH]; [done|]. intros Hs.
  cbn [str_lstrip]. destruct (isspace c') eqn:Hc'; [|done].
  apply IH. destruct s as [|c'' s]; [|done]. simpl in Hs. congruence.
Qed.

Lemma rev_app_ends_with c s : ∀ s2,
  ends_with c s → ∃ t, String.rev_app s s2 = String c t.
Proof.
  induction s as [|c' s IH]; intros s2; [done|].
  destruct s as [|c'' s].
  - simpl. intros ->. by eexists.
  - intros Hs. cbn [String.rev_app]. apply (IH (String c' s2)). exact Hs.
Qed.

Lemma str_strip_head c s :
  isspace c = false → ∃ t, str_strip (String c s) = String c t.
Proof.
  intros Hc. unfold str_strip, String.rev. cbn [str_lstrip]. rewrite Hc.
  apply rev_app_ends_with, ends_with_lstrip; [done|].
  cbn [String.rev_app]. by apply ends_with_rev_app.
Qed.

Lemma str_split_length c s : length (str_split c s) = S (str_count c s).
Proof.
  induction s as [|c' s IH]; simpl; [done|].
  case_decide; simpl; [by rewrite IH|].
  destruct (str_split c s); simpl in *; lia.
Qed.

Lemma str_split_reference s :
  str_index s 0 = Ok "@"%char → str_count "@" s = 2 →
  ∃ producer name, str_split "@" (str_strip s) = [EmptyString; producer; name].
Proof.
  destruct s as [|c s]; [done|]. simpl. intros [= ->] Hcount.
  destruct (str_strip_head "@" s eq_refl) as [t Ht].
  pose proof (str_count_strip "@" (String "@" s) eq_refl) as Hstrip.
  rewrite Ht in *.
  assert (str_count "@" t = 1) as Ht1.
  { cbn [str_count] in Hstrip, Hcount.
    rewrite !decide_True in Hstrip by done.
    rewrite decide_True in Hcount by done. lia. }
  cbn [str_split]. rewrite decide_True by done.
  pose proof (str_split_length "@" t) as Hlen.
  destruct (str_split "@" t) as [|producer [|name [|? ?]]]; simpl in Hlen;
    try lia.
  by exists producer, name.
Qed.

(** How the parser classifies the value of an input. *)
Lemma scan_input_reference sr var s :
  str_index s 0 = Ok "@"%char → str_count "@" s = 2 →
  ∃ producer name,
    str_split "@" (str_strip s) = [EmptyString; producer; name]
    ∧ scan_input sr (var, VStr s) = Ok (add_recv (producer, name) sr).
Proof.
  intros Hhead Hcount.
  destruct (str_split_reference s Hhead Hcount) as (producer & name & Hsplit).
  exists producer, name. split; [done|]. unfold scan_input. cbn [snd].
  rewrite Hhead. cbn [mbind result_bind]. rewrite Hcount, Hsplit.
  by rewrite !bool_decide_eq_true_2.
Qed.

Lemma scan_input_literal sr var val :
  val ≠ VStr EmptyString →
  (∀ s, val = VStr s → ¬ (str_index s 0 = Ok "@"%char ∧ str_count "@" s = 2)) →
  scan_input sr (var, val) = Ok sr.
Proof.
  intros Hne Hlit. unfold scan_input. cbn [snd].
  destruct val as [| | |s| |]; try done.
  destruct s as [|c s]; [done|]. cbn [str_index mbind result_bind].
  destruct (bool_decide (c = "@"%char)) eqn:Hc; [|done].
  destruct (bool_decide (str_count "@" (String c s) = 2)) eqn:Hn; [|done].
  apply bool_decide_eq_true_1 in Hc as ->. apply bool_decide_eq_true_1 in Hn.
  by destruct (Hlit _ eq_refl).
Qed.

Lemma scan_wrapper_io_str sr var s :
  scan_wrapper_io sr (var, VStr s) = scan_input sr (var, VStr s).
Proof. done. Qed.

(** ** Empty strings among the inputs *)

(** The call returns. *)
Ltac returns := left; by eexists.

Lemma ok_or_IndexError_bind {A B} (m : result A) (f : A → result B) :
  ok_or_IndexError m → (∀ a, ok_or_IndexError (f a)) →
  ok_or_IndexError (m ≫= f).
Proof. intros [[a ->]| ->] Hf; [apply Hf|by right]. Qed.

Lemma for_each_ok_or_IndexError {A S} (body : S → A → result S) l s :
  (∀ s x, x ∈ l → ok_or_IndexError (body s x)) →
  ok_or_IndexError (for_each body l s).
Proof.
  revert s. induction l as [|x l IH]; intros s Hl; simpl; [returns|].
  apply ok_or_IndexError_bind; [apply Hl, list_elem_of_here|].
  intros s'. apply IH. intros s'' y Hy. by apply Hl, list_elem_of_further.
Qed.

Lemma for_each_IndexError {A S} (body : S → A → result S) l s x :
  (∀ s y, y ∈ l → ok_or_IndexError (body s y)) →
  x ∈ l → (∀ s, body s x = Raise IndexError) →
  for_each body l s = Raise IndexError.
Proof.
  revert s. induction l as [|y l IH]; intros s Hl Hx Hbad.
  - by apply elem_of_nil in Hx.
  - simpl. apply elem_of_cons in Hx as [<-|Hx]; [by rewrite Hbad|].
    destruct (Hl s y (list_elem_of_here _ _)) as [[s' ->]| ->]; [|done].
    simpl. apply IH; [|done..]. intros s'' z Hz.
    by apply Hl, list_elem_of_further.
Qed.

Lemma list_index_ok_or_IndexError {A} (l : list A) i :
  ok_or_IndexError (list_index l i).
Proof. unfold list_index. destruct (l !! i); [left; by eexists|by right]. Qed.

Lemma str_index_ok_or_IndexError s i : ok_or_IndexError (str_index s i).
Proof.
  revert i. induction s as [|c s IH]; intros [|i]; simpl;
    [by right|by right|left; by eexists|apply IH].
Qed.

Lemma scan_input_ok_or_IndexError sr entry :
  ok_or_IndexError (scan_input sr entry).
Proof.
  unfold scan_input. destruct entry.2; try returns.
  apply ok_or_IndexError_bind; [apply str_index_ok_or_IndexError|]. intros c.
  destruct (_ && _); [|returns].
  apply ok_or_IndexError_bind; [apply list_index_ok_or_IndexError|]. intros p.
  apply ok_or_IndexError_bind; [apply list_index_ok_or_IndexError|]. intros v.
  returns.
Qed.

Lemma scan_output_Ok sr entry : ∃ sr', scan_output sr entry = Ok sr'.
Proof. unfold scan_output. destruct entry.2 as [|[]| | | |]; by eexists. Qed.

Lemma scan_wrapper_io_ok_or_IndexError sr entry :
  ok_or_IndexError (scan_wrapper_io sr entry).
Proof.
  unfold scan_wrapper_io. destruct entry.2 as [|[]| | | |]; try returns.
  apply ok_or_IndexError_bind; [apply str_index_ok_or_IndexError|]. intros c.
  destruct (_ && _); [|returns].
  apply ok_or_IndexError_bind; [apply list_index_ok_or_IndexError|]. intros p.
  apply ok_or_IndexError_bind; [apply list_index_ok_or_IndexError|]. intros v.
  returns.
Qed.

Lemma for_each_in_ok_or_IndexError {A S} (body : S → A → result S) field s :
  (∀ s x, ok_or_IndexError (body s x)) →
  ok_or_IndexError (for_each_in body field s).
Proof.
  intros Hb. destruct field; simpl; [|returns].
  apply for_each_ok_or_IndexError. auto.
Qed.

Lemma for_each_in_IndexError {A S} (body : S → A → result S) d s x :
  (∀ s y, ok_or_IndexError (body s y)) →
  x ∈ d → (∀ s, body s x = Raise IndexError) →
  for_each_in body (Some d) s = Raise IndexError.
Proof. intros. simpl. eapply for_each_IndexError; eauto. Qed.

Lemma scan_input_empty var sr : scan_input sr (var, VStr EmptyString) = Raise IndexError.
Proof. done. Qed.

Lemma scan_wrapper_io_empty var sr :
  scan_wrapper_io sr (var, VStr EmptyString) = Raise IndexError.
Proof. done. Qed.

Lemma values_of_elem_of field val :
  val ∈ values_of field → ∃ d var, field = Some d ∧ (var, val) ∈ d.
Proof.
  destruct field as [d|]; simpl; [|by intros ?%elem_of_nil].
  intros ([var val'] & -> & Hin)%list_elem_of_fmap. by exists d, var.
Qed.

Lemma scan_method_ok_or_IndexError m sr :
  ok_or_IndexError (scan_method m sr).
Proof.
  destruct m as [m|]; simpl; [|returns].
  apply ok_or_IndexError_bind.
  - apply for_each_in_ok_or_IndexError, scan_input_ok_or_IndexError.
  - intros sr'. apply for_each_in_ok_or_IndexError. intros s x.
    destruct (scan_output_Ok s x) as [? ->]. returns.
Qed.

Lemma scan_block_ok_or_IndexError send_recv node :
  validate_keys node.1 node.2 = Ok () →
  ok_or_IndexError (scan_block send_recv node).
Proof.
  destruct node as [block_id b]. simpl. intros Hv. rewrite Hv. simpl.
  apply ok_or_IndexError_bind.
  { apply for_each_in_ok_or_IndexError, scan_input_ok_or_IndexError. }
  intros sr1. apply ok_or_IndexError_bind.
  { apply for_each_in_ok_or_IndexError. intros s x.
    destruct (scan_output_Ok s x) as [? ->]. returns. }
  intros sr2. apply ok_or_IndexError_bind.
  { apply for_each_in_ok_or_IndexError, scan_wrapper_io_ok_or_IndexError. }
  intros sr3. apply ok_or_IndexError_bind.
  { apply scan_method_ok_or_IndexError. }
  intros sr4. returns.
Qed.

Lemma scan_block_empty_string send_recv node :
  validate_keys node.1 node.2 = Ok () →
  VStr EmptyString ∈ input_values node.2 →
  scan_block send_recv node = Raise IndexError.
Proof.
  destruct node as [block_id b]. simpl. intros Hv Hin. rewrite Hv. simpl.
  unfold input_values in Hin. rewrite !elem_of_app in Hin.
  assert (∀ sr1, ∃ sr2, for_each_in scan_output (b_outputs b) sr1 = Ok sr2)
    as Hout.
  { destruct (b_outputs b) as [d|]; simpl; [|by eexists].
    induction d as [|x d IH]; intros s; simpl; [by eexists|].
    destruct (scan_output_Ok s x) as [s' ->]. simpl. apply IH. }
  destruct Hin as [H1|Hin].
  { apply values_of_elem_of in H1 as (d & var & -> & Hd).
    erewrite for_each_in_IndexError;
      [done|apply scan_input_ok_or_IndexError|done|apply scan_input_empty]. }
  destruct (for_each_in_ok_or_IndexError scan_input (b_inputs b)
              {| send := []; recv := [] |} scan_input_ok_or_IndexError)
    as [[sr1 ->]| ->]; [simpl|done].
  destruct (Hout sr1) as [sr2 ->]. simpl.
  destruct Hin as [H2|H3].
  { apply values_of_elem_of in H2 as (d & var & -> & Hd).
    erewrite for_each_in_IndexError;
      [done|apply scan_wrapper_io_ok_or_IndexError|done
      |apply scan_wrapper_io_empty]. }
  destruct (for_each_in_ok_or_IndexError scan_wrapper_io (b_wrapper_io b)
              sr2 scan_wrapper_io_ok_or_IndexError)
    as [[sr3 ->]| ->]; [simpl|done].
  apply values_of_elem_of in H3 as (d & var & Hm & Hd).
  destruct (b_method b) as [m|]; [|done]. simpl in Hm. simpl. rewrite Hm.
  erewrite for_each_in_IndexError;
    [done|apply scan_input_ok_or_IndexError|done|apply scan_input_empty].
Qed.

Lemma get_input_dict_bind {A} (f : input_dict → parser A) self :
  (get_input_dict ≫= f) self = f self self.
Proof. done. Qed.

Lemma lift_bind {A B} (r : result A) (f : A → parser B) self :
  (lift r ≫= f) self
  = match r with
    | Ok a => f a self
    | Raise e => (self, Raise e)
    | Diverge => (self, Diverge)
    end.
Proof. by destruct r. Qed.

(** C10, amended: when every node passes [validate_keys], an empty string
    among the values of [inputs], [wrapper_io] or [method.inputs] of some
    node makes [serialize] raise [IndexError], the document untouched. *)
Theorem serialize_empty_string_IndexError (doc : input_dict) ns :
  nodes doc = Some ns →
  Forall (λ node, validate_keys node.1 node.2 = Ok ()) ns →
  Exists (λ node, VStr EmptyString ∈ input_values node.2) ns →
  serialize doc = (doc, Raise IndexError).
Proof.
  intros Hns Hvalid Hex. rewrite Forall_forall in Hvalid.
  apply Exists_exists in Hex as (node & Hnode & Hempty).
  unfold serialize. rewrite get_input_dict_bind, Hns, lift_bind.
  unfold collect_send_recv.
  rewrite (for_each_IndexError scan_block ns [] node); [done| |done|].
  - intros s y Hy. by apply scan_block_ok_or_IndexError, Hvalid.
  - intros s. by apply scan_block_empty_string; [apply Hvalid|].
Qed.

(** ** What the code does at particular inputs *)

(** The workflow of three nodes in a row: the unused output [z] is turned
    off and the layers follow the dependencies, not the order of the
    document. *)
Example serialize_chain :
  outputs_entry (serialize doc_chain).1 "A" "z" = Some (VBool false)
  ∧ outputs_entry (serialize doc_chain).1 "A" "x" = Some (VBool true)
  ∧ out_graph <$> (serialize doc_chain).2 = Ok [("B", "C"); ("A", "B")]
  ∧ out_layers <$> (serialize doc_chain).2 = Ok [["A"]; ["B"]; ["C"]].
Proof. vm_compute. repeat split; reflexivity. Qed.

(** C1, the two examples of the docstring. *)
Example cycle_in_graph_doctest_1 :
  cycle_in_graph [(1, [2; 3]); (2, [3])] = Ok false.
Proof. vm_compute. reflexivity. Qed.

Example cycle_in_graph_doctest_2 :
  cycle_in_graph [(1, [2]); (2, [3]); (3, [1])] = Ok true.
Proof. vm_compute. reflexivity. Qed.

Lemma hierarchicy_topological_partition_witness :
  let graph := [("B", "C"); ("A", "B")] in
  let graph_send := [("C", []); ("B", ["C"]); ("A", ["B"])] in
  let graph_recv := [("C", ["B"]); ("B", ["A"]); ("A", [])] in
  NoDup (Dict.keys sr_chain)
  ∧ make_graph sr_chain = Ok (graph, graph_send, graph_recv)
  ∧ cycle_in_graph graph_send = Ok false
  ∧ hierarchicy graph_send graph_recv = Ok [["A"]; ["B"]; ["C"]]
  ∧ ∃ layers final,
      layered sr_chain graph layers
      ∧ (∀ layers', layered sr_chain graph layers' →
                    mjoin layers' ≡ₚ Dict.keys sr_chain → layers' = layers)
      ∧ last layers = Some final
      ∧ (∀ u v, (u, v) ∈ graph →
           ∃ i j, layer_index layers u = Some i
                  ∧ layer_index layers v = Some j ∧ i < j)
      ∧ mjoin layers ≡ₚ Dict.keys sr_chain
      ∧ (((∀ id, id ∈ final ↔ sink sr_chain graph id)
          ∧ hierarchicy graph_send graph_recv = Ok layers)
         ∨ (¬ (∀ id, id ∈ final ↔ sink sr_chain graph id)
            ∧ hierarchicy graph_send graph_recv
              = Raise (ValueError msg_not_proper))).
Proof.
  intros graph graph_send graph_recv.
  assert (NoDup (Dict.keys sr_chain)) as Hnd.
  { refine (bool_decide_unpack _ _). vm_compute. exact I. }
  split; [exact Hnd|]. split; [vm_compute; reflexivity|].
  split; [vm_compute; reflexivity|]. split; [vm_compute; reflexivity|].
  apply (hierarchicy_topological_partition sr_chain graph graph_send
           graph_recv).
  - exact Hnd.
  - vm_compute. reflexivity.
  - vm_compute. reflexivity.
Defined.

Lemma make_graph_broken_pipe_witness :
  ("B", {| send := []; recv := [("A", "x")] |}) ∈ sr_broken
  ∧ ("A", "x") ∈ recv {| send := []; recv := [("A", "x")] |}
  ∧ ("A" ∉ Dict.keys sr_broken
     ∨ ∃ ref, Dict.get sr_broken "A" = Some ref ∧ "x" ∉ send ref)
  ∧ make_graph sr_broken = Raise (ValueError msg_broken_pipe).
Proof.
  assert ("A" ∉ Dict.keys sr_broken) as Hmissing.
  { intros Hin. apply list_elem_of_singleton in Hin. discriminate Hin. }
  split; [apply list_elem_of_here|]. split; [apply list_elem_of_here|].
  split; [by left|].
  apply (make_graph_broken_pipe sr_broken "B"
           {| send := []; recv := [("A", "x")] |} "A" "x").
  - apply list_elem_of_here.
  - apply list_elem_of_here.
  - left. exact Hmissing.
Defined.

(** C9 as stated fails: two references of [B] to outputs of [A] put [B]
    twice into [graph_send["A"]] and [A] twice into [graph_recv["B"]]. *)
Lemma make_graph_single_entry_counterexample :
  ¬ (∀ graph graph_send graph_recv,
       make_graph sr_double = Ok (graph, graph_send, graph_recv) →
       count_of "B" (neighbours graph_send "A") = 1
       ∧ count_of "A" (neighbours graph_recv "B") = 1
       ∧ count_of ("A", "B") graph = 2).
Proof.
  intros Hclaim.
  destruct (Hclaim [("A", "B"); ("A", "B")] [("A", ["B"; "B"]); ("B", [])]
              [("A", []); ("B", ["A"; "A"])]) as [Hone _].
  - vm_compute. reflexivity.
  - vm_compute in Hone. discriminate Hone.
Qed.

Lemma make_graph_entry_per_reference_witness :
  NoDup (Dict.keys sr_double)
  ∧ make_graph sr_double
    = Ok ([("A", "B"); ("A", "B")], [("A", ["B"; "B"]); ("B", [])],
          [("A", []); ("B", ["A"; "A"])])
  ∧ Dict.get sr_double "B"
    = Some {| send := []; recv := [("A", "x"); ("A", "y")] |}
  ∧ count_of "B" (neighbours [("A", ["B"; "B"]); ("B", [])] "A") = 2
  ∧ count_of "A" (neighbours [("A", []); ("B", ["A"; "A"])] "B") = 2
  ∧ count_of ("A", "B") [("A", "B"); ("A", "B")] = 2.
Proof.
  assert (NoDup (Dict.keys sr_double)) as Hnd.
  { refine (bool_decide_unpack _ _). vm_compute. exact I. }
  split; [exact Hnd|]. split; [vm_compute; reflexivity|].
  split; [vm_compute; reflexivity|].
  apply (make_graph_entry_per_reference sr_double
           [("A", "B"); ("A", "B")] [("A", ["B"; "B"]); ("B", [])]
           [("A", []); ("B", ["A"; "A"])] "A" "B"
           {| send := []; recv := [("A", "x"); ("A", "y")] |}).
  - exact Hnd.
  - vm_compute. reflexivity.
  - vm_compute. reflexivity.
Defined.

(** C5 as stated fails: a single node that neither sends nor receives has
    an empty reverse adjacency, and [hierarchicy] returns [[[], ["A"]]]:
    the node is in the second layer, not in the first. *)
Lemma hierarchicy_first_layer_counterexample :
  ¬ (∀ layers first,
       hierarchicy graph_isolated graph_isolated = Ok layers →
       head layers = Some first →
       ∀ id, id ∈ first
             ↔ id ∈ Dict.keys graph_isolated
               ∧ neighbours graph_isolated id = []).
Proof.
  intros Hclaim.
  destruct (Hclaim [[]; ["A"]] [] eq_refl eq_refl "A") as [_ Hin].
  eapply elem_of_nil, Hin. split; [apply list_elem_of_here|reflexivity].
Qed.

Lemma hierarchicy_first_layer_sources_witness :
  NoDup (Dict.keys [("C", []); ("B", ["C"]); ("A", ["B"])])
  ∧ hierarchicy [("C", []); ("B", ["C"]); ("A", ["B"])]
      [("C", ["B"]); ("B", ["A"]); ("A", [])] = Ok [["A"]; ["B"]; ["C"]]
  ∧ ∃ first, head [["A"]; ["B"]; ["C"]] = Some first
      ∧ ∀ id, id ∈ first
          ↔ id ∈ Dict.keys [("C", []); ("B", ["C"]); ("A", ["B"])]
            ∧ neighbours [("C", []); ("B", ["C"]); ("A", ["B"])] id ≠ []
            ∧ neighbours [("C", ["B"]); ("B", ["A"]); ("A", [])] id = [].
Proof.
  assert (NoDup (Dict.keys [("C", @nil string); ("B", ["C"]); ("A", ["B"])]))
    as Hnd.
  { refine (bool_decide_unpack _ _). vm_compute. exact I. }
  split; [exact Hnd|]. split; [vm_compute; reflexivity|].
  apply (hierarchicy_first_layer_sources
           [("C", []); ("B", ["C"]); ("A", ["B"])]
           [("C", ["B"]); ("B", ["A"]); ("A", [])] [["A"]; ["B"]; ["C"]]).
  - exact Hnd.
  - vm_compute. reflexivity.
Defined.

(** C10 as stated fails: a node with the empty string among its inputs
    but without ['name'] is rejected by [validate_keys] with a
    [ValueError] before any value is looked at. *)
Lemma serialize_empty_string_counterexample :
  ¬ (∀ ns, nodes doc_nameless = Some ns →
           Exists (λ node, VStr EmptyString ∈ input_values node.2) ns →
           (serialize doc_nameless).2 = Raise IndexError).
Proof.
  intros Hclaim. specialize (Hclaim _ eq_refl).
  assert ((serialize doc_nameless).2 = Raise IndexError) as Hraise.
  { apply Hclaim. apply Exists_cons_hd. apply list_elem_of_here. }
  vm_compute in Hraise. discriminate Hraise.
Qed.

Lemma serialize_empty_string_IndexError_witness :
  nodes doc_empty_string
  = Some [("A", plain_block (Some [("p", VStr EmptyString)]) None None)]
  ∧ Forall (λ node, validate_keys node.1 node.2 = Ok ())
      [("A", plain_block (Some [("p", VStr EmptyString)]) None None)]
  ∧ Exists (λ node, VStr EmptyString ∈ input_values node.2)
      [("A", plain_block (Some [("p", VStr EmptyString)]) None None)]
  ∧ serialize doc_empty_string = (doc_empty_string, Raise IndexError).
Proof.
  assert (Forall (λ node, validate_keys node.1 node.2 = Ok ())
            [("A", plain_block (Some [("p", VStr EmptyString)]) None None)]) as Hvalid.
  { apply Forall_cons. split; [vm_compute; reflexivity|apply Forall_nil_2]. }
  assert (Exists (λ node, VStr EmptyString ∈ input_values node.2)
            [("A", plain_block (Some [("p", VStr EmptyString)]) None None)]) as Hempty.
  { apply Exists_cons_hd. apply list_elem_of_here. }
  split; [reflexivity|]. split; [exact Hvalid|]. split; [exact Hempty|].
  apply (serialize_empty_string_IndexError doc_empty_string
           [("A", plain_block (Some [("p", VStr EmptyString)]) None None)]).
  - reflexivity.
  - exact Hvalid.
  - exact Hempty.
Defined.

(** C6 fails on the code at the empty string: the test for a reference
    reads [val[0]] of every [str], so the empty string is not taken as a
    literal: it raises [IndexError], in [inputs] and [method.inputs] as in
    [wrapper_io], and [serialize] stops. *)
Theorem reference_test_empty_string_raises :
  (∀ sr var, scan_input sr (var, VStr EmptyString) = Raise IndexError)
  ∧ (∀ sr var, scan_wrapper_io sr (var, VStr EmptyString) = Raise IndexError)
  ∧ serialize doc_empty_string = (doc_empty_string, Raise IndexError).
Proof. split; [done|]. split; [done|]. vm_compute. reflexivity. Qed.

(** Without redundant send, the redundancy pass changes neither the
    send/recv structure nor the document. *)
Lemma turn_off_nothing_redundant send_recv (self : input_dict) :
  redundant_of send_recv = [] →
  for_each_p turn_off_redundant (redundant_of send_recv) send_recv self
  = (self, Ok send_recv).
Proof. intros ->. reflexivity. Qed.

(** C7 fails on the code at [doc_collision]: the first run of [serialize]
    turns the unused output [x] of [N] off and with it overwrites the
    reference to [A]'s [y] kept under [x] in [wrapper_io]; [y] stays on.
    A second run on the resulting document finds [y] unused and turns it
    off, and the send/recv structure changes with it. *)
Theorem serialize_twice_on_collision :
  let once := serialize doc_collision in
  let twice := serialize once.1 in
  outputs_entry once.1 "A" "y" = Some (VBool true)
  ∧ outputs_entry twice.1 "A" "y" = Some (VBool false)
  ∧ out_send_recv <$> once.2
    = Ok [("A", {| send := ["y"]; recv := [] |});
          ("N", {| send := []; recv := [("A", "y")] |})]
  ∧ out_send_recv <$> twice.2
    = Ok [("A", {| send := []; recv := [] |});
          ("N", {| send := []; recv := [] |})].
Proof. vm_compute. repeat split; reflexivity. Qed.

(** C8 fails on the code at [doc_collision]: [serialize] turns the unused
    output [x] of [N] off, and it also overwrites the entry [x] of
    [wrapper_io], which is a reference, not a send. *)
Theorem serialize_overwrites_wrapper_io_reference :
  outputs_entry doc_collision "N" "x" = Some (VBool true)
  ∧ wrapper_io_entry doc_collision "N" "x" = Some (VStr "@A@y")
  ∧ outputs_entry (serialize doc_collision).1 "N" "x" = Some (VBool false)
  ∧ wrapper_io_entry (serialize doc_collision).1 "N" "x" = Some (VBool false).
Proof. vm_compute. repeat split; reflexivity. Qed.

(** C4 fails on the code: [push] and [pull] have the body [pass].  [push]
    stores nothing, a second [push] raises nothing, and [pull] returns
    [None] whether the token was pushed or not. *)
Theorem Stack_push_pull_do_nothing {Obj : Type} (self : Stack.t Obj)
    (token : string * string) (value : Obj) :
  Stack.push self token value = (self, None)
  ∧ Stack.push (Stack.push self token value).1 token value = (self, None)
  ∧ Stack.pull (Stack.push self token value).1 token = (self, None)
  ∧ Stack.pull self token = (self, None).
Proof. repeat split; reflexivity. Qed.

(** * Further properties of the engine *)

(** ** More on [make_graph] *)

(** X1: [make_graph] returns exactly when every received token names a
    node of [send_recv] that lists the variable among its sends; and when
    it does not return, what it raises is the broken-pipe [ValueError],
    never a [KeyError] from the lookups in the two adjacency dicts. *)
Theorem make_graph_returns_iff_declared send_recv :
  ((∃ g, make_graph send_recv = Ok g)
   ↔ ∀ node_id e item, (node_id, e) ∈ send_recv → item ∈ recv e →
                        declared send_recv item)
  ∧ ((∃ g, make_graph send_recv = Ok g)
     ∨ make_graph send_recv = Raise (ValueError msg_broken_pipe)).
Proof.
  rewrite make_graph_unfold. split.
  - split.
    + intros [g Hg]. case_decide as Hall; [|done].
      intros node_id e item He Hitem. rewrite Forall_forall in Hall.
      apply (Hall (node_id, item)). by eapply references_elem_of.
    + intros Hall. rewrite decide_True; [by eexists|].
      apply Forall_forall. intros [node_id item] Hr.
      unfold references in Hr. apply list_elem_of_join in Hr as (l & Hr & Hl).
      apply list_elem_of_fmap in Hl as ([id e] & -> & He).
      apply list_elem_of_fmap in Hr as (item' & [= -> ->] & Hitem).
      by eapply Hall.
  - case_decide; [left; by eexists|by right].
Qed.

(** X2: the two adjacency dicts that [make_graph] returns have the node
    ids of [send_recv] as keys, in the same order: no node is lost or
    added, the nodes without any edge included. *)
Theorem make_graph_keeps_node_ids send_recv graph graph_send graph_recv :
  make_graph send_recv = Ok (graph, graph_send, graph_recv) →
  Dict.keys graph_send = Dict.keys send_recv
  ∧ Dict.keys graph_recv = Dict.keys send_recv.
Proof.
  intros Hmake. split.
  - by eapply make_graph_keys_send.
  - by eapply make_graph_keys_recv.
Qed.

(** X3: the three results of [make_graph] describe one relation: [v] is
    in [graph_send[u]] exactly when [u] is in [graph_recv[v]], and exactly
    when [(u, v)] is in the edge list. *)
Theorem make_graph_adjacency_transposed send_recv graph graph_send graph_recv u v :
  make_graph send_recv = Ok (graph, graph_send, graph_recv) →
  (v ∈ neighbours graph_send u ↔ u ∈ neighbours graph_recv v)
  ∧ ((u, v) ∈ graph ↔ v ∈ neighbours graph_send u).
Proof.
  intros Hmake. split.
  - by rewrite <- (make_graph_edge_send _ _ _ _ Hmake),
      (make_graph_edge_recv _ _ _ _ Hmake).
  - apply (make_graph_edge_send _ _ _ _ Hmake).
Qed.

Lemma references_all_received send_recv :
  (references send_recv).*2 = all_received_of send_recv.
Proof.
  induction send_recv as [|e send_recv IH]; [done|].
  rewrite references_cons, fmap_app, IH.
  change (all_received_of (e :: send_recv))
    with (recv e.2 ++ all_received_of send_recv).
  f_equal. rewrite <- list_fmap_compose. apply list_fmap_id.
Qed.

(** X4: the edge list of [make_graph] follows the received tokens: its
    senders are the producers of [all_received] in their order, and its
    receivers are the consumers of the references in the same order. *)
Theorem make_graph_edge_list_order send_recv graph graph_send graph_recv :
  make_graph send_recv = Ok (graph, graph_send, graph_recv) →
  graph.*1 = (all_received_of send_recv).*1
  ∧ graph.*2 = (references send_recv).*1.
Proof.
  intros Hmake. rewrite (make_graph_edges _ _ _ _ Hmake).
  rewrite <- references_all_received, <- !list_fmap_compose. done.
Qed.

(** ** More on the cycle detector *)

Lemma tc_impl {A} (R R' : relation A) x y :
  (∀ a b, R a b → R' a b) → tc R x y → tc R' x y.
Proof.
  intros Himpl. induction 1 as [a b Hab|a b c Hab _ IH].
  - by apply tc_once, Himpl.
  - eapply tc_l; [by apply Himpl|done].
Qed.

Section cycle_more.
Context {V : Type} `{Countable V}.
Implicit Types (graph : list (V * list V)).

Lemma has_cycle_mono graph graph' :
  (∀ u v, edge graph u v → edge graph' u v) →
  has_cycle graph → has_cycle graph'.
Proof. intros Hsub [v Hv]. exists v. by eapply tc_impl. Qed.

(** X5: adding edges to a graph on which [cycle_in_graph] returns [True]
    still gives [True]. *)
Theorem cycle_in_graph_more_edges graph graph' :
  (∀ u v, v ∈ neighbours graph u → v ∈ neighbours graph' u) →
  cycle_in_graph graph = Ok true → cycle_in_graph graph' = Ok true.
Proof.
  intros Hsub Hc.
  destruct (cycle_in_graph_correct graph) as (b & Hb & Hiff).
  destruct (cycle_in_graph_correct graph') as (b' & -> & Hiff').
  rewrite Hc in Hb. injection Hb as <-. f_equal. apply Hiff'.
  eapply has_cycle_mono; [exact Hsub|]. by apply Hiff.
Qed.

(** X6: [cycle_in_graph] depends on the edges only: two dicts with the
    same neighbours for every vertex give the same answer, whatever the
    order of their keys, the order and repetition of the neighbours, and
    whether a vertex without neighbours is a key. *)
Theorem cycle_in_graph_same_edges graph graph' :
  (∀ u v, v ∈ neighbours graph u ↔ v ∈ neighbours graph' u) →
  cycle_in_graph graph = cycle_in_graph graph'.
Proof.
  intros Hsame.
  destruct (cycle_in_graph_correct graph) as (b & -> & Hiff).
  destruct (cycle_in_graph_correct graph') as (b' & -> & Hiff').
  f_equal. apply eq_true_iff_eq. rewrite Hiff, Hiff'. split.
  - apply has_cycle_mono. intros u v. apply Hsame.
  - apply has_cycle_mono. intros u v. apply Hsame.
Qed.

(** X7: a vertex that is its own neighbour is a cycle:
    [cycle_in_graph] returns [True]. *)
Theorem cycle_in_graph_self_loop graph v :
  v ∈ neighbours graph v → cycle_in_graph graph = Ok true.
Proof.
  intros Hv. destruct (cycle_in_graph_correct graph) as (b & -> & Hiff).
  f_equal. apply Hiff. exists v. by apply tc_once.
Qed.
End cycle_more.

(** ** More on layers *)

Lemma layer_index_before layers v k i li :
  layer_index layers v = Some k → i < k → layers !! i = Some li → v ∉ li.
Proof.
  revert k i. induction layers as [|l0 layers IH]; intros k i; [done|].
  simpl. case_decide as Hv.
  - intros [= <-]. lia.
  - destruct (layer_index layers v) as [k'|] eqn:Hk; [|done].
    intros [= <-] Hi. destruct i as [|i]; simpl.
    + by intros [= <-].
    + apply (IH k' i); [done|lia].
Qed.

Lemma layering_senders_before graph_send graph_recv layers a b :
  layering graph_send graph_recv layers →
  tc (λ v u, u ∈ neighbours graph_recv v) a b →
  a ∈ mjoin layers →
  ∃ i j, layer_index layers b = Some i ∧ layer_index layers a = Some j ∧ i < j.
Proof.
  intros Hl. induction 1 as [a b Hab|a b c Hab _ IH]; intros Ha.
  - by eapply layering_index.
  - destruct (layering_index _ _ _ _ _ Hl Ha Hab) as (i & j & Hi & Hj & Hij).
    destruct (IH (layer_index_member _ _ _ Hi)) as (i' & j' & Hi' & Hj' & Hij').
    exists i', j. split; [done|]. split; [done|]. simplify_eq. lia.
Qed.

Lemma tc_reverse {A} (R S : relation A) x y :
  (∀ a b, R a b → S b a) → tc R x y → tc S y x.
Proof.
  intros Hrev. induction 1 as [a b Hab|a b c Hab _ IH].
  - by apply tc_once, Hrev.
  - eapply tc_r; [done|]. by apply Hrev.
Qed.

(** X8: on a graph with a directed cycle, [hierarchicy] does not return:
    the nodes of the cycle never enter a layer, a round of the [while]
    loop adds nothing and the loop goes on for ever.  The cycle test that
    [serialize] makes first is what prevents this. *)
Theorem hierarchicy_never_returns_on_cycle graph_send graph_recv :
  NoDup (Dict.keys graph_send) →
  Dict.keys graph_recv = Dict.keys graph_send →
  (∀ u v, v ∈ neighbours graph_send u → u ∈ neighbours graph_recv v) →
  has_cycle graph_send →
  hierarchicy graph_send graph_recv = Diverge.
Proof.
  intros Hnd Hkeys Hsend [v Hv]. unfold hierarchicy.
  destruct (classify_loop_total graph_recv graph_send ([], [])) as [res Hres].
  { intros e He. rewrite Hkeys. apply keys_elem_of. by exists e. }
  rewrite Hres. apply classify_loop_Ok in Hres as ->.
  cbn [mbind result_bind fst snd app].
  destruct (layer_loop _ _ _ _ _) as [layers|e|] eqn:Hloop; [|..|done].
  - exfalso.
    destruct (layer_loop_Ok_layering graph_send graph_recv Hnd Hkeys
                (length graph_send) [start_nodes_of graph_recv graph_send] layers)
      as (Hl & _ & Hlen);
      [done|exact (layering_start graph_send graph_recv Hnd)|by intros j l ?
      |simpl; by rewrite app_nil_r|].
    pose proof (layering_Permutation _ _ _ Hl Hlen) as Hperm.
    assert (v ∈ mjoin layers) as Hin.
    { rewrite Hperm. inversion Hv; by eapply neighbours_key. }
    destruct (layering_senders_before _ _ _ v v Hl) as (i & j & Hi & Hj & Hij);
      [|done|].
    + eapply tc_reverse; [|exact Hv]. intros a b. apply Hsend.
    + simplify_eq. lia.
  - by apply layer_loop_no_Raise in Hloop.
Qed.

(** X9: [hierarchicy] places a node as early as its senders allow: a node
    of a layer after the first that receives from somebody has a sender
    in the layer just before. *)
Theorem hierarchicy_as_early_as_possible graph_send graph_recv layers v j :
  NoDup (Dict.keys graph_send) →
  Dict.keys graph_recv = Dict.keys graph_send →
  hierarchicy graph_send graph_recv = Ok layers →
  layer_index layers v = Some (S j) →
  neighbours graph_recv v ≠ [] →
  ∃ u, u ∈ neighbours graph_recv v ∧ layer_index layers u = Some j.
Proof.
  intros Hnd Hkeys Hh Hv Hsenders.
  destruct (hierarchicy_Ok_layering _ _ Hnd Hkeys _ Hh) as ([Hndl _ _] & Ht & _).
  destruct (layer_index_Some _ _ _ Hv) as (l & Hl & Hvl).
  destruct (Ht j l Hl) as [-> _].
  apply (next_layer_elem_of _ _ Hnd Hkeys) in Hvl as (Hvk & _ & Hready).
  destruct (lookup_lt_is_Some_2 layers j) as [lj Hlj].
  { apply lookup_lt_Some in Hl. lia. }
  rewrite (take_S_r _ _ _ Hlj), join_snoc in Hready.
  assert (∃ u, u ∈ neighbours graph_recv v ∧ u ∉ mjoin (take j layers))
    as (u & Hu & Hnu).
  { destruct j as [|j].
    - destruct (neighbours graph_recv v) as [|u us]; [done|].
      exists u. split; [apply list_elem_of_here|]. rewrite take_0.
      apply not_elem_of_nil.
    - destruct (Ht j lj Hlj) as [Hlj' _].
      destruct (decide (Forall (λ u, u ∈ mjoin (take (S j) layers))
                          (neighbours graph_recv v))) as [Hall|Hex].
      + exfalso. apply (layer_index_before _ _ _ _ _ Hv (Nat.lt_succ_diag_r _) Hlj).
        rewrite Hlj'. apply (next_layer_elem_of _ _ Hnd Hkeys).
        split; [done|]. split; [|by apply Forall_forall].
        intros (l' & Hvl' & Hl')%list_elem_of_join.
        apply list_elem_of_lookup in Hl' as [i Hi].
        pose proof (lookup_lt_Some _ _ _ Hi) as Hlen.
        rewrite length_take in Hlen.
        rewrite lookup_take_lt in Hi by lia.
        apply (layer_index_before _ _ _ i l' Hv); [lia|done|done].
      + apply not_Forall_Exists in Hex; [|apply _].
        apply Exists_exists in Hex as (u & Hu & Hnu). by exists u. }
  exists u. split; [done|]. apply layer_index_unique with (l := lj); [done..|].
  specialize (Hready u Hu). apply elem_of_app in Hready as [?|?]; done.
Qed.

Lemma layer_loop_appends_nonempty graph_send graph_recv fuel :
  ∀ layers collected layers',
  layer_loop fuel graph_send graph_recv layers collected = Ok layers' →
  ∃ rest, layers' = layers ++ rest ∧ Forall (λ l, l ≠ []) rest.
Proof.
  induction fuel as [|fuel IH]; intros layers collected layers';
    cbn [layer_loop]; case_decide as Hlt; try done.
  - intros [= <-]. exists []. by rewrite app_nil_r.
  - destruct (decide (next_layer_of graph_recv collected = [])) as [Hnil|Hnext].
    + rewrite Hnil, app_nil_r. by rewrite (layer_loop_stuck _ _ _ _ _ Hlt Hnil).
    + intros (rest & -> & Hrest)%IH. eexists. rewrite <- (assoc_L (++)).
      split; [done|]. by constructor.
  - intros [= <-]. exists []. by rewrite app_nil_r.
Qed.

(** X10: the layers that [hierarchicy] returns start with the start
    nodes, which may be none, and no later layer is empty. *)
Theorem hierarchicy_no_empty_layer_after_first graph_send graph_recv layers :
  hierarchicy graph_send graph_recv = Ok layers →
  ∃ first rest, layers = first :: rest ∧ Forall (λ l, l ≠ []) rest.
Proof.
  unfold hierarchicy.
  destruct (for_each _ graph_send _) as [res| |] eqn:Hres; [|done..].
  cbn [mbind result_bind]. destruct res as [starts ends].
  destruct (layer_loop _ _ _ _ _) as [layers'| |] eqn:Hloop; [|done..].
  apply layer_loop_appends_nonempty in Hloop as (rest & -> & Hrest).
  cbn [mbind result_bind]. destruct (list_index _ _); [|done..].
  cbn [mbind result_bind]. case_decide; [done|]. intros [= <-].
  by exists starts, rest.
Qed.

(** X11: the nodes of one layer do not depend on each other: the edge
    list of [make_graph] has no edge between two nodes of the same layer
    of [hierarchicy]. *)
Theorem hierarchicy_layer_independent send_recv graph graph_send graph_recv
    layers l u v :
  NoDup (Dict.keys send_recv) →
  make_graph send_recv = Ok (graph, graph_send, graph_recv) →
  hierarchicy graph_send graph_recv = Ok layers →
  l ∈ layers → u ∈ l → v ∈ l →
  (u, v) ∉ graph.
Proof.
  intros Hnd Hmake Hh Hl Hu Hv Huv.
  pose proof (make_graph_keys_send _ _ _ _ Hmake) as Hks.
  pose proof (make_graph_keys_recv _ _ _ _ Hmake) as Hkr.
  assert (NoDup (Dict.keys graph_send)) as Hnds by (by rewrite Hks).
  assert (Dict.keys graph_recv = Dict.keys graph_send) as Hkeys by congruence.
  destruct (hierarchicy_Ok_layering _ _ Hnds Hkeys _ Hh) as (Hlay & _ & _).
  apply list_elem_of_lookup in Hl as [k Hk].
  assert (v ∈ mjoin layers) as Hvin.
  { apply list_elem_of_join. exists l. split; [done|].
    by eapply list_elem_of_lookup_2. }
  destruct (layering_index _ _ _ u v Hlay Hvin) as (i & j & Hi & Hj & Hij).
  { by apply (make_graph_edge_recv _ _ _ _ Hmake). }
  destruct Hlay as [Hndl _ _].
  rewrite (layer_index_unique _ _ _ _ Hndl Hk Hu) in Hi.
  rewrite (layer_index_unique _ _ _ _ Hndl Hk Hv) in Hj.
  simplify_eq. lia.
Qed.

(** ** The scan of the nodes *)

Section dict_set.
Context {K V : Type} `{EqDecision K}.
Implicit Types (d : list (K * V)).

Lemma Dict_keys_set_new d k v :
  k ∉ Dict.keys d → Dict.set d k v = d ++ [(k, v)].
Proof.
  induction d as [|[k' v'] d IH]; simpl; [done|].
  intros Hk. apply not_elem_of_cons in Hk as [Hne Hk].
  rewrite decide_False by done. by rewrite IH.
Qed.

Lemma Dict_get_app d1 d2 k :
  Dict.get (d1 ++ d2) k
  = match Dict.get d1 k with Some v => Some v | None => Dict.get d2 k end.
Proof.
  induction d1 as [|[k' v'] d1 IH]; simpl; [done|]. by case_decide.
Qed.
End dict_set.

Lemma scan_input_Ok sr entry sr' :
  scan_input sr entry = Ok sr' →
  send sr' = send sr
  ∧ ∀ token, token ∈ recv sr' ↔ token ∈ recv sr ∨ reference entry.2 token.
Proof.
  unfold scan_input.
  assert (∀ token, (∃ s, entry.2 = VStr s) ∨ ¬ reference entry.2 token) as Hstr.
  { intros token. destruct entry.2; eauto; right; by intros (? & [=] & _). }
  destruct entry.2 as [| | |s| |] eqn:Hval;
    try (intros [= <-]; split; [done|]; intros token;
         destruct (Hstr token) as [[? [=]]|?]; tauto).
  destruct (str_index s 0) as [c| |] eqn:Hhead; [|done..].
  cbn [mbind result_bind].
  destruct (bool_decide (c = "@"%char)) eqn:Hc; cbn [andb].
  - apply bool_decide_eq_true_1 in Hc as ->.
    destruct (bool_decide (str_count "@" s = 2)) eqn:Hn.
    + apply bool_decide_eq_true_1 in Hn.
      destruct (str_split_reference s Hhead Hn) as (producer & name & Hsplit).
      rewrite Hsplit. cbn. intros [= <-]. split; [done|]. intros token.
      cbn. rewrite elem_of_app, list_elem_of_singleton.
      apply or_iff_compat_l. split.
      * intros ->. by exists s.
      * intros (s' & [= <-] & _ & _ & Hsplit'). rewrite Hsplit in Hsplit'.
        destruct token. by simplify_eq/=.
    + apply bool_decide_eq_false_1 in Hn. intros [= <-]. split; [done|].
      intros token. split; [tauto|]. intros [?|(s' & [= <-] & _ & ? & _)]; done.
  - apply bool_decide_eq_false_1 in Hc. intros [= <-]. split; [done|].
    intros token. split; [tauto|].
    intros [?|(s' & [= <-] & Hh & _)]; [done|]. congruence.
Qed.

Lemma scan_output_eq sr entry :
  scan_output sr entry
  = Ok (if decide (entry.2 = VBool true) then add_send entry.1 sr else sr).
Proof.
  unfold scan_output. destruct entry.2 as [|[]| | | |]; by case_decide.
Qed.

Lemma scan_wrapper_io_Ok sr entry sr' :
  scan_wrapper_io sr entry = Ok sr' →
  (∀ var, var ∈ send sr' ↔ var ∈ send sr ∨ entry = (var, VBool true))
  ∧ ∀ token, token ∈ recv sr' ↔ token ∈ recv sr ∨ reference entry.2 token.
Proof.
  destruct entry as [var val].
  destruct (decide (val = VBool true)) as [->|Hne].
  - cbn. intros [= <-]. cbn. split.
    + intros var'. rewrite elem_of_app, list_elem_of_singleton.
      apply or_iff_compat_l. split; [by intros ->|by intros [= ->]].
    + intros token. split; [tauto|]. by intros [?|(? & [=] & _)].
  - assert (scan_wrapper_io sr (var, val) = scan_input sr (var, val)) as ->.
    { unfold scan_wrapper_io, scan_input. cbn [snd].
      by destruct val as [|[]| | | |]. }
    intros [Hs Hr]%scan_input_Ok. split; [|done]. intros var'. rewrite Hs.
    split; [tauto|]. intros [?|[= _ ?]]; done.
Qed.

Lemma for_each_scan_input d : ∀ sr sr',
  for_each scan_input d sr = Ok sr' →
  send sr' = send sr
  ∧ ∀ token, token ∈ recv sr' ↔
      token ∈ recv sr ∨ ∃ var val, (var, val) ∈ d ∧ reference val token.
Proof.
  induction d as [|[var val] d IH]; intros sr sr'; cbn [for_each].
  - intros [= <-]. split; [done|]. intros token. split; [tauto|].
    intros [?|(? & ? & ?%elem_of_nil & _)]; done.
  - destruct (scan_input sr (var, val)) as [sr1| |] eqn:H1; [|done..].
    cbn [mbind result_bind]. apply scan_input_Ok in H1 as [Hs1 Hr1].
    intros [Hs Hr]%IH. split; [congruence|]. intros token.
    rewrite Hr, Hr1. cbn [snd]. split.
    + intros [[?|?]|(var' & val' & ? & ?)]; [by left|right..].
      * exists var, val. split; [apply list_elem_of_here|done].
      * exists var', val'. split; [by apply list_elem_of_further|done].
    + intros [?|(var' & val' & [[= -> ->]|?]%elem_of_cons & ?)]; eauto 6.
Qed.

Lemma for_each_scan_output d : ∀ sr,
  ∃ sr', for_each scan_output d sr = Ok sr'
         ∧ recv sr' = recv sr
         ∧ ∀ var, var ∈ send sr' ↔ var ∈ send sr ∨ (var, VBool true) ∈ d.
Proof.
  induction d as [|[var val] d IH]; intros sr; cbn [for_each].
  - exists sr. split; [done|]. split; [done|]. intros var. split; [tauto|].
    intros [?|?%elem_of_nil]; done.
  - rewrite scan_output_eq. cbn [mbind result_bind fst snd].
    destruct (IH (if decide (val = VBool true) then add_send var sr else sr))
      as (sr' & -> & Hr & Hs).
    exists sr'. split; [done|]. split; [by rewrite Hr; case_decide|].
    intros var'. rewrite Hs, elem_of_cons. case_decide as Hval.
    + subst val. cbn. rewrite elem_of_app, list_elem_of_singleton.
      split; [intros [[?| ->]|?]; eauto|intros [?|[[= ->]|?]]; eauto].
    + split; [tauto|]. intros [?|[[= _ ?]|?]]; eauto. done.
Qed.

Lemma for_each_scan_wrapper_io d : ∀ sr sr',
  for_each scan_wrapper_io d sr = Ok sr' →
  (∀ var, var ∈ send sr' ↔ var ∈ send sr ∨ (var, VBool true) ∈ d)
  ∧ ∀ token, token ∈ recv sr' ↔
      token ∈ recv sr ∨ ∃ var val, (var, val) ∈ d ∧ reference val token.
Proof.
  induction d as [|[var val] d IH]; intros sr sr'; cbn [for_each].
  - intros [= <-]. split.
    + intros var. split; [tauto|]. intros [?|?%elem_of_nil]; done.
    + intros token. split; [tauto|].
      intros [?|(? & ? & ?%elem_of_nil & _)]; done.
  - destruct (scan_wrapper_io sr (var, val)) as [sr1| |] eqn:H1; [|done..].
    cbn [mbind result_bind]. apply scan_wrapper_io_Ok in H1 as [Hs1 Hr1].
    intros [Hs Hr]%IH. split.
    + intros var'. rewrite Hs, Hs1, elem_of_cons. split.
      * intros [[?|?]|?]; eauto.
      * intros [?|[?|?]]; eauto.
    + intros token. rewrite Hr, Hr1. cbn [snd]. split.
      * intros [[?|?]|(var' & val' & ? & ?)]; [by left|right..].
        -- exists var, val. split; [apply list_elem_of_here|done].
        -- exists var', val'. split; [by apply list_elem_of_further|done].
      * intros [?|(var' & val' & [[= -> ->]|?]%elem_of_cons & ?)]; eauto 6.
Qed.

Lemma scan_block_Ok send_recv block_id b send_recv' :
  scan_block send_recv (block_id, b) = Ok send_recv' →
  validate_keys block_id b = Ok ()
  ∧ ∃ e, send_recv' = Dict.set send_recv block_id e
         ∧ (∀ var, var ∈ send e ↔ sent_by b var)
         ∧ (∀ token, token ∈ recv e ↔ received_by b token).
Proof.
  unfold scan_block, sent_by, received_by.
  destruct (validate_keys block_id b) as [[]| |]; [|done..].
  cbn [mbind result_bind].
  destruct (for_each_in scan_input (b_inputs b) _) as [sr1| |] eqn:H1;
    [|done..].
  cbn [mbind result_bind].
  assert (send sr1 = [] ∧ ∀ token, token ∈ recv sr1 ↔
            ∃ var val, (var, val) ∈ entries (b_inputs b) ∧ reference val token)
    as [Hs1 Hr1].
  { destruct (b_inputs b) as [d|]; cbn in H1 |- *.
    - apply for_each_scan_input in H1 as [Hs Hr]. split; [done|].
      intros token. rewrite Hr. cbn. split; [|tauto].
      by intros [?%elem_of_nil|?].
    - injection H1 as <-. split; [done|]. intros token. cbn. split.
      + by intros ?%elem_of_nil.
      + by intros (? & ? & ?%elem_of_nil & _). }
  assert (∃ sr2, for_each_in scan_output (b_outputs b) sr1 = Ok sr2
            ∧ recv sr2 = recv sr1
            ∧ ∀ var, var ∈ send sr2 ↔ (var, VBool true) ∈ entries (b_outputs b))
    as (sr2 & -> & Hr2 & Hs2).
  { destruct (b_outputs b) as [d|]; cbn.
    - destruct (for_each_scan_output d sr1) as (sr2 & ? & ? & Hs).
      exists sr2. split; [done|]. split; [done|]. intros var.
      rewrite Hs, Hs1. split; [|tauto]. by intros [?%elem_of_nil|?].
    - exists sr1. split; [done|]. split; [done|]. intros var. rewrite Hs1.
      split; by intros ?%elem_of_nil. }
  cbn [mbind result_bind].
  destruct (for_each_in scan_wrapper_io (b_wrapper_io b) sr2) as [sr3| |] eqn:H3;
    [|done..].
  cbn [mbind result_bind].
  assert ((∀ var, var ∈ send sr3 ↔
             var ∈ send sr2 ∨ (var, VBool true) ∈ entries (b_wrapper_io b))
          ∧ ∀ token, token ∈ recv sr3 ↔
              token ∈ recv sr2
              ∨ ∃ var val, (var, val) ∈ entries (b_wrapper_io b)
                           ∧ reference val token) as [Hs3 Hr3].
  { destruct (b_wrapper_io b) as [d|]; cbn in H3 |- *.
    - by apply for_each_scan_wrapper_io in H3.
    - injection H3 as <-. split.
      + intros var. split; [tauto|]. by intros [?|?%elem_of_nil].
      + intros token. split; [tauto|].
        by intros [?|(? & ? & ?%elem_of_nil & _)]. }
  destruct (scan_method (b_method b) sr3) as [sr4| |] eqn:H4; [|done..].
  cbn [mbind result_bind].
  assert ((∀ var, var ∈ send sr4 ↔
             var ∈ send sr3
             ∨ (var, VBool true) ∈ entries (b_method b ≫= m_outputs))
          ∧ ∀ token, token ∈ recv sr4 ↔
              token ∈ recv sr3
              ∨ ∃ var val, (var, val) ∈ entries (b_method b ≫= m_inputs)
                           ∧ reference val token) as [Hs4 Hr4].
  { unfold scan_method in H4. destruct (b_method b) as [m|]; cbn in H4 |- *.
    - destruct (for_each_in scan_input (m_inputs m) sr3) as [sr5| |] eqn:H5;
        [|done..].
      cbn in H4.
      assert (send sr5 = send sr3 ∧ ∀ token, token ∈ recv sr5 ↔
                token ∈ recv sr3
                ∨ ∃ var val, (var, val) ∈ entries (m_inputs m)
                             ∧ reference val token) as [Hs5 Hr5].
      { destruct (m_inputs m) as [d|]; cbn in H5 |- *.
        - by apply for_each_scan_input in H5.
        - injection H5 as <-. split; [done|]. intros token. split; [tauto|].
          by intros [?|(? & ? & ?%elem_of_nil & _)]. }
      destruct (m_outputs m) as [d|]; cbn in H4 |- *.
      + destruct (for_each_scan_output d sr5) as (sr6 & H6 & Hr6 & Hs6).
        rewrite H6 in H4. injection H4 as <-. split.
        * intros var. by rewrite Hs6, Hs5.
        * intros token. by rewrite Hr6, Hr5.
      + injection H4 as <-. split.
        * intros var. rewrite Hs5. split; [tauto|]. by intros [?|?%elem_of_nil].
        * done.
    - injection H4 as <-. split.
      + intros var. split; [tauto|]. by intros [?|?%elem_of_nil].
      + intros token. split; [tauto|].
        by intros [?|(? & ? & ?%elem_of_nil & _)]. }
  intros [= <-]. split; [done|]. exists sr4. split; [done|]. split.
  - intros var. rewrite Hs4, Hs3, Hs2, !elem_of_app. tauto.
  - intros token. rewrite Hr4, Hr3, Hr2, Hr1. split.
    + intros [[(var & val & ? & ?)|(var & val & ? & ?)]|(var & val & ? & ?)];
        exists var, val; rewrite !elem_of_app; tauto.
    + intros (var & val & Hin & ?). rewrite !elem_of_app in Hin.
      destruct Hin as [?|[?|?]]; eauto 7.
Qed.

Lemma collect_loop ns : ∀ send_recv send_recv',
  NoDup (Dict.keys send_recv ++ Dict.keys ns) →
  for_each scan_block ns send_recv = Ok send_recv' →
  Dict.keys send_recv' = Dict.keys send_recv ++ Dict.keys ns
  ∧ Forall (λ node, validate_keys node.1 node.2 = Ok ()) ns
  ∧ (∀ block_id e, Dict.get send_recv block_id = Some e →
       Dict.get send_recv' block_id = Some e)
  ∧ ∀ block_id b, (block_id, b) ∈ ns →
      ∃ e, Dict.get send_recv' block_id = Some e
           ∧ (∀ var, var ∈ send e ↔ sent_by b var)
           ∧ (∀ token, token ∈ recv e ↔ received_by b token).
Proof.
  induction ns as [|[block_id b] ns IH]; intros send_recv send_recv' Hnd;
    cbn [for_each].
  - intros [= <-]. split; [by rewrite app_nil_r|]. split; [done|].
    split; [done|]. by intros ?? ?%elem_of_nil.
  - destruct (scan_block send_recv (block_id, b)) as [sr1| |] eqn:H1; [|done..].
    cbn [mbind result_bind].
    apply scan_block_Ok in H1 as (Hvalid & e & -> & Hs & Hr).
    unfold Dict.keys in Hnd. rewrite fmap_cons in Hnd. cbn [fst] in Hnd.
    assert (block_id ∉ Dict.keys send_recv) as Hfresh.
    { apply NoDup_app in Hnd as (_ & Hdisj & _). intros Hin.
      apply (Hdisj _ Hin), list_elem_of_here. }
    rewrite (Dict_keys_set_new _ _ _ Hfresh).
    intros Hloop. destruct (IH (send_recv ++ [(block_id, e)]) send_recv')
      as (Hkeys & Hall & Hold & Hget); [|done|].
    { unfold Dict.keys. rewrite fmap_app, <- (assoc_L (++)). done. }
    split; [|split; [|split]].
    + rewrite Hkeys. unfold Dict.keys.
      by rewrite fmap_app, fmap_cons, <- (assoc_L (++)).
    + by constructor.
    + intros block_id' e' He'. apply Hold. rewrite Dict_get_app. by rewrite He'.
    + intros block_id' b' [[= -> ->]|Hin]%elem_of_cons; [|by apply Hget].
      exists e. split; [|done]. apply Hold. rewrite Dict_get_app.
      apply Dict_get_None in Hfresh as ->. cbn. by rewrite decide_True.
Qed.

Lemma collect_send_recv_Ok ns send_recv :
  NoDup (Dict.keys ns) →
  collect_send_recv ns = Ok send_recv →
  Dict.keys send_recv = Dict.keys ns
  ∧ Forall (λ node, validate_keys node.1 node.2 = Ok ()) ns
  ∧ ∀ block_id b, (block_id, b) ∈ ns →
      ∃ e, Dict.get send_recv block_id = Some e
           ∧ (∀ var, var ∈ send e ↔ sent_by b var)
           ∧ (∀ token, token ∈ recv e ↔ received_by b token).
Proof.
  intros Hnd Hc. by destruct (collect_loop ns [] send_recv Hnd Hc) as (?&?&_&?).
Qed.

Lemma str_app_cons c a b : String c a +:+ b = String c (a +:+ b).
Proof. done. Qed.

Lemma str_app_nil_l a : EmptyString +:+ a = a.
Proof. done. Qed.

Lemma str_app_nil_r a : a +:+ EmptyString = a.
Proof. induction a as [|c a IH]; [done|]. by rewrite str_app_cons, IH. Qed.

Lemma str_app_assoc a b c : (a +:+ b) +:+ c = a +:+ (b +:+ c).
Proof. induction a as [|x a IH]; [done|]. by rewrite !str_app_cons, IH. Qed.

Lemma str_rev_app_acc s : ∀ acc, String.rev_app s acc = String.rev s +:+ acc.
Proof.
  unfold String.rev. induction s as [|c s IH]; intros acc; [done|].
  cbn [String.rev_app]. rewrite (IH (String c acc)), (IH (String c EmptyString)).
  by rewrite str_app_assoc.
Qed.

Lemma str_rev_cons c s :
  String.rev (String c s) = String.rev s +:+ String c EmptyString.
Proof. unfold String.rev at 1. cbn [String.rev_app]. apply str_rev_app_acc. Qed.

Lemma str_rev_app a b : String.rev (a +:+ b) = String.rev b +:+ String.rev a.
Proof.
  induction a as [|c a IH].
  - by rewrite str_app_nil_l, str_app_nil_r.
  - by rewrite str_app_cons, !str_rev_cons, IH, str_app_assoc.
Qed.

Lemma str_rev_involutive s : String.rev (String.rev s) = s.
Proof.
  induction s as [|c s IH]; [done|].
  by rewrite str_rev_cons, str_rev_app, IH.
Qed.

Lemma str_lstrip_app a c b :
  isspace c = false →
  str_lstrip (a +:+ String c b) = str_lstrip a +:+ String c b.
Proof.
  intros Hc. induction a as [|x a IH].
  - rewrite str_app_nil_l. cbn [str_lstrip]. by rewrite Hc.
  - rewrite str_app_cons. cbn [str_lstrip]. by destruct (isspace x).
Qed.

Lemma str_count_app c a b :
  str_count c (a +:+ b) = str_count c a + str_count c b.
Proof.
  induction a as [|x a IH]; [done|].
  rewrite str_app_cons. cbn [str_count]. rewrite IH. lia.
Qed.

Lemma str_split_no_separator c s : str_count c s = 0 → str_split c s = [s].
Proof.
  induction s as [|x s IH]; [done|]. cbn [str_count str_split].
  case_decide; [lia|]. intros Hs. by rewrite IH.
Qed.

Lemma str_split_app c a b :
  str_count c a = 0 → str_split c (a +:+ String c b) = a :: str_split c b.
Proof.
  induction a as [|x a IH].
  - intros _. rewrite str_app_nil_l. cbn [str_split]. by rewrite decide_True.
  - rewrite str_app_cons. cbn [str_count str_split].
    case_decide; [lia|]. intros Ha. by rewrite IH.
Qed.

Lemma str_strip_reference producer name :
  str_strip ("@" +:+ producer +:+ "@" +:+ name)
  = "@" +:+ producer +:+ "@" +:+ str_rstrip name.
Proof.
  unfold str_strip, str_rstrip.
  change ("@" +:+ producer +:+ "@" +:+ name)
    with (String "@" (producer +:+ String "@" name)).
  cbn [str_lstrip].
  change (isspace "@") with false. cbv iota.
  rewrite str_rev_cons, str_rev_app, str_rev_cons, !str_app_assoc.
  change (String "@" EmptyString +:+ ?x) with (String "@" x).
  rewrite str_lstrip_app by done.
  rewrite str_rev_app, str_rev_cons, str_rev_app, str_rev_involutive.
  change (String.rev (String "@" EmptyString)) with (String "@" EmptyString).
  by rewrite !str_app_assoc.
Qed.

(** X13: a value ["@" + producer + "@" + name], with no further ["@"],
    is read as the token [(producer, name.rstrip())]: the producer is
    taken as it is written, and white space at the end of the name is
    dropped. *)
Theorem scan_input_reference_token sr var producer name :
  str_count "@" producer = 0 → str_count "@" name = 0 →
  scan_input sr (var, VStr ("@" +:+ producer +:+ "@" +:+ name))
  = Ok (add_recv (producer, str_rstrip name) sr)
  ∧ scan_wrapper_io sr (var, VStr ("@" +:+ producer +:+ "@" +:+ name))
    = Ok (add_recv (producer, str_rstrip name) sr).
Proof.
  intros Hp Hn. rewrite scan_wrapper_io_str.
  assert (scan_input sr (var, VStr ("@" +:+ producer +:+ "@" +:+ name))
          = Ok (add_recv (producer, str_rstrip name) sr)) as ->; [|done].
  unfold scan_input. cbn [snd]. rewrite str_strip_reference.
  change ("@" +:+ producer +:+ "@" +:+ name)
    with (String "@" (producer +:+ String "@" name)).
  cbn [str_index mbind result_bind str_count].
  rewrite decide_True by done. rewrite str_count_app. cbn [str_count].
  rewrite decide_True by done. rewrite Hp, Hn.
  rewrite !bool_decide_eq_true_2 by done. cbn [andb].
  change ("@" +:+ producer +:+ "@" +:+ str_rstrip name)
    with (String "@" (producer +:+ String "@" (str_rstrip name))).
  cbn [str_split]. rewrite decide_True by done.
  rewrite (str_split_app _ _ _ Hp), str_split_no_separator; [done|].
  unfold str_rstrip.
  by rewrite str_count_rev, str_count_lstrip, str_count_rev.
Qed.

(** ** The redundancy pass *)

Section remove_first.
Context {A : Type} `{EqDecision A}.
Implicit Types (x y : A) (l : list A).

Lemma list_remove_elem x l : x ∈ l → list_remove x l = Ok (remove_first x l).
Proof.
  induction l as [|y l IH]; [by intros ?%elem_of_nil|].
  cbn [list_remove remove_first]. case_decide; [done|].
  intros [->|Hin]%elem_of_cons; [done|]. by rewrite IH.
Qed.

Lemma count_of_cons x y l :
  count_of x (y :: l) = (if decide (y = x) then 1 else 0) + count_of x l.
Proof. unfold count_of. rewrite filter_cons. by case_decide. Qed.

Lemma count_of_pos x l : 0 < count_of x l ↔ x ∈ l.
Proof.
  induction l as [|y l IH].
  - split; [cbn; lia|by intros ?%elem_of_nil].
  - rewrite count_of_cons, elem_of_cons. case_decide; subst.
    + split; [by left|lia].
    + rewrite <- IH. split; [intros; right; lia|intros [->|?]; [done|lia]].
Qed.

Lemma count_of_remove_first x y l :
  count_of y l
  = (if decide (x = y ∧ x ∈ l) then 1 else 0) + count_of y (remove_first x l).
Proof.
  induction l as [|z l IH].
  - cbn. rewrite decide_False; [done|]. by intros [_ ?%elem_of_nil].
  - cbn [remove_first]. destruct (decide (z = x)) as [->|Hzx].
    + rewrite count_of_cons. destruct (decide (x = y)) as [->|Hxy].
      * rewrite decide_True; [done|]. split; [done|apply list_elem_of_here].
      * rewrite decide_False; [done|]. by intros [? _].
    + rewrite !count_of_cons, IH.
      destruct (decide (x = y ∧ x ∈ l)) as [[-> Hin]|Hn].
      * rewrite (decide_True (P := y = y ∧ y ∈ z :: l)); [lia|].
        split; [done|]. by apply list_elem_of_further.
      * rewrite (decide_False (P := x = y ∧ x ∈ z :: l)); [lia|].
        intros [-> [?|?]%elem_of_cons]; [done|tauto].
Qed.

Lemma foldl_remove_first_cons x l xs :
  x ∉ xs →
  foldl (λ l v, remove_first v l) (x :: l) xs
  = x :: foldl (λ l v, remove_first v l) l xs.
Proof.
  revert l. induction xs as [|y xs IH]; intros l; [done|].
  intros [? ?]%not_elem_of_cons. cbn [foldl remove_first].
  rewrite decide_False by done. by apply IH.
Qed.

(** Removing, one occurrence at a time, every element of [l] that fails
    [P] leaves the elements that satisfy it, in their order. *)
Lemma foldl_remove_first_filter (P : A → Prop) `{∀ x, Decision (P x)} l :
  foldl (λ l v, remove_first v l) l (filter (λ x, ¬ P x) l) = filter P l.
Proof.
  induction l as [|x l IH]; [done|]. rewrite !filter_cons.
  destruct (decide (P x)) as [HP|HP].
  - rewrite decide_False by tauto. rewrite foldl_remove_first_cons, IH; [done|].
    rewrite list_elem_of_filter. tauto.
  - rewrite decide_True by done. cbn [foldl remove_first].
    by rewrite decide_True.
Qed.
End remove_first.

Lemma Dict_alter_const {K V} `{EqDecision K} (f : V → V) (d : list (K * V)) k v :
  Dict.get d k = Some v → Dict.alter (λ _, f v) k d = Dict.alter f k d.
Proof.
  induction d as [|[k' v'] d IH]; cbn; [done|].
  case_decide; [by intros [= ->]|]. intros ?. by rewrite IH.
Qed.

Lemma set_nodes_id d ns : nodes d = Some ns → set_nodes ns d = d.
Proof. destruct d. cbn. by intros ->. Qed.

Lemma turn_off_redundant_step send_recv d ns id var e :
  nodes d = Some ns → Dict.get send_recv id = Some e → var ∈ send e →
  id ∈ Dict.keys ns →
  turn_off_redundant send_recv (id, var) d
  = (set_nodes (Dict.alter (turn_off_block var) id ns) d,
     Ok (Dict.alter (λ e, {| send := remove_first var (send e);
                             recv := recv e |}) id send_recv)).
Proof.
  intros Hns He Hvar Hid. unfold turn_off_redundant, Dict.item.
  rewrite He, lift_bind, (list_remove_elem _ _ Hvar), lift_bind.
  rewrite get_input_dict_bind, Hns, lift_bind.
  apply Dict_get_is_Some in Hid as [b Hb]. rewrite Hb, lift_bind. cbn.
  by rewrite (Dict_alter_const
                (λ e, {| send := remove_first var (send e); recv := recv e |})
                _ _ _ He).
Qed.

Lemma prune_loop items : ∀ send_recv d ns,
  nodes d = Some ns →
  (∀ id, id ∈ Dict.keys send_recv → id ∈ Dict.keys ns) →
  (∀ id var, count_of (id, var) items ≤ count_of var (sends_of send_recv id)) →
  for_each_p turn_off_redundant items send_recv d
  = (set_nodes (prune_nodes items ns) d, Ok (prune_send_recv items send_recv)).
Proof.
  induction items as [|[id var] items IH]; intros send_recv d ns Hns Hkeys Hcount.
  - cbn. by rewrite set_nodes_id.
  - assert (var ∈ sends_of send_recv id) as Hvar.
    { apply count_of_pos. specialize (Hcount id var).
      rewrite count_of_cons, decide_True in Hcount by done. lia. }
    unfold sends_of in Hvar.
    destruct (Dict.get send_recv id) as [e|] eqn:He;
      [|by apply elem_of_nil in Hvar].
    cbn [from_option] in Hvar.
    assert (id ∈ Dict.keys ns) as Hid
      by (by eapply Hkeys, Dict_get_Some_keys).
    cbn [for_each_p]. unfold mbind at 1, parser_bind.
    rewrite (turn_off_redundant_step _ _ _ _ _ _ Hns He Hvar Hid).
    erewrite IH; [done|done| |].
    + intros id'. rewrite !Dict_keys_alter. apply Hkeys.
    + intros id' var'. unfold sends_of. rewrite Dict_get_alter.
      specialize (Hcount id' var'). rewrite count_of_cons in Hcount.
      unfold sends_of in Hcount.
      destruct (decide (id = id')) as [<-|Hne].
      * rewrite He in Hcount |- *. cbn [from_option fmap option_fmap option_map send recv] in Hcount |- *.
        rewrite (count_of_remove_first var var' (send e)) in Hcount.
        destruct (decide (var = var')) as [<-|Hv].
        -- rewrite decide_True in Hcount by done.
           rewrite decide_True in Hcount by done. lia.
        -- rewrite decide_False in Hcount by (by intros [= ?]).
           rewrite decide_False in Hcount by tauto. lia.
      * rewrite decide_False in Hcount by (by intros [= ?]). lia.
Qed.

Lemma prune_send_recv_keys items : ∀ send_recv,
  Dict.keys (prune_send_recv items send_recv) = Dict.keys send_recv.
Proof.
  induction items as [|item items IH]; intros sr; [done|].
  unfold prune_send_recv in *. cbn [foldl]. by rewrite IH, Dict_keys_alter.
Qed.

Lemma names_of_cons item items id :
  names_of (item :: items) id
  = if decide (item.1 = id) then item.2 :: names_of items id
    else names_of items id.
Proof. unfold names_of. rewrite filter_cons. by case_decide. Qed.

Lemma prune_send_recv_get items id : ∀ send_recv,
  Dict.get (prune_send_recv items send_recv) id
  = (λ e, {| send := foldl (λ l v, remove_first v l) (send e) (names_of items id);
             recv := recv e |}) <$> Dict.get send_recv id.
Proof.
  induction items as [|item items IH]; intros sr.
  - cbn. by destruct (Dict.get sr id) as [[]|].
  - unfold prune_send_recv in *. cbn [foldl].
    rewrite IH, Dict_get_alter, names_of_cons.
    case_decide; [|done]. by destruct (Dict.get sr id).
Qed.

Lemma prune_nodes_get items id : ∀ ns,
  Dict.get (prune_nodes items ns) id
  = (λ b, foldl (λ b v, turn_off_block v b) b (names_of items id))
    <$> Dict.get ns id.
Proof.
  induction items as [|item items IH]; intros ns.
  - cbn. by destruct (Dict.get ns id).
  - unfold prune_nodes in *. cbn [foldl].
    rewrite IH, Dict_get_alter, names_of_cons.
    case_decide; [|done]. by destruct (Dict.get ns id).
Qed.

(** The sends of one node among all the sends. *)
Lemma all_sent_of_node send_recv id :
  NoDup (Dict.keys send_recv) →
  filter (λ item, item.1 = id) (all_sent_of send_recv)
  = (λ token, (id, token)) <$> sends_of send_recv id.
Proof.
  unfold all_sent_of, sends_of.
  induction send_recv as [|[id' e] sr IH]; [done|].
  rewrite fmap_cons. unfold Dict.keys. rewrite fmap_cons.
  cbn [fst snd Dict.get]. fold (Dict.keys sr).
  change (mjoin (?a :: ?b)) with (a ++ mjoin b).
  intros [Hid Hnd]%NoDup_cons. rewrite filter_app.
  destruct (decide (id' = id)) as [->|Hne].
  - rewrite filter_all.
    + rewrite IH by done.
      destruct (Dict.get sr id) as [e'|] eqn:He'; [|by rewrite app_nil_r].
      by apply Dict_get_Some_keys in He'.
    + by intros ? (? & -> & _)%list_elem_of_fmap.
  - rewrite filter_none; [by apply IH|].
    by intros ? (? & -> & _)%list_elem_of_fmap.
Qed.

Lemma names_of_redundant send_recv id :
  NoDup (Dict.keys send_recv) →
  names_of (redundant_of send_recv) id
  = filter (λ var, ¬ (id, var) ∈ all_received_of send_recv)
      (sends_of send_recv id).
Proof.
  intros Hnd. unfold names_of, redundant_of.
  rewrite filter_comm, (all_sent_of_node _ _ Hnd).
  induction (sends_of send_recv id) as [|v l IH]; [done|].
  rewrite fmap_cons, !filter_cons. case_decide; [|done].
  rewrite fmap_cons. by rewrite IH.
Qed.

Lemma count_of_names_of items id var :
  count_of (id, var) items = count_of var (names_of items id).
Proof.
  induction items as [|[id' var'] items IH]; [done|].
  rewrite count_of_cons, names_of_cons. cbn [fst snd].
  destruct (decide (id' = id)) as [->|Hne].
  - rewrite count_of_cons, IH.
    destruct (decide (var' = var)) as [->|Hv].
    + by rewrite decide_True.
    + rewrite decide_False; [done|]. by intros [= ?].
  - rewrite decide_False; [done|]. by intros [= ?].
Qed.

Lemma count_of_filter_le {A} `{EqDecision A} (P : A → Prop)
    `{∀ x, Decision (P x)} (x : A) (l : list A) :
  count_of x (filter P l) ≤ count_of x l.
Proof.
  unfold count_of. rewrite filter_comm. apply sublist_length, sublist_filter.
Qed.

Lemma redundant_count send_recv id var :
  NoDup (Dict.keys send_recv) →
  count_of (id, var) (redundant_of send_recv)
  ≤ count_of var (sends_of send_recv id).
Proof.
  intros Hnd. rewrite count_of_names_of, (names_of_redundant _ _ Hnd).
  apply count_of_filter_le.
Qed.

(** The redundancy pass never raises after a scan that returned. *)
Lemma prune_redundant send_recv d ns :
  nodes d = Some ns →
  NoDup (Dict.keys send_recv) →
  (∀ id, id ∈ Dict.keys send_recv → id ∈ Dict.keys ns) →
  for_each_p turn_off_redundant (redundant_of send_recv) send_recv d
  = (set_nodes (prune_nodes (redundant_of send_recv) ns) d,
     Ok (prune_send_recv (redundant_of send_recv) send_recv)).
Proof.
  intros Hns Hnd Hkeys. apply prune_loop; [done..|].
  intros id var. by apply redundant_count.
Qed.

Lemma prune_redundant_get send_recv id :
  NoDup (Dict.keys send_recv) →
  Dict.get (prune_send_recv (redundant_of send_recv) send_recv) id
  = (λ e, {| send := filter (λ var, (id, var) ∈ all_received_of send_recv)
                       (send e);
             recv := recv e |}) <$> Dict.get send_recv id.
Proof.
  intros Hnd. rewrite prune_send_recv_get, (names_of_redundant _ _ Hnd).
  unfold sends_of. destruct (Dict.get send_recv id) as [e|]; [|done].
  cbn. by rewrite foldl_remove_first_filter.
Qed.

(** ** The document after [serialize] *)

Lemma option_Forall2_refl' {A} (R : relation A) (o : option A) :
  (∀ x, R x x) → option_Forall2 R o o.
Proof. intros HR. destruct o; by constructor. Qed.

Lemma option_Forall2_trans' {A} (R : relation A) (o1 o2 o3 : option A) :
  (∀ x y z, R x y → R y z → R x z) →
  option_Forall2 R o1 o2 → option_Forall2 R o2 o3 → option_Forall2 R o1 o3.
Proof.
  intros HR H12 H23. destruct H12; inversion H23; subst; constructor; eauto.
Qed.

Lemma Forall2_refl' {A} (R : relation A) (l : list A) :
  (∀ x, R x x) → Forall2 R l l.
Proof. intros HR. induction l; by constructor. Qed.

Lemma Forall2_trans' {A} (R : relation A) (l1 l2 l3 : list A) :
  (∀ x y z, R x y → R y z → R x z) →
  Forall2 R l1 l2 → Forall2 R l2 l3 → Forall2 R l1 l3.
Proof.
  intros HR H12. revert l3. induction H12; intros l3 H23; inversion H23; subst;
    constructor; eauto.
Qed.

Lemma switched_off_refl d : switched_off d d.
Proof. apply Forall2_refl'. auto. Qed.

Lemma switched_off_trans d1 d2 d3 :
  switched_off d1 d2 → switched_off d2 d3 → switched_off d1 d3.
Proof.
  apply Forall2_trans'. intros x y z [H1 H1'] [H2 H2']. split; [congruence|].
  destruct H2' as [Heq| Heq]; rewrite Heq; [done|by right].
Qed.

Lemma method_frame_refl m : method_frame m m.
Proof.
  split; [done|]. split; [done|].
  apply option_Forall2_refl', switched_off_refl.
Qed.

Lemma method_frame_trans m1 m2 m3 :
  method_frame m1 m2 → method_frame m2 m3 → method_frame m1 m3.
Proof.
  intros (?&?&?) (?&?&?). split; [congruence|]. split; [congruence|].
  eapply option_Forall2_trans'; [apply switched_off_trans|done..].
Qed.

Lemma block_frame_refl b : block_frame b b.
Proof.
  repeat (split; [done|]). split; [|split].
  - apply option_Forall2_refl', switched_off_refl.
  - apply option_Forall2_refl', method_frame_refl.
  - apply option_Forall2_refl', switched_off_refl.
Qed.

Lemma block_frame_trans b1 b2 b3 :
  block_frame b1 b2 → block_frame b2 b3 → block_frame b1 b3.
Proof.
  intros (?&?&?&?&?&?&?&?) (?&?&?&?&?&?&?&?).
  repeat (split; [congruence|]). split; [|split].
  - eapply option_Forall2_trans'; [apply switched_off_trans|done..].
  - eapply option_Forall2_trans'; [apply method_frame_trans|done..].
  - eapply option_Forall2_trans'; [apply switched_off_trans|done..].
Qed.

Lemma document_frame_refl d : document_frame d d.
Proof.
  split; [done|]. apply option_Forall2_refl'. intros ns.
  apply Forall2_refl'. intros n. split; [done|apply block_frame_refl].
Qed.

Lemma document_frame_trans d1 d2 d3 :
  document_frame d1 d2 → document_frame d2 d3 → document_frame d1 d3.
Proof.
  intros [? H12] [? H23]. split; [congruence|].
  eapply option_Forall2_trans'; [|done..]. intros ns1 ns2 ns3.
  apply Forall2_trans'. intros x y z [? ?] [? ?]. split; [congruence|].
  by eapply block_frame_trans.
Qed.

Lemma alter_switched_off var d :
  switched_off d (Dict.alter (λ _, VBool false) var d).
Proof.
  induction d as [|[k v] d IH]; [constructor|]. cbn [Dict.alter].
  case_decide.
  - constructor; [split; [done|by right]|apply switched_off_refl].
  - constructor; [split; [done|by left]|apply IH].
Qed.

Lemma turn_off_switched_off var d : switched_off d (turn_off var d).
Proof.
  unfold turn_off. case_decide; [apply alter_switched_off|].
  apply switched_off_refl.
Qed.

Lemma turn_off_field var o : option_Forall2 switched_off o (turn_off var <$> o).
Proof. destruct o; constructor. apply turn_off_switched_off. Qed.

Lemma turn_off_block_frame var b : block_frame b (turn_off_block var b).
Proof.
  repeat (split; [done|]). split; [|split]; cbn.
  - apply turn_off_field.
  - destruct (b_method b) as [m|]; constructor.
    split; [done|]. split; [done|]. apply turn_off_field.
  - apply turn_off_field.
Qed.

Lemma alter_turn_off_frame var id (ns : list (string * block)) :
  Forall2 (λ n n', n'.1 = n.1 ∧ block_frame n.2 n'.2) ns
    (Dict.alter (turn_off_block var) id ns).
Proof.
  induction ns as [|[k b] ns IH]; [constructor|]. cbn [Dict.alter].
  case_decide.
  - constructor; [split; [done|apply turn_off_block_frame]|].
    apply Forall2_refl'. intros n. split; [done|apply block_frame_refl].
  - constructor; [split; [done|apply block_frame_refl]|apply IH].
Qed.

Lemma turn_off_redundant_frame send_recv item d :
  document_frame d (turn_off_redundant send_recv item d).1.
Proof.
  destruct item as [id var]. unfold turn_off_redundant.
  rewrite lift_bind. destruct (Dict.item send_recv id) as [sr| |];
    [|apply document_frame_refl..].
  rewrite lift_bind. destruct (list_remove var (send sr)) as [sends| |];
    [|apply document_frame_refl..].
  rewrite get_input_dict_bind, lift_bind.
  destruct (nodes d) as [ns|] eqn:Hns; [|apply document_frame_refl].
  rewrite lift_bind. destruct (Dict.item ns id) as [b| |];
    [|apply document_frame_refl..].
  cbn. split; [done|]. rewrite Hns. constructor. apply alter_turn_off_frame.
Qed.

Lemma for_each_p_frame items : ∀ send_recv d,
  document_frame d (for_each_p turn_off_redundant items send_recv d).1.
Proof.
  induction items as [|item items IH]; intros send_recv d;
    [apply document_frame_refl|].
  cbn [for_each_p]. unfold mbind at 1, parser_bind.
  pose proof (turn_off_redundant_frame send_recv item d) as Hstep.
  destruct (turn_off_redundant send_recv item d) as [d1 [sr1| |]]; [|done..].
  eapply document_frame_trans; [exact Hstep|apply IH].
Qed.

(** The document is written by the redundancy pass only. *)
Lemma serialize_state d :
  (serialize d).1
  = match nodes d with
    | Some ns =>
        match collect_send_recv ns with
        | Ok send_recv =>
            (for_each_p turn_off_redundant (redundant_of send_recv)
               send_recv d).1
        | _ => d
        end
    | None => d
    end.
Proof.
  unfold serialize. rewrite get_input_dict_bind.
  destruct (nodes d) as [ns|]; [|done]. rewrite lift_bind.
  destruct (collect_send_recv ns) as [send_recv| |]; [|done..].
  unfold mbind at 1, parser_bind.
  destruct (for_each_p _ _ _ _) as [d1 [sr1| |]]; [|done..].
  rewrite lift_bind. destruct (make_graph sr1) as [[[g gs] gr]| |]; [|done..].
  rewrite lift_bind. destruct (cycle_in_graph gs) as [[]| |]; [done| |done..].
  rewrite lift_bind. destruct (hierarchicy gs gr) as [layers| |]; [|done..].
  rewrite get_input_dict_bind, lift_bind.
  by destruct (match nodes d1 with Some _ => _ | None => _ end).
Qed.

(** X14: whatever [serialize] does (return or raise), it leaves the ids
    and the order of the nodes, their [name], [library], [module],
    [inputs] and other keys, the [name] and [inputs] of [method] and the
    other top-level keys as they are, and in [outputs], [method.outputs]
    and [wrapper_io] it adds and removes no key: a value there is the one
    of the input, or [False]. *)
Theorem serialize_frame d : document_frame d (serialize d).1.
Proof.
  rewrite serialize_state. destruct (nodes d) as [ns|];
    [|apply document_frame_refl].
  destruct (collect_send_recv ns); [|apply document_frame_refl..].
  apply for_each_p_frame.
Qed.

Lemma all_received_elem_of send_recv token :
  token ∈ all_received_of send_recv
  ↔ ∃ id e, (id, e) ∈ send_recv ∧ token ∈ recv e.
Proof.
  unfold all_received_of. rewrite list_elem_of_join. split.
  - intros (l & Hl & ([id e] & -> & Hin)%list_elem_of_fmap). by exists id, e.
  - intros (id & e & Hin & Htok). exists (recv e). split; [done|].
    apply list_elem_of_fmap. by exists (id, e).
Qed.

Lemma all_sent_elem_of send_recv id var :
  (id, var) ∈ all_sent_of send_recv
  ↔ ∃ e, (id, e) ∈ send_recv ∧ var ∈ send e.
Proof.
  unfold all_sent_of. rewrite list_elem_of_join. split.
  - intros (l & Hl & ([id' e] & -> & Hin)%list_elem_of_fmap).
    apply list_elem_of_fmap in Hl as (var' & [= -> ->] & Hvar). by exists e.
  - intros (e & Hin & Hvar). exists ((λ token, (id, token)) <$> send e).
    split; [apply list_elem_of_fmap; by exists var|].
    apply list_elem_of_fmap. by exists (id, e).
Qed.

Section scanned.
Context (ns : list (string * block)) (send_recv : list (string * send_recv_entry)).
Hypothesis Hnd : NoDup (Dict.keys ns).
Hypothesis Hscan : collect_send_recv ns = Ok send_recv.

Lemma scanned_keys : Dict.keys send_recv = Dict.keys ns.
Proof. by destruct (collect_send_recv_Ok _ _ Hnd Hscan) as (? & _). Qed.

Lemma scanned_NoDup : NoDup (Dict.keys send_recv).
Proof. by rewrite scanned_keys. Qed.

Lemma scanned_entry id e :
  (id, e) ∈ send_recv →
  ∃ b, (id, b) ∈ ns ∧ (∀ var, var ∈ send e ↔ sent_by b var)
       ∧ (∀ token, token ∈ recv e ↔ received_by b token).
Proof.
  intros Hin. destruct (collect_send_recv_Ok _ _ Hnd Hscan) as (Hk & _ & Hget).
  assert (id ∈ Dict.keys ns) as ([id' b] & Hb & Hid)%keys_elem_of.
  { rewrite <- Hk. apply list_elem_of_fmap. by exists (id, e). }
  cbn in Hid. subst id'.
  destruct (Hget id b Hb) as (e' & He' & ?).
  rewrite (Dict_get_NoDup _ _ _ scanned_NoDup Hin) in He'.
  injection He' as <-. by exists b.
Qed.

Lemma scanned_block id b :
  (id, b) ∈ ns →
  ∃ e, (id, e) ∈ send_recv ∧ Dict.get send_recv id = Some e
       ∧ (∀ var, var ∈ send e ↔ sent_by b var)
       ∧ (∀ token, token ∈ recv e ↔ received_by b token).
Proof.
  intros Hin. destruct (collect_send_recv_Ok _ _ Hnd Hscan) as (_ & _ & Hget).
  destruct (Hget id b Hin) as (e & He & ?). exists e.
  split; [by apply Dict_get_elem_of|done].
Qed.

Lemma scanned_received token :
  token ∈ all_received_of send_recv ↔ received ns token.
Proof.
  rewrite all_received_elem_of. split.
  - intros (id & e & (b & Hb & _ & Hr)%scanned_entry & Htok).
    exists id, b. split; [done|]. by apply Hr.
  - intros (id & b & (e & He & _ & _ & Hr)%scanned_block & Htok).
    exists id, e. split; [done|]. by apply Hr.
Qed.

Lemma scanned_redundant id var :
  (id, var) ∈ redundant_of send_recv ↔ redundant_send ns id var.
Proof.
  unfold redundant_of, redundant_send.
  rewrite list_elem_of_filter, all_sent_elem_of, scanned_received. split.
  - intros [Hn (e & (b & Hb & Hs & _)%scanned_entry & Hvar)].
    split; [|done]. exists b. split; [done|]. by apply Hs.
  - intros [(b & (e & He & _ & Hs & _)%scanned_block & Hvar) Hn].
    split; [done|]. exists e. split; [done|]. by apply Hs.
Qed.

Lemma serialize_after_scan d :
  nodes d = Some ns →
  (serialize d).1 = set_nodes (prune_nodes (redundant_of send_recv) ns) d.
Proof.
  intros Hns. rewrite serialize_state, Hns, Hscan.
  rewrite (prune_redundant _ _ _ Hns scanned_NoDup); [done|].
  intros id. by rewrite scanned_keys.
Qed.
End scanned.

Lemma turn_off_get var (d : list (string * value)) k :
  Dict.get (turn_off var d) k
  = if decide (var = k) then (λ _, VBool false) <$> Dict.get d k
    else Dict.get d k.
Proof.
  unfold turn_off. case_decide as Hin.
  - apply Dict_get_alter.
  - case_decide as Hk; [|done]. subst k.
    apply Dict_get_None in Hin. by rewrite Hin.
Qed.

Lemma turn_off_all_get vars : ∀ (d : list (string * value)) k,
  Dict.get (turn_off_all vars d) k
  = if decide (k ∈ vars) then (λ _, VBool false) <$> Dict.get d k
    else Dict.get d k.
Proof.
  induction vars as [|var vars IH]; intros d k.
  { rewrite decide_False; [done|]. apply not_elem_of_nil. }
  unfold turn_off_all in *. cbn [foldl]. rewrite IH, turn_off_get.
  destruct (decide (var = k)) as [->|Hne].
  - rewrite (decide_True (P := k ∈ k :: vars)) by apply list_elem_of_here.
    case_decide; [|done]. by destruct (Dict.get d k).
  - destruct (decide (k ∈ vars)) as [Hin|Hnin].
    + rewrite decide_True; [done|]. by apply list_elem_of_further.
    + rewrite decide_False; [done|]. by intros [->|?]%elem_of_cons.
Qed.

Lemma foldl_turn_off_block vars : ∀ b,
  foldl (λ b var, turn_off_block var b) b vars
  = {| b_name := b_name b; b_library := b_library b; b_module := b_module b;
       b_inputs := b_inputs b;
       b_outputs := turn_off_all vars <$> b_outputs b;
       b_method :=
         (λ m, {| m_name := m_name m; m_inputs := m_inputs m;
                  m_outputs := turn_off_all vars <$> m_outputs m |})
         <$> b_method b;
       b_wrapper_io := turn_off_all vars <$> b_wrapper_io b;
       b_other := b_other b |}.
Proof.
  induction vars as [|var vars IH]; intros b.
  - destruct b as [? ? ? ? o m w ?]. cbn.
    destruct o, w; destruct m as [[? ? []]|]; done.
  - cbn [foldl]. rewrite IH. unfold turn_off_block, turn_off_method. cbn.
    f_equal.
    + by destruct (b_outputs b).
    + destruct (b_method b) as [m|]; [|done]. cbn. do 2 f_equal.
      by destruct (m_outputs m).
    + by destruct (b_wrapper_io b).
Qed.

Lemma names_of_elem_of items id var :
  var ∈ names_of items id ↔ (id, var) ∈ items.
Proof.
  unfold names_of. rewrite list_elem_of_fmap. split.
  - intros ([id' var'] & -> & [Hid Hin]%list_elem_of_filter).
    cbn in Hid. by subst.
  - intros Hin. exists (id, var). split; [done|].
    by apply list_elem_of_filter.
Qed.

(** What the redundancy pass has done to the three dictionaries of a
    node. *)
Lemma prune_nodes_entries items ns top id var :
  let d := {| nodes := Some ns; top_other := top |} in
  let d' := {| nodes := Some (prune_nodes items ns); top_other := top |} in
  let off (o : option value) :=
    if decide ((id, var) ∈ items) then (λ _, VBool false) <$> o else o in
  outputs_entry d' id var = off (outputs_entry d id var)
  ∧ method_outputs_entry d' id var = off (method_outputs_entry d id var)
  ∧ wrapper_io_entry d' id var = off (wrapper_io_entry d id var).
Proof.
  intros d d' off. unfold outputs_entry, method_outputs_entry, wrapper_io_entry.
  subst d d' off. cbn [nodes mbind option_bind]. rewrite prune_nodes_get.
  destruct (Dict.get ns id) as [b|]; cbn [fmap option_fmap option_map option_bind mbind];
    [|by case_decide].
  rewrite foldl_turn_off_block. cbn [b_outputs b_method b_wrapper_io].
  assert (∀ o : option (list (string * value)),
            (turn_off_all (names_of items id) <$> o) ≫= (λ o, Dict.get o var)
            = if decide ((id, var) ∈ items)
              then (λ _, VBool false) <$> (o ≫= λ o, Dict.get o var)
              else o ≫= λ o, Dict.get o var) as Hfield.
  { intros [o|]; cbn; [|by case_decide]. rewrite turn_off_all_get.
    destruct (decide (var ∈ names_of items id)) as [Hin|Hnin].
    - rewrite decide_True; [done|]. by apply names_of_elem_of.
    - rewrite decide_False; [done|]. by rewrite <- names_of_elem_of. }
  split; [apply Hfield|]. split; [|apply Hfield].
  destruct (b_method b) as [m|]; cbn; [|by case_decide]. apply Hfield.
Qed.

(** X15: when the scan of the nodes returns, the document after
    [serialize] (also when it raises later) has [False] under the name
    [var] in [outputs], [method.outputs] and [wrapper_io] of the node
    [id] wherever such a key is present, if [id] sends [var] and no node
    refers to it; it has what it had under every other name. *)
Theorem serialize_switches_off d ns send_recv id var :
  nodes d = Some ns →
  NoDup (Dict.keys ns) →
  collect_send_recv ns = Ok send_recv →
  let d' := (serialize d).1 in
  (redundant_send ns id var →
     outputs_entry d' id var = (λ _, VBool false) <$> outputs_entry d id var
     ∧ method_outputs_entry d' id var
       = (λ _, VBool false) <$> method_outputs_entry d id var
     ∧ wrapper_io_entry d' id var
       = (λ _, VBool false) <$> wrapper_io_entry d id var)
  ∧ (¬ redundant_send ns id var →
     outputs_entry d' id var = outputs_entry d id var
     ∧ method_outputs_entry d' id var = method_outputs_entry d id var
     ∧ wrapper_io_entry d' id var = wrapper_io_entry d id var).
Proof.
  intros Hns Hnd Hscan d'. subst d'.
  rewrite (serialize_after_scan _ _ Hnd Hscan _ Hns).
  destruct d as [? top]. cbn in Hns. subst. unfold set_nodes. cbn [top_other].
  pose proof (prune_nodes_entries (redundant_of send_recv) ns top id var)
    as Hentries. cbv beta zeta in Hentries.
  rewrite <- (scanned_redundant _ _ Hnd Hscan).
  split; intros Hred.
  - by rewrite !decide_True in Hentries.
  - by rewrite !decide_False in Hentries.
Qed.

(** X16: when the scan of the nodes returns, an entry of [outputs],
    [method.outputs] or [wrapper_io] that is still [True] after
    [serialize] is referred to by some node of the document. *)
Theorem serialize_true_outputs_are_received d ns send_recv id var :
  nodes d = Some ns →
  NoDup (Dict.keys ns) →
  collect_send_recv ns = Ok send_recv →
  let d' := (serialize d).1 in
  outputs_entry d' id var = Some (VBool true)
  ∨ method_outputs_entry d' id var = Some (VBool true)
  ∨ wrapper_io_entry d' id var = Some (VBool true) →
  received ns (id, var).
Proof.
  intros Hns Hnd Hscan d'. subst d'.
  rewrite (serialize_after_scan _ _ Hnd Hscan _ Hns).
  destruct d as [? top]. cbn in Hns. subst. unfold set_nodes. cbn [top_other].
  destruct (prune_nodes_entries (redundant_of send_recv) ns top id var)
    as (Ho & Hm & Hw). cbv beta zeta in Ho, Hm, Hw. rewrite Ho, Hm, Hw. clear Ho Hm Hw.
  destruct (decide ((id, var) ∈ redundant_of send_recv)) as [Hred|Hred].
  { intros [H|[H|H]];
      [destruct (outputs_entry _ id var)|destruct (method_outputs_entry _ id var)
      |destruct (wrapper_io_entry _ id var)]; done. }
  intros Htrue. apply (scanned_received _ _ Hnd Hscan).
  destruct (decide ((id, var) ∈ all_received_of send_recv)) as [|Hnr]; [done|].
  destruct Hred. apply list_elem_of_filter. split; [done|].
  unfold outputs_entry, method_outputs_entry, wrapper_io_entry in Htrue.
  cbn [nodes mbind option_bind] in Htrue.
  destruct (Dict.get ns id) as [b|] eqn:Hb; cbn in Htrue;
    [|by destruct Htrue as [?|[?|?]]].
  apply Dict_get_elem_of in Hb.
  destruct (scanned_block _ _ Hnd Hscan _ _ Hb) as (e & He & _ & Hs & _).
  apply all_sent_elem_of. exists e. split; [done|]. apply Hs.
  unfold sent_by. rewrite !elem_of_app.
  destruct Htrue as [H|[H|H]].
  - left. destruct (b_outputs b) as [o|]; [|done]. by apply Dict_get_elem_of.
  - right; right. destruct (b_method b) as [m|]; [|done]. cbn in H |- *.
    destruct (m_outputs m) as [o|]; [|done]. by apply Dict_get_elem_of.
  - right; left. destruct (b_wrapper_io b) as [o|]; [|done].
    by apply Dict_get_elem_of.
Qed.

(** ** The results of [serialize] *)

(** The steps of a run of [serialize] that returns. *)
Lemma serialize_Ok d d' out ns :
  nodes d = Some ns →
  NoDup (Dict.keys ns) →
  serialize d = (d', Ok out) →
  ∃ send_recv,
    collect_send_recv ns = Ok send_recv
    ∧ d' = set_nodes (prune_nodes (redundant_of send_recv) ns) d
    ∧ out_send_recv out = prune_send_recv (redundant_of send_recv) send_recv
    ∧ out_all_received out = all_received_of send_recv
    ∧ make_graph (out_send_recv out)
      = Ok (out_graph out, out_graph_send out, out_graph_recv out)
    ∧ cycle_in_graph (out_graph_send out) = Ok false
    ∧ hierarchicy (out_graph_send out) (out_graph_recv out)
      = Ok (out_layers out)
    ∧ prettyprinter (prune_nodes (redundant_of send_recv) ns) (out_layers out)
        (out_graph_send out) (out_graph_recv out) = Ok ().
Proof.
  intros Hns Hnd. unfold serialize. rewrite get_input_dict_bind, Hns, lift_bind.
  destruct (collect_send_recv ns) as [send_recv| |] eqn:Hscan; [|done..].
  unfold mbind at 1, parser_bind.
  rewrite (prune_redundant _ _ _ Hns (scanned_NoDup _ _ Hnd Hscan)).
  2:{ intros id. by rewrite (scanned_keys _ _ Hnd Hscan). }
  rewrite lift_bind.
  destruct (make_graph _) as [[[g gs] gr]| |] eqn:Hmake; [|done..].
  rewrite lift_bind. destruct (cycle_in_graph gs) as [[]| |] eqn:Hcyc; [done| |done..].
  rewrite lift_bind. destruct (hierarchicy gs gr) as [layers| |] eqn:Hh; [|done..].
  rewrite get_input_dict_bind. cbn [set_nodes nodes]. rewrite lift_bind.
  destruct (prettyprinter _ _ _ _) as [[]| |] eqn:Hpp; [|done..].
  intros [= <- <-]. exists send_recv.
  cbn [out_send_recv out_all_received out_graph out_graph_send out_graph_recv
       out_layers].
  done.
Qed.

Lemma prune_redundant_entry send_recv id e :
  NoDup (Dict.keys send_recv) →
  (id, e) ∈ prune_send_recv (redundant_of send_recv) send_recv →
  ∃ e0, (id, e0) ∈ send_recv ∧ recv e = recv e0
        ∧ send e = filter (λ var, (id, var) ∈ all_received_of send_recv) (send e0).
Proof.
  intros Hnd Hin.
  assert (NoDup (Dict.keys (prune_send_recv (redundant_of send_recv) send_recv)))
    as Hnd' by (by rewrite prune_send_recv_keys).
  apply (Dict_get_NoDup _ _ _ Hnd') in Hin.
  rewrite (prune_redundant_get _ _ Hnd) in Hin.
  destruct (Dict.get send_recv id) as [e0|] eqn:He0; [|done].
  injection Hin as <-. exists e0. split; [by apply Dict_get_elem_of|done].
Qed.

(** X17: when [serialize] returns, [send_recv] has the node ids of the
    document, the layers hold every node id exactly once, and for every
    reference in the document the producer exists, sends the variable
    and lies in a layer strictly before the one of the consumer. *)
Theorem serialize_order_respects_references d d' out ns :
  nodes d = Some ns →
  NoDup (Dict.keys ns) →
  serialize d = (d', Ok out) →
  Dict.keys (out_send_recv out) = Dict.keys ns
  ∧ mjoin (out_layers out) ≡ₚ Dict.keys ns
  ∧ ∀ consumer b producer var,
      (consumer, b) ∈ ns → received_by b (producer, var) →
      (∃ b', (producer, b') ∈ ns ∧ sent_by b' var)
      ∧ ∃ i j, layer_index (out_layers out) producer = Some i
               ∧ layer_index (out_layers out) consumer = Some j ∧ i < j.
Proof.
  intros Hns Hnd Hser.
  destruct (serialize_Ok _ _ _ _ Hns Hnd Hser)
    as (sr & Hscan & _ & Hsr & _ & Hmake & _ & Hh & _).
  pose proof (scanned_keys _ _ Hnd Hscan) as Hk.
  pose proof (scanned_NoDup _ _ Hnd Hscan) as Hndsr.
  assert (Dict.keys (out_send_recv out) = Dict.keys ns) as Hk'
    by (by rewrite Hsr, prune_send_recv_keys).
  pose proof (make_graph_keys_send _ _ _ _ Hmake) as Hks.
  pose proof (make_graph_keys_recv _ _ _ _ Hmake) as Hkr.
  assert (NoDup (Dict.keys (out_graph_send out))) as Hnds
    by (by rewrite Hks, Hk').
  assert (Dict.keys (out_graph_recv out) = Dict.keys (out_graph_send out))
    as Hkeys by congruence.
  destruct (hierarchicy_Ok_layering _ _ Hnds Hkeys _ Hh) as (Hlay & _ & Hperm).
  split; [done|]. split; [by rewrite Hperm, Hks, Hk'|].
  intros consumer b producer var Hb Hrecv.
  destruct (scanned_block _ _ Hnd Hscan _ _ Hb) as (e & _ & He & _ & Hr).
  apply Hr in Hrecv.
  assert (Dict.get (out_send_recv out) consumer
          = Some {| send := filter (λ v, (consumer, v) ∈ all_received_of sr)
                              (send e);
                    recv := recv e |}) as He'.
  { by rewrite Hsr, (prune_redundant_get _ _ Hndsr), He. }
  apply Dict_get_elem_of in He'.
  pose proof (make_graph_declared _ _ _ _ Hmake) as Hdecl.
  assert ((consumer, (producer, var)) ∈ references (out_send_recv out)) as Href.
  { eapply references_elem_of; [exact He'|done]. }
  split.
  - rewrite Forall_forall in Hdecl.
    destruct (Hdecl _ Href) as (ref & Hget & Hvar). cbn in Hget, Hvar.
    apply Dict_get_elem_of in Hget. rewrite Hsr in Hget.
    destruct (prune_redundant_entry _ _ _ Hndsr Hget) as (e0 & He0 & _ & Hsend).
    rewrite Hsend in Hvar. apply list_elem_of_filter in Hvar as [_ Hvar].
    destruct (scanned_entry _ _ Hnd Hscan _ _ He0) as (b' & Hb' & Hs & _).
    exists b'. split; [done|]. by apply Hs.
  - eapply layering_index; [done| |].
    + rewrite Hperm, Hks, Hk'. apply keys_elem_of. by exists (consumer, b).
    + apply (make_graph_edge_recv _ _ _ _ Hmake).
      rewrite (make_graph_edges _ _ _ _ Hmake). apply list_elem_of_fmap.
      by exists (consumer, (producer, var)).
Qed.

(** X18: in the [send_recv] that [serialize] returns, the [send] of a node
    holds the names that the node sends and some node refers to, its
    [recv] the tokens of the node's references; [all_received] holds the
    tokens of all references. *)
Theorem serialize_keeps_received_sends d d' out ns id b :
  nodes d = Some ns →
  NoDup (Dict.keys ns) →
  serialize d = (d', Ok out) →
  (id, b) ∈ ns →
  ∃ e, Dict.get (out_send_recv out) id = Some e
       ∧ (∀ var, var ∈ send e ↔ sent_by b var ∧ received ns (id, var))
       ∧ (∀ token, token ∈ recv e ↔ received_by b token)
       ∧ ∀ token, token ∈ out_all_received out ↔ received ns token.
Proof.
  intros Hns Hnd Hser Hb.
  destruct (serialize_Ok _ _ _ _ Hns Hnd Hser)
    as (sr & Hscan & _ & Hsr & Hall & _).
  destruct (scanned_block _ _ Hnd Hscan _ _ Hb) as (e & _ & He & Hs & Hr).
  eexists. split.
  { by rewrite Hsr, (prune_redundant_get _ _ (scanned_NoDup _ _ Hnd Hscan)), He. }
  cbn. split; [|split; [done|]].
  - intros var. by rewrite list_elem_of_filter, Hs,
      (scanned_received _ _ Hnd Hscan), (comm (∧)).
  - intros token. by rewrite Hall, (scanned_received _ _ Hnd Hscan).
Qed.

Lemma Dict_ext {K V} `{EqDecision K} (d d' : list (K * V)) :
  NoDup (Dict.keys d) → Dict.keys d' = Dict.keys d →
  (∀ k, Dict.get d' k = Dict.get d k) → d' = d.
Proof.
  revert d'. induction d as [|[k v] d IH]; intros [|[k' v'] d']; try done.
  unfold Dict.keys. rewrite !fmap_cons. cbn [fst].
  intros [Hk Hnd]%NoDup_cons [= -> Hkeys] Hget.
  pose proof (Hget k) as Hgk. cbn in Hgk. rewrite !decide_True in Hgk by done.
  injection Hgk as ->. f_equal. apply IH; [done..|].
  intros k'. specialize (Hget k'). cbn in Hget.
  destruct (decide (k = k')) as [<-|]; [|done].
  apply Dict_get_None in Hk as Hk'. rewrite Hk'. apply Dict_get_None.
  unfold Dict.keys. by rewrite Hkeys.
Qed.

Lemma Dict_get_fmap {K V W} `{EqDecision K} (f : K → V → W) (d : list (K * V)) k :
  Dict.get ((λ e, (e.1, f e.1 e.2)) <$> d) k = f k <$> Dict.get d k.
Proof.
  induction d as [|[k' v] d IH]; [done|]. rewrite fmap_cons. cbn.
  case_decide; [by subst|done].
Qed.

Lemma prune_redundant_fmap send_recv :
  NoDup (Dict.keys send_recv) →
  prune_send_recv (redundant_of send_recv) send_recv
  = (λ e, (e.1, {| send := filter (λ var, (e.1, var) ∈ all_received_of send_recv)
                             (send e.2);
                   recv := recv e.2 |})) <$> send_recv.
Proof.
  intros Hnd.
  assert (Dict.keys ((λ e, (e.1, {| send := filter (λ var, (e.1, var) ∈ all_received_of send_recv)
                             (send e.2);
                   recv := recv e.2 |})) <$> send_recv) = Dict.keys send_recv)
    as Hkeys.
  { unfold Dict.keys. rewrite <- list_fmap_compose. done. }
  apply Dict_ext.
  - by rewrite Hkeys.
  - by rewrite prune_send_recv_keys, Hkeys.
  - intros id. rewrite (prune_redundant_get _ _ Hnd). symmetry.
    pose (f := λ (id : string) (e : send_recv_entry),
            {| send := filter (λ var, (id, var) ∈ all_received_of send_recv)
                         (send e);
               recv := recv e |}).
    apply (Dict_get_fmap f).
Qed.

Lemma prune_redundant_received send_recv :
  NoDup (Dict.keys send_recv) →
  all_received_of (prune_send_recv (redundant_of send_recv) send_recv)
  = all_received_of send_recv.
Proof.
  intros Hnd. rewrite (prune_redundant_fmap _ Hnd). unfold all_received_of.
  by rewrite <- list_fmap_compose.
Qed.

Lemma prune_redundant_nothing_left send_recv :
  NoDup (Dict.keys send_recv) →
  redundant_of (prune_send_recv (redundant_of send_recv) send_recv) = [].
Proof.
  intros Hnd. unfold redundant_of at 1.
  rewrite (prune_redundant_received _ Hnd). apply filter_none.
  intros [id var] (e & Hin & Hvar)%all_sent_elem_of.
  rewrite (prune_redundant_fmap _ Hnd) in Hin.
  apply list_elem_of_fmap in Hin as ([id' e0] & [= -> ->] & _).
  cbn in Hvar. apply list_elem_of_filter in Hvar as [Hr _]. tauto.
Qed.

(** X19: the [send_recv] that [serialize] returns has no redundant send
    left and receives what [all_received] lists: the redundancy pass run
    on it once more changes nothing. *)
Theorem serialize_leaves_no_redundant_send d d' out ns :
  nodes d = Some ns →
  NoDup (Dict.keys ns) →
  serialize d = (d', Ok out) →
  redundant_of (out_send_recv out) = []
  ∧ all_received_of (out_send_recv out) = out_all_received out
  ∧ ∀ self,
      for_each_p turn_off_redundant (redundant_of (out_send_recv out))
        (out_send_recv out) self
      = (self, Ok (out_send_recv out)).
Proof.
  intros Hns Hnd Hser.
  destruct (serialize_Ok _ _ _ _ Hns Hnd Hser)
    as (sr & Hscan & _ & -> & -> & _).
  pose proof (scanned_NoDup _ _ Hnd Hscan) as Hndsr.
  split; [by apply prune_redundant_nothing_left|].
  split; [by apply prune_redundant_received|].
  intros self. by rewrite (prune_redundant_nothing_left _ Hndsr).
Qed.

(** X12: the first loop of [serialize], when it returns, has made one
    entry per node, in the order of the document; every node has passed
    [validate_keys]; the entry's [send] holds the names whose value is
    [True] in [outputs], [wrapper_io] or [method.outputs], and its [recv]
    the tokens of the references in [inputs], [wrapper_io] and
    [method.inputs], and nothing else. *)
Theorem collect_send_recv_per_node ns send_recv :
  NoDup (Dict.keys ns) →
  collect_send_recv ns = Ok send_recv →
  Forall2 (λ node entry,
             entry.1 = node.1
             ∧ validate_keys node.1 node.2 = Ok ()
             ∧ (∀ var, var ∈ send entry.2 ↔ sent_by node.2 var)
             ∧ (∀ token, token ∈ recv entry.2 ↔ received_by node.2 token))
    ns send_recv.
Proof.
  intros Hnd Hscan.
  destruct (collect_send_recv_Ok _ _ Hnd Hscan) as (Hk & Hvalid & Hget).
  assert (NoDup (Dict.keys send_recv)) as Hndsr by (by rewrite Hk).
  rewrite Forall_forall in Hvalid.
  apply Forall2_same_length_lookup. split.
  { apply (f_equal length) in Hk. unfold Dict.keys in Hk.
    by rewrite !length_fmap in Hk. }
  intros i [id b] [id' e] Hi Hi'. cbn [fst snd].
  assert (id' = id) as ->.
  { assert (Dict.keys send_recv !! i = Some id') as H1.
    { unfold Dict.keys. by rewrite list_lookup_fmap, Hi'. }
    assert (Dict.keys ns !! i = Some id) as H2.
    { unfold Dict.keys. by rewrite list_lookup_fmap, Hi. }
    congruence. }
  apply list_elem_of_lookup_2 in Hi, Hi'.
  destruct (Hget id b Hi) as (e' & He' & Hs & Hr).
  rewrite (Dict_get_NoDup _ _ _ Hndsr Hi') in He'. injection He' as <-.
  split; [done|]. split; [apply (Hvalid (id, b) Hi)|done].
Qed.

(** ** The exceptions of [serialize] *)

Lemma for_each_Raise {A S} (body : S → A → result S) l : ∀ s e,
  for_each body l s = Raise e → ∃ x s', x ∈ l ∧ body s' x = Raise e.
Proof.
  induction l as [|x l IH]; intros s e; cbn [for_each]; [done|].
  destruct (body s x) as [s1|e1|] eqn:Hx; cbn [mbind result_bind]; [|..|done].
  - intros (y & s' & Hy & Hbody)%IH. exists y, s'.
    split; [by apply list_elem_of_further|done].
  - intros [= <-]. exists x, s. split; [apply list_elem_of_here|done].
Qed.

Lemma for_each_not_Diverge {A S} (body : S → A → result S) l : ∀ s,
  (∀ s x, x ∈ l → body s x ≠ Diverge) → for_each body l s ≠ Diverge.
Proof.
  induction l as [|x l IH]; intros s Hbody; cbn [for_each]; [done|].
  destruct (body s x) as [s1|e1|] eqn:Hx; cbn [mbind result_bind]; [|done|].
  - apply IH. intros s' y Hy. by apply Hbody, list_elem_of_further.
  - by destruct (Hbody s x (list_elem_of_here _ _)).
Qed.

Lemma scan_input_Raise sr entry e :
  scan_input sr entry = Raise e → entry.2 = VStr EmptyString ∧ e = IndexError.
Proof.
  unfold scan_input. destruct entry.2 as [| | |s| |]; try done.
  destruct s as [|c s]; [by intros [= <-]|].
  cbn [str_index mbind result_bind].
  destruct (bool_decide (c = "@"%char)) eqn:Hc; [|done].
  destruct (bool_decide (str_count "@" (String c s) = 2)) eqn:Hn; [|done].
  apply bool_decide_eq_true_1 in Hc as ->. apply bool_decide_eq_true_1 in Hn.
  destruct (str_split_reference (String "@" s) eq_refl Hn)
    as (producer & name & ->). done.
Qed.

Lemma scan_wrapper_io_Raise sr entry e :
  scan_wrapper_io sr entry = Raise e →
  entry.2 = VStr EmptyString ∧ e = IndexError.
Proof.
  destruct entry as [var val]. destruct val as [|[]| |s| |]; try done.
  rewrite scan_wrapper_io_str. apply scan_input_Raise.
Qed.

Lemma for_each_in_Raise {A S} (body : S → A → result S) field s e :
  for_each_in body field s = Raise e →
  ∃ d x s', field = Some d ∧ x ∈ d ∧ body s' x = Raise e.
Proof.
  destruct field as [d|]; [|done]. cbn.
  intros (x & s' & ? & ?)%for_each_Raise. by exists d, x, s'.
Qed.

Lemma values_of_entry field d (entry : string * value) :
  field = Some d → entry ∈ d → entry.2 ∈ values_of field.
Proof. intros -> Hin. cbn. apply list_elem_of_fmap. by exists entry. Qed.

Lemma for_each_in_scan_output field sr e :
  for_each_in scan_output field sr ≠ Raise e.
Proof.
  intros (d & x & s' & _ & _ & H)%for_each_in_Raise.
  by rewrite scan_output_eq in H.
Qed.

Lemma validate_keys_Raise block_id b e :
  validate_keys block_id b = Raise e →
  ∃ msg, e = ValueError msg
         ∧ msg ∈ [msg_name_missing block_id; msg_library_missing block_id;
                  msg_redundant_keys block_id].
Proof.
  unfold validate_keys. repeat case_decide; [..|done]; intros [= <-];
    eexists; (split; [done|]);
    repeat (apply list_elem_of_here || apply list_elem_of_further).
Qed.

Lemma scan_block_Raise send_recv block_id b e :
  scan_block send_recv (block_id, b) = Raise e →
  (e = IndexError ∧ VStr EmptyString ∈ input_values b)
  ∨ ∃ msg, e = ValueError msg
           ∧ msg ∈ [msg_name_missing block_id; msg_library_missing block_id;
                    msg_redundant_keys block_id].
Proof.
  unfold scan_block, input_values.
  destruct (validate_keys block_id b) as [[]|e0|] eqn:Hv; [|..|done].
  2:{ intros [= <-]. right. by eapply validate_keys_Raise. }
  cbn [mbind result_bind]. intros Hraise. left.
  destruct (for_each_in scan_input (b_inputs b) _) as [sr1|e1|] eqn:H1;
    [|..|done].
  2:{ injection Hraise as <-.
      apply for_each_in_Raise in H1 as (d & x & s' & Hf & Hx & Hr).
      apply scan_input_Raise in Hr as [Hval ->]. split; [done|].
      rewrite elem_of_app. left. rewrite <- Hval. by eapply values_of_entry. }
  cbn [mbind result_bind] in Hraise.
  destruct (for_each_in scan_output (b_outputs b) sr1) as [sr2|e2|] eqn:H2;
    [|by apply for_each_in_scan_output in H2|done].
  cbn [mbind result_bind] in Hraise.
  destruct (for_each_in scan_wrapper_io (b_wrapper_io b) sr2) as [sr3|e3|] eqn:H3;
    [|..|done].
  2:{ injection Hraise as <-.
      apply for_each_in_Raise in H3 as (d & x & s' & Hf & Hx & Hr).
      apply scan_wrapper_io_Raise in Hr as [Hval ->]. split; [done|].
      rewrite !elem_of_app. right; left. rewrite <- Hval.
      by eapply values_of_entry. }
  cbn [mbind result_bind] in Hraise.
  destruct (scan_method (b_method b) sr3) as [sr4|e4|] eqn:H4; [done| |done].
  injection Hraise as <-. unfold scan_method in H4.
  destruct (b_method b) as [m|]; [|done].
  destruct (for_each_in scan_input (m_inputs m) sr3) as [sr5|e5|] eqn:H5;
    [|..|done].
  - cbn [mbind result_bind] in H4. by apply for_each_in_scan_output in H4.
  - injection H4 as <-.
    apply for_each_in_Raise in H5 as (d & x & s' & Hf & Hx & Hr).
    apply scan_input_Raise in Hr as [Hval ->]. split; [done|].
    rewrite !elem_of_app. right; right. rewrite <- Hval. cbn.
    by eapply values_of_entry.
Qed.

Lemma scan_block_not_Diverge send_recv node :
  scan_block send_recv node ≠ Diverge.
Proof.
  destruct node as [block_id b]. unfold scan_block.
  assert (∀ sr entry, scan_input sr entry ≠ Diverge) as Hin.
  { intros sr entry. by destruct (scan_input_ok_or_IndexError sr entry)
      as [[? ->]| ->]. }
  assert (∀ field sr, for_each_in scan_input field sr ≠ Diverge) as Hins.
  { intros [d|] sr; [|done]. apply for_each_not_Diverge. auto. }
  assert (∀ field sr, for_each_in scan_output field sr ≠ Diverge) as Houts.
  { intros [d|] sr; [|done]. apply for_each_not_Diverge.
    intros s x _. by rewrite scan_output_eq. }
  assert (∀ field sr, for_each_in scan_wrapper_io field sr ≠ Diverge) as Hws.
  { intros [d|] sr; [|done]. apply for_each_not_Diverge.
    intros s x _. by destruct (scan_wrapper_io_ok_or_IndexError s x)
      as [[? ->]| ->]. }
  unfold validate_keys. repeat case_decide; try done. cbn [mbind result_bind].
  destruct (for_each_in scan_input (b_inputs b) _) as [sr1|e1|] eqn:E1;
    [|done|by apply Hins in E1].
  cbn [mbind result_bind].
  destruct (for_each_in scan_output (b_outputs b) sr1) as [sr2|e2|] eqn:E2;
    [|done|by apply Houts in E2].
  cbn [mbind result_bind].
  destruct (for_each_in scan_wrapper_io (b_wrapper_io b) sr2) as [sr3|e3|] eqn:E3;
    [|done|by apply Hws in E3].
  cbn [mbind result_bind].
  destruct (scan_method (b_method b) sr3) as [sr4|e4|] eqn:E4; [done..|].
  unfold scan_method in E4. destruct (b_method b) as [m|]; [|done].
  destruct (for_each_in scan_input (m_inputs m) sr3) as [sr5|e5|] eqn:E5;
    [|done|by apply Hins in E5].
  by apply Houts in E4.
Qed.

(** What the pretty printer looks up. *)
Lemma available_keys_turn_off_block var b :
  available_keys (turn_off_block var b) = available_keys b.
Proof.
  unfold available_keys, turn_off_block. cbn.
  by destruct (b_outputs b), (b_method b), (b_wrapper_io b).
Qed.

Lemma available_keys_pruned vars : ∀ b,
  available_keys (foldl (λ b var, turn_off_block var b) b vars)
  = available_keys b.
Proof.
  induction vars as [|var vars IH]; intros b; [done|].
  cbn [foldl]. by rewrite IH, available_keys_turn_off_block.
Qed.

Lemma validate_keys_name block_id b :
  validate_keys block_id b = Ok () →
  "name" ∈ available_keys b ∧ "library" ∈ available_keys b.
Proof.
  unfold validate_keys. by repeat case_decide.
Qed.

Section prettyprinter.
Context (ns : list (string * block)) (items : list (string * string)).
Context (graph_send graph_recv : list (string * list string)).
Hypothesis Hvalid : Forall (λ node, validate_keys node.1 node.2 = Ok ()) ns.
Hypothesis Hks : Dict.keys graph_send = Dict.keys ns.
Hypothesis Hkr : Dict.keys graph_recv = Dict.keys ns.

Lemma prettyprinter_node_pruned id :
  id ∈ Dict.keys ns →
  ∃ b, Dict.get ns id = Some b
    ∧ prettyprinter_node (prune_nodes items ns) graph_send graph_recv () id
      = match b_method b with
        | Some m => match m_name m with Some _ => Ok () | None => Raise KeyError end
        | None => Ok ()
        end.
Proof.
  intros Hid. destruct (Dict_get_is_Some ns id) as [_ [b Hb]]; [done|].
  exists b. split; [done|]. unfold prettyprinter_node, Dict.item.
  rewrite prune_nodes_get, Hb. cbn [fmap option_fmap option_map mbind result_bind].
  rewrite available_keys_pruned.
  rewrite Forall_forall in Hvalid.
  destruct (validate_keys_name id b) as [Hname Hlib].
  { apply (Hvalid (id, b)). by apply Dict_get_elem_of. }
  rewrite !decide_True by done. cbn [mbind result_bind].
  rewrite foldl_turn_off_block. cbn [b_method].
  destruct (Dict_get_is_Some graph_recv id) as [_ [? ->]]; [by rewrite Hkr|].
  destruct (Dict_get_is_Some graph_send id) as [_ [? ->]]; [by rewrite Hks|].
  destruct (b_method b) as [m|]; [|done]. cbn. by destruct (m_name m).
Qed.

Lemma prettyprinter_pruned ids :
  (∀ id, id ∈ ids → id ∈ Dict.keys ns) →
  (for_each (prettyprinter_node (prune_nodes items ns) graph_send graph_recv)
     ids () = Ok ()
   ∧ Forall (λ id, ∀ b, Dict.get ns id = Some b → method_named b) ids)
  ∨ (for_each (prettyprinter_node (prune_nodes items ns) graph_send graph_recv)
       ids () = Raise KeyError
     ∧ Exists (λ id, ∃ b, Dict.get ns id = Some b ∧ ¬ method_named b) ids).
Proof.
  induction ids as [|id ids IH]; intros Hids; [by left|].
  cbn [for_each].
  destruct (prettyprinter_node_pruned id) as (b & Hb & ->).
  { apply Hids, list_elem_of_here. }
  assert (∀ id', id' ∈ ids → id' ∈ Dict.keys ns) as Hids'.
  { intros id' ?. by apply Hids, list_elem_of_further. }
  destruct (decide (method_named b)) as [Hnamed|Hnamed].
  - assert (match b_method b with
            | Some m => match m_name m with
                        | Some _ => Ok () | None => Raise KeyError end
            | None => Ok ()
            end = Ok ()) as ->.
    { destruct (b_method b) as [m|] eqn:Hm; [|done].
      by destruct (Hnamed m Hm) as [? ->]. }
    cbn [mbind result_bind]. destruct (IH Hids') as [[-> Hall]|[-> Hex]].
    + left. split; [done|]. constructor; [|done]. intros b' Hb'.
      by simplify_eq.
    + right. split; [done|]. by apply Exists_cons_tl.
  - right. split.
    + unfold method_named in Hnamed.
      destruct (b_method b) as [m|]; [|by destruct Hnamed].
      destruct (m_name m) eqn:Hname; [|done]. destruct Hnamed.
      intros ? [= <-]. by rewrite Hname.
    + apply Exists_cons_hd. by exists b.
Qed.
End prettyprinter.

Lemma serialize_pipeline d ns :
  nodes d = Some ns →
  NoDup (Dict.keys ns) →
  (serialize d).2
  = (send_recv ← collect_send_recv ns;
     let pruned := prune_send_recv (redundant_of send_recv) send_recv in
     '(graph, graph_send, graph_recv) ← make_graph pruned;
     cyclic ← cycle_in_graph graph_send;
     if (cyclic : bool) then Raise (ValueError msg_cycle)
     else
       layers ← hierarchicy graph_send graph_recv;
       _ ← prettyprinter (prune_nodes (redundant_of send_recv) ns) layers
             graph_send graph_recv;
       Ok {| out_send_recv := pruned;
             out_all_received := all_received_of send_recv;
             out_graph := graph;
             out_graph_send := graph_send;
             out_graph_recv := graph_recv;
             out_layers := layers |}).
Proof.
  intros Hns Hnd. unfold serialize. rewrite get_input_dict_bind, Hns, lift_bind.
  destruct (collect_send_recv ns) as [send_recv| |] eqn:Hscan; [|done..].
  unfold mbind at 1, parser_bind.
  rewrite (prune_redundant _ _ _ Hns (scanned_NoDup _ _ Hnd Hscan)).
  2:{ intros id. by rewrite (scanned_keys _ _ Hnd Hscan). }
  cbn [mbind result_bind]. rewrite lift_bind.
  destruct (make_graph _) as [[[g gs] gr]| |]; [|done..].
  rewrite lift_bind. cbn [mbind result_bind].
  destruct (cycle_in_graph gs) as [[]| |]; [done| |done..].
  rewrite lift_bind. cbn [mbind result_bind].
  destruct (hierarchicy gs gr) as [layers| |]; [|done..].
  rewrite get_input_dict_bind. cbn [set_nodes nodes]. rewrite lift_bind.
  cbn [mbind result_bind].
  by destruct (prettyprinter _ _ _ _) as [[]| |].
Qed.

Lemma collect_send_recv_Raise ns e :
  collect_send_recv ns = Raise e →
  (e = IndexError ∧ ∃ id b, (id, b) ∈ ns ∧ VStr EmptyString ∈ input_values b)
  ∨ ∃ id b, (id, b) ∈ ns
            ∧ (e = ValueError (msg_name_missing id)
               ∨ e = ValueError (msg_library_missing id)
               ∨ e = ValueError (msg_redundant_keys id)).
Proof.
  intros ([id b] & sr & Hin & [[-> Hempty]|(msg & -> & Hmsg)]%scan_block_Raise)
    %for_each_Raise.
  - left. split; [done|]. by exists id, b.
  - right. exists id, b. split; [done|].
    repeat apply elem_of_cons in Hmsg as [->|Hmsg]; auto.
    by apply elem_of_nil in Hmsg.
Qed.

Lemma serialize_outcome d ns :
  nodes d = Some ns →
  NoDup (Dict.keys ns) →
  (∃ out, (serialize d).2 = Ok out ∧ Forall (λ node, method_named node.2) ns)
  ∨ ∃ e, (serialize d).2 = Raise e ∧ serialize_error ns e.
Proof.
  intros Hns Hnd. rewrite (serialize_pipeline _ _ Hns Hnd).
  unfold serialize_error.
  destruct (collect_send_recv ns) as [sr|e|] eqn:Hscan.
  2:{ right. exists e. split; [done|].
      apply collect_send_recv_Raise in Hscan as [?|?]; auto. }
  2:{ by apply for_each_not_Diverge in Hscan;
        [|intros; apply scan_block_not_Diverge]. }
  cbn [mbind result_bind]. cbv zeta.
  set (pruned := prune_send_recv (redundant_of sr) sr).
  destruct (collect_send_recv_Ok _ _ Hnd Hscan) as (Hk & Hvalid & _).
  assert (Dict.keys pruned = Dict.keys ns) as Hkp
    by (unfold pruned; by rewrite prune_send_recv_keys).
  destruct (make_graph pruned) as [[[g gs] gr]|e|] eqn:Hmake.
  2:{ right. exists e. split; [done|].
      rewrite make_graph_unfold in Hmake. case_decide; [done|].
      injection Hmake as <-. auto 6. }
  2:{ rewrite make_graph_unfold in Hmake. by case_decide. }
  cbn [mbind result_bind].
  pose proof (make_graph_keys_send _ _ _ _ Hmake) as Hks.
  pose proof (make_graph_keys_recv _ _ _ _ Hmake) as Hkr.
  destruct (cycle_in_graph_correct gs) as (cyclic & -> & Hcyc).
  cbn [mbind result_bind]. destruct cyclic.
  { right. eexists. split; [done|]. auto 7. }
  destruct (hierarchicy_layering gs gr) as (layers & final & _ & Hperm & _ & ->).
  { by rewrite Hks, Hkp. }
  { congruence. }
  { intros u v Hu. apply (make_graph_edge_send _ _ _ _ Hmake).
    by apply (make_graph_edge_recv _ _ _ _ Hmake). }
  { intros Hc. by apply Hcyc in Hc. }
  case_decide.
  { right. eexists. split; [done|]. auto 8. }
  cbn [mbind result_bind]. unfold prettyprinter.
  destruct (prettyprinter_pruned ns (redundant_of sr) gs gr Hvalid)
    with (ids := mjoin layers) as [[-> Hall]|[-> Hex]].
  { by rewrite Hks. } { by rewrite Hkr. }
  { intros id. by rewrite Hperm, Hks, Hkp. }
  - left. eexists. split; [done|]. rewrite Forall_forall in Hall.
    apply Forall_forall. intros [id b] Hin. apply (Hall id).
    + rewrite Hperm, Hks, Hkp. apply keys_elem_of. by exists (id, b).
    + by apply Dict_get_NoDup.
  - right. eexists. split; [done|]. right; left. split; [done|].
    apply Exists_exists in Hex as (id & _ & b & Hb & Hnamed).
    exists id, b. unfold method_named in Hnamed.
    destruct (b_method b) as [m|]; [|by destruct Hnamed].
    exists m. split; [by apply Dict_get_elem_of|]. split; [done|].
    destruct (m_name m) eqn:Hname; [|done]. destruct Hnamed.
    intros ? [= <-]. by rewrite Hname.
Qed.

(** X20: what [serialize] raises on a document with nodes: the
    [IndexError] of an empty string among the scanned values of a node, the
    [KeyError] of a [method] without ['name'] in the pretty printer, or a
    [ValueError] with one of the three messages of [validate_keys] for a
    node of the document, for a broken pipe, for a cycle or for layers
    that do not end in the end nodes.  The redundancy pass, the lookups
    of [make_graph] and of [hierarchicy] raise nothing. *)
Theorem serialize_raises_only d d' e ns :
  nodes d = Some ns →
  NoDup (Dict.keys ns) →
  serialize d = (d', Raise e) →
  serialize_error ns e.
Proof.
  intros Hns Hnd Hser.
  destruct (serialize_outcome d ns Hns Hnd) as [(out & Hout & _)|(e' & He' & ?)];
    rewrite Hser in *; cbn in *; by simplify_eq.
Qed.

(** X21: [serialize] comes back, with a result or an exception: the
    loop of [cycle_in_graph] ends within its bound, and the [while] loop
    of [hierarchicy] is reached on acyclic graphs only, where each round
    adds a node. *)
Theorem serialize_terminates d :
  (∀ ns, nodes d = Some ns → NoDup (Dict.keys ns)) →
  (serialize d).2 ≠ Diverge.
Proof.
  intros Hnd. destruct (nodes d) as [ns|] eqn:Hns.
  - destruct (serialize_outcome d ns Hns (Hnd ns eq_refl))
      as [(out & -> & _)|(e & -> & _)]; done.
  - unfold serialize. by rewrite get_input_dict_bind, Hns.
Qed.

(** X22: [validate_keys] does not look into [method], but a document
    with a node whose [method] has no ['name'] is never accepted:
    [serialize] raises, in the pretty printer at the latest. *)
Theorem serialize_rejects_unnamed_method d ns id b m :
  nodes d = Some ns →
  NoDup (Dict.keys ns) →
  (id, b) ∈ ns → b_method b = Some m → m_name m = None →
  ∃ e, (serialize d).2 = Raise e ∧ serialize_error ns e.
Proof.
  intros Hns Hnd Hin Hm Hname.
  destruct (serialize_outcome d ns Hns Hnd) as [(out & _ & Hall)|?]; [|done].
  rewrite Forall_forall in Hall.
  destruct (Hall _ Hin m Hm) as [? ?]. cbn in *. congruence.
Qed.

Lemma references_iff send_recv consumer token :
  (consumer, token) ∈ references send_recv
  ↔ ∃ e, (consumer, e) ∈ send_recv ∧ token ∈ recv e.
Proof.
  split.
  - unfold references. intros (l & Hr & Hl)%list_elem_of_join.
    apply list_elem_of_fmap in Hl as ([id e] & -> & He).
    apply list_elem_of_fmap in Hr as (item' & [= -> ->] & Hitem).
    by exists e.
  - intros (e & He & Htok). by eapply references_elem_of.
Qed.

Section pruned.
Context (ns : list (string * block)) (send_recv : list (string * send_recv_entry)).
Hypothesis Hnd : NoDup (Dict.keys ns).
Hypothesis Hscan : collect_send_recv ns = Ok send_recv.

Abbreviation pruned :=
  (prune_send_recv (redundant_of send_recv) send_recv).

Lemma pruned_references consumer token :
  (consumer, token) ∈ references pruned
  ↔ ∃ b, (consumer, b) ∈ ns ∧ received_by b token.
Proof.
  pose proof (scanned_NoDup _ _ Hnd Hscan) as Hndsr.
  rewrite references_iff. unfold pruned. split.
  - intros (e & (e0 & He0 & Hrecv & _)%prune_redundant_entry & Htok); [|done].
    destruct (scanned_entry _ _ Hnd Hscan _ _ He0) as (b & Hb & _ & Hr).
    exists b. split; [done|]. apply Hr. by rewrite <- Hrecv.
  - intros (b & Hb & Htok).
    destruct (scanned_block _ _ Hnd Hscan _ _ Hb) as (e & _ & He & _ & Hr).
    eexists. split.
    + apply Dict_get_elem_of. by rewrite (prune_redundant_get _ _ Hndsr), He.
    + by apply Hr.
Qed.

Lemma pruned_declared token :
  received ns token →
  declared pruned token ↔ ∃ b, (token.1, b) ∈ ns ∧ sent_by b token.2.
Proof.
  pose proof (scanned_NoDup _ _ Hnd Hscan) as Hndsr.
  intros Hreceived%(scanned_received _ _ Hnd Hscan).
  unfold declared, pruned. rewrite (prune_redundant_get _ _ Hndsr). split.
  - intros (ref & Hget & Hvar).
    destruct (Dict.get send_recv token.1) as [e|] eqn:He; [|done].
    injection Hget as <-. cbn in Hvar.
    apply list_elem_of_filter in Hvar as [_ Hvar].
    apply Dict_get_elem_of in He.
    destruct (scanned_entry _ _ Hnd Hscan _ _ He) as (b & Hb & Hs & _).
    exists b. split; [done|]. by apply Hs.
  - intros (b & Hb & Hsent).
    destruct (scanned_block _ _ Hnd Hscan _ _ Hb) as (e & _ & He & Hs & _).
    rewrite He. eexists. split; [done|]. cbn.
    apply list_elem_of_filter. split; [by destruct token|by apply Hs].
Qed.

Lemma pruned_make_graph :
  (pipes_intact ns ∧ ∃ g, make_graph pruned = Ok g)
  ∨ (¬ pipes_intact ns
     ∧ make_graph pruned = Raise (ValueError msg_broken_pipe)).
Proof.
  rewrite make_graph_unfold. case_decide as Hall; rewrite Forall_forall in Hall.
  - left. split; [|by eexists]. intros token Hreceived.
    apply (pruned_declared _ Hreceived).
    destruct Hreceived as (consumer & b & Hb & Htok).
    apply (Hall (consumer, token)), pruned_references. by exists b.
  - right. split; [|done]. intros Hintact. apply Hall.
    intros [consumer token] (b & Hb & Htok)%pruned_references. cbn [snd].
    assert (received ns token) as Hreceived by (by exists consumer, b).
    apply (pruned_declared _ Hreceived). by apply Hintact.
Qed.

Lemma pruned_edge graph graph_send graph_recv u v :
  make_graph pruned = Ok (graph, graph_send, graph_recv) →
  v ∈ neighbours graph_send u ↔ refers_to ns v u.
Proof.
  intros Hmake. rewrite <- (make_graph_edge_send _ _ _ _ Hmake).
  rewrite (make_graph_edges _ _ _ _ Hmake), list_elem_of_fmap.
  unfold refers_to. split.
  - intros ([c [p var]] & [= -> ->] & (b & Hb & Htok)%pruned_references).
    by exists b, var.
  - intros (b & var & Hb & Htok). exists (v, (u, var)). split; [done|].
    apply pruned_references. by exists b.
Qed.
End pruned.

(** X27: a reference to a node that does not exist, or to a variable that
    the node does not send, makes [serialize] raise the broken-pipe
    [ValueError] once the scan has returned; the redundancy pass in
    between neither repairs nor hides it. *)
Theorem serialize_broken_pipe d ns send_recv token :
  nodes d = Some ns →
  NoDup (Dict.keys ns) →
  collect_send_recv ns = Ok send_recv →
  received ns token →
  (∀ b, (token.1, b) ∈ ns → ¬ sent_by b token.2) →
  (serialize d).2 = Raise (ValueError msg_broken_pipe).
Proof.
  intros Hns Hnd Hscan Hreceived Hbroken.
  rewrite (serialize_pipeline _ _ Hns Hnd), Hscan. cbn [mbind result_bind].
  cbv zeta.
  destruct (pruned_make_graph ns send_recv Hnd Hscan)
    as [[Hintact _]|[_ ->]]; [|done].
  destruct (Hintact token Hreceived) as (b & Hb & Hsent).
  by destruct (Hbroken b Hb).
Qed.

(** X28: when the scan has returned and every reference names a node that
    sends the variable, nodes that refer to each other in a circle make
    [serialize] raise the [ValueError] for cycles: the redundancy pass
    breaks no pipe, and the cycle test sees every reference. *)
Theorem serialize_rejects_cycle d ns send_recv v :
  nodes d = Some ns →
  NoDup (Dict.keys ns) →
  collect_send_recv ns = Ok send_recv →
  pipes_intact ns →
  tc (refers_to ns) v v →
  (serialize d).2 = Raise (ValueError msg_cycle).
Proof.
  intros Hns Hnd Hscan Hintact Hcycle.
  rewrite (serialize_pipeline _ _ Hns Hnd), Hscan. cbn [mbind result_bind].
  cbv zeta.
  destruct (pruned_make_graph ns send_recv Hnd Hscan)
    as [[_ [[[g gs] gr] Hmake]]|[? _]]; [|done].
  rewrite Hmake. cbn [mbind result_bind].
  destruct (cycle_in_graph_correct gs) as (cyclic & -> & Hcyc).
  cbn [mbind result_bind].
  assert (cyclic = true) as ->; [|done].
  apply Hcyc. exists v. eapply tc_reverse; [|exact Hcycle].
  intros a b Hab. by apply (pruned_edge ns send_recv Hnd Hscan _ _ _ _ _ Hmake).
Qed.

(** Whether the scan of a node raises does not depend on the nodes scanned
    before it. *)
Lemma scan_block_independent send_recv send_recv' node :
  match scan_block send_recv node, scan_block send_recv' node with
  | Ok _, Ok _ => True
  | Raise e, Raise e' => e = e'
  | Diverge, Diverge => True
  | _, _ => False
  end.
Proof.
  destruct node as [block_id b]. unfold scan_block.
  destruct (validate_keys block_id b); [|done..]. cbn [mbind result_bind].
  destruct (for_each_in scan_input (b_inputs b) _); [|done..].
  cbn [mbind result_bind].
  destruct (for_each_in scan_output (b_outputs b) _); [|done..].
  cbn [mbind result_bind].
  destruct (for_each_in scan_wrapper_io (b_wrapper_io b) _); [|done..].
  cbn [mbind result_bind].
  by destruct (scan_method (b_method b) _).
Qed.

Lemma scan_first_invalid before block_id b after e :
  Forall (λ node, ∃ send_recv, scan_block [] node = Ok send_recv) before →
  scan_block [] (block_id, b) = Raise e →
  ∀ send_recv,
    for_each scan_block (before ++ (block_id, b) :: after) send_recv = Raise e.
Proof.
  intros Hbefore Hraise.
  induction Hbefore as [|node before [sr Hnode] _ IH]; intros send_recv;
    cbn [app for_each].
  - pose proof (scan_block_independent [] send_recv (block_id, b)) as Hind.
    rewrite Hraise in Hind.
    destruct (scan_block send_recv (block_id, b)); [done| |done].
    by subst.
  - pose proof (scan_block_independent [] send_recv node) as Hind.
    rewrite Hnode in Hind.
    destruct (scan_block send_recv node); [|done..].
    cbn [mbind result_bind]. apply IH.
Qed.

(** X29: a failure in the scan is reported for the first node, in the
    order of the document, whose keys or values are refused, whatever
    comes after it, and the document is left as it was. *)
Theorem serialize_first_invalid_node d before block_id b after e :
  nodes d = Some (before ++ (block_id, b) :: after) →
  Forall (λ node, ∃ send_recv, scan_block [] node = Ok send_recv) before →
  scan_block [] (block_id, b) = Raise e →
  serialize d = (d, Raise e).
Proof.
  intros Hns Hbefore Hraise.
  unfold serialize. rewrite get_input_dict_bind, Hns, lift_bind.
  unfold collect_send_recv.
  by rewrite (scan_first_invalid _ _ _ _ _ Hbefore Hraise).
Qed.

(** ** [Wrapper.call] *)

Lemma for_each_join {A S} (body : S → A → result S) (ls : list (list A)) : ∀ s,
  for_each (λ s l, for_each body l s) ls s = for_each body (mjoin ls) s.
Proof.
  induction ls as [|l ls IH]; intros s; [done|].
  cbn [for_each]. change (mjoin (l :: ls)) with (l ++ mjoin ls).
  rewrite for_each_app. destruct (for_each body l s); cbn; [apply IH|done..].
Qed.

Lemma block_name_Ok b :
  (∃ name, block_name b = Ok name) ↔ "name" ∈ available_keys b.
Proof.
  unfold block_name, available_keys, present, Dict.item.
  rewrite !elem_of_app.
  destruct (b_name b) as [v|].
  { split; [intros _; left; apply list_elem_of_here|by eexists]. }
  rewrite <- Dict_get_is_Some. split.
  - intros [name Hname]. do 7 right.
    destruct (Dict.get (b_other b) "name"); [by eexists|done].
  - intros [?%elem_of_nil|H]; [done|].
    assert (is_Some (Dict.get (b_other b) "name")) as [v ->]; [|by eexists].
    repeat (destruct H as [H|H];
            [repeat case_match; by repeat apply elem_of_cons in H as [?|H];
                                   try apply elem_of_nil in H|]).
    done.
Qed.

Lemma block_library_Ok b :
  (∃ library, block_library b = Ok library) ↔ "library" ∈ available_keys b.
Proof.
  unfold block_library, available_keys, present, Dict.item.
  rewrite !elem_of_app.
  destruct (b_library b) as [v|].
  { split; [intros _; right; left; apply list_elem_of_here|by eexists]. }
  rewrite <- Dict_get_is_Some. split.
  - intros [name Hname]. do 7 right.
    destruct (Dict.get (b_other b) "library"); [by eexists|done].
  - intros H.
    assert (is_Some (Dict.get (b_other b) "library")) as [v ->]; [|by eexists].
    repeat (destruct H as [H|H];
            [repeat case_match; by repeat apply elem_of_cons in H as [?|H];
                                   try apply elem_of_nil in H|]).
    done.
Qed.

Lemma block_name_raises b e : block_name b = Raise e → e = KeyError.
Proof.
  unfold block_name, Dict.item. destruct (b_name b); [done|].
  destruct (Dict.get _ _); [done|]. by intros [= <-].
Qed.

Lemma block_library_raises b e : block_library b = Raise e → e = KeyError.
Proof.
  unfold block_library, Dict.item. destruct (b_library b); [done|].
  destruct (Dict.get _ _); [done|]. by intros [= <-].
Qed.

Lemma call_node_outcome d started block_id :
  (∃ name library,
     Wrapper.call_node d started block_id
     = Ok (started ++ [(block_id, name, library)])
     ∧ startable d block_id name library)
  ∨ (Wrapper.call_node d started block_id = Raise KeyError
     ∧ ¬ ∃ name library, startable d block_id name library).
Proof.
  unfold Wrapper.call_node, startable, Dict.item.
  destruct (nodes d) as [ns|] eqn:Hns; cbn [mbind result_bind].
  2:{ right. split; [done|]. by intros (? & ? & ? & ? & ? & _). }
  destruct (Dict.get ns block_id) as [b|] eqn:Hb; cbn [mbind result_bind].
  2:{ right. split; [done|]. intros (? & ? & ? & ? & ? & ? & _). congruence. }
  destruct (block_name b) as [name|e|] eqn:Hname; cbn [mbind result_bind].
  - destruct (block_library b) as [library|e|] eqn:Hlib; cbn [mbind result_bind].
    + left. exists name, library. split; [done|]. exists ns, b. by split_and!.
    + apply block_library_raises in Hlib as Hlib'. subst e.
      right. split; [done|]. intros (? & ? & ? & ? & ? & ? & _ & ?).
      simplify_eq. congruence.
    + unfold block_library, Dict.item in Hlib. by repeat case_match.
  - apply block_name_raises in Hname as Hname'. subst e.
    right. split; [done|]. intros (? & ? & ? & ? & ? & ? & ? & _).
    simplify_eq. congruence.
  - unfold block_name, Dict.item in Hname. by repeat case_match.
Qed.

Lemma call_loop d ids : ∀ started,
  (∃ more,
     for_each (Wrapper.call_node d) ids started = Ok (started ++ more)
     ∧ more.*1.*1 = ids
     ∧ Forall (λ s, startable d s.1.1 s.1.2 s.2) more)
  ∨ (for_each (Wrapper.call_node d) ids started = Raise KeyError
     ∧ Exists (λ id, ¬ ∃ name library, startable d id name library) ids).
Proof.
  induction ids as [|id ids IH]; intros started.
  { left. exists []. by rewrite app_nil_r. }
  cbn [for_each].
  destruct (call_node_outcome d started id)
    as [(name & library & -> & Hstart)|[-> Hn]]; cbn [mbind result_bind].
  - destruct (IH (started ++ [(id, name, library)]))
      as [(more & -> & Hids & Hall)|[-> Hex]].
    + left. exists ((id, name, library) :: more).
      rewrite <- (assoc_L (++)). split; [done|]. split.
      * rewrite !fmap_cons. by rewrite Hids.
      * by constructor.
    + right. split; [done|]. by apply Exists_cons_tl.
  - right. split; [done|]. by apply Exists_cons_hd.
Qed.

(** X23: [Wrapper.call] starts the nodes in the order of the layers, each
    with the name and library that the document gives it; it raises a
    [KeyError], and nothing else, exactly when a listed id is not a node
    of the document or its node has no name or no library. *)
Theorem Wrapper_call_outcome d layers :
  (∃ started,
     Wrapper.call d layers = Ok started
     ∧ started.*1.*1 = mjoin layers
     ∧ Forall (λ s, startable d s.1.1 s.1.2 s.2) started)
  ∨ (Wrapper.call d layers = Raise KeyError
     ∧ Exists (λ id, ¬ ∃ name library, startable d id name library)
         (mjoin layers)).
Proof.
  unfold Wrapper.call. rewrite for_each_join.
  destruct (call_loop d (mjoin layers) []) as [(more & Hcall & ?)|?];
    [left|by right].
  by exists more.
Qed.

Lemma block_name_pruned vars b :
  block_name (foldl (λ b var, turn_off_block var b) b vars) = block_name b
  ∧ block_library (foldl (λ b var, turn_off_block var b) b vars)
    = block_library b.
Proof. by rewrite foldl_turn_off_block. Qed.

(** X24: on the document and the layers that [serialize] leaves,
    [Wrapper.call] raises nothing and starts every node of the document
    exactly once, in the order of the layers, with the name and library
    of the input document. *)
Theorem Wrapper_call_after_serialize d d' out ns :
  nodes d = Some ns →
  NoDup (Dict.keys ns) →
  serialize d = (d', Ok out) →
  ∃ started,
    Wrapper.call d' (out_layers out) = Ok started
    ∧ started.*1.*1 = mjoin (out_layers out)
    ∧ started.*1.*1 ≡ₚ Dict.keys ns
    ∧ Forall (λ s, startable d s.1.1 s.1.2 s.2) started.
Proof.
  intros Hns Hnd Hser.
  destruct (serialize_Ok _ _ _ _ Hns Hnd Hser)
    as (sr & Hscan & -> & Hsr & _ & Hmake & _ & Hh & _).
  destruct (collect_send_recv_Ok _ _ Hnd Hscan) as (Hk & Hvalid & _).
  pose proof (make_graph_keys_send _ _ _ _ Hmake) as Hks.
  pose proof (make_graph_keys_recv _ _ _ _ Hmake) as Hkr.
  assert (Dict.keys (out_send_recv out) = Dict.keys ns) as Hk'
    by (by rewrite Hsr, prune_send_recv_keys).
  destruct (hierarchicy_Ok_layering (out_graph_send out) (out_graph_recv out))
    with (layers := out_layers out) as (_ & _ & Hperm); [| |done|].
  { by rewrite Hks, Hk'. } { congruence. }
  rewrite Hks, Hk' in Hperm.
  assert (∀ id name library,
            startable (set_nodes (prune_nodes (redundant_of sr) ns) d)
              id name library ↔ startable d id name library) as Hstartable.
  { intros id name library. unfold startable. cbn [set_nodes nodes]. split.
    - intros (ns' & b' & [= <-] & Hb' & Hname & Hlib).
      rewrite prune_nodes_get in Hb'.
      destruct (Dict.get ns id) as [b|] eqn:Hb; [|done]. injection Hb' as <-.
      destruct (block_name_pruned (names_of (redundant_of sr) id) b)
        as [Hn Hl].
      exists ns, b. by rewrite <- Hn, <- Hl.
    - intros (ns' & b & Hns' & Hb & Hname & Hlib). simplify_eq.
      eexists _, _. split; [done|]. rewrite prune_nodes_get, Hb.
      split; [done|].
      destruct (block_name_pruned (names_of (redundant_of sr) id) b)
        as [Hn Hl].
      by rewrite Hn, Hl. }
  unfold Wrapper.call. rewrite for_each_join.
  destruct (call_loop (set_nodes (prune_nodes (redundant_of sr) ns) d)
              (mjoin (out_layers out)) [])
    as [(more & Hcall & Hids & Hall)|[_ Hex]].
  - exists more. split; [done|]. split; [done|]. split; [by rewrite Hids|].
    eapply Forall_impl; [exact Hall|]. intros s. apply Hstartable.
  - exfalso. apply Exists_exists in Hex as (id & Hid & Hn). apply Hn.
    rewrite Hperm in Hid.
    destruct (Dict_get_is_Some ns id) as [_ [b Hb]]; [done|].
    rewrite Forall_forall in Hvalid.
    destruct (validate_keys_name id b) as [Hname Hlib].
    { apply (Hvalid (id, b)). by apply Dict_get_elem_of. }
    apply block_name_Ok in Hname as [name Hname].
    apply block_library_Ok in Hlib as [library Hlib].
    exists name, library. apply Hstartable. by exists ns, b.
Qed.

(** ** [Settings.create_output] *)

Section create_output_proofs.
Context {FS : Type} (path_exists : FS → string → bool)
  (makedirs : FS → string → FS * result unit).

Lemma candidate_S initial k :
  1 ≤ k → candidate initial (k + 1) = initial +:+ Settings.suffix (k + 1).
Proof. intros ?. unfold candidate. rewrite decide_False; [done|lia]. Qed.

Lemma create_output_loop_Ok fuel fs initial : ∀ i res,
  1 ≤ i →
  (∀ j, 1 ≤ j < i → path_exists fs (candidate initial j) = true) →
  Settings.create_output_loop path_exists fuel fs initial i (candidate initial i)
  = Ok res →
  ∃ k, res = (k, candidate initial k) ∧ i ≤ k ≤ i + fuel
       ∧ path_exists fs (candidate initial k) = false
       ∧ ∀ j, 1 ≤ j < k → path_exists fs (candidate initial j) = true.
Proof.
  induction fuel as [|fuel IH]; intros i res Hi Hbefore;
    cbn [Settings.create_output_loop];
    destruct (path_exists fs (candidate initial i)) eqn:Hex; try done.
  - intros [= <-]. exists i. split; [done|]. split; [lia|]. done.
  - rewrite <- (candidate_S _ _ Hi). intros Hloop.
    destruct (IH (i + 1) res) as (k & -> & Hk & Hfree & Hall); [lia| |done|].
    + intros j Hj. destruct (decide (j = i)) as [->|]; [done|].
      apply Hbefore. lia.
    + exists k. split; [done|]. split; [lia|]. done.
  - intros [= <-]. exists i. split; [done|]. split; [lia|]. done.
Qed.

Lemma create_output_loop_fuel fuel fs initial : ∀ i k,
  1 ≤ i → i ≤ k ≤ i + fuel →
  path_exists fs (candidate initial k) = false →
  ∃ res,
    Settings.create_output_loop path_exists fuel fs initial i
      (candidate initial i) = Ok res.
Proof.
  induction fuel as [|fuel IH]; intros i k Hi Hk Hfree;
    cbn [Settings.create_output_loop];
    destruct (path_exists fs (candidate initial i)) eqn:Hex; try by eexists.
  - assert (k = i) as -> by lia. congruence.
  - rewrite <- (candidate_S _ _ Hi). apply (IH (i + 1) k); [lia| |done].
    destruct (decide (k = i)) as [->|]; [congruence|lia].
Qed.

Lemma create_output_Ok fuel self fs self' fs' dir :
  Settings.create_output path_exists makedirs fuel self fs = (self', fs', Ok dir) →
  Settings.output_directory self' = dir
  ∧ makedirs fs dir = (fs', Ok ())
  ∧ path_exists fs dir = false.
Proof.
  unfold Settings.create_output.
  destruct (Settings.create_output_loop _ _ _ _ _ _) as [[i dir']| |] eqn:Hloop;
    [|done..].
  destruct (makedirs fs dir') as [fs1 [[]| |]] eqn:Hmk; [|done..].
  intros [= <- <- <-]. split; [done|]. split; [done|].
  by destruct (create_output_loop_Ok fuel fs (Settings.output_directory self) 1
                 (i, dir')) as (k & [= -> ->] & Hk & Hfree & Hall);
    [lia|intros j ?; lia|exact Hloop|].
Qed.

(** X25: [create_output] hands to [os.makedirs], stores and returns the
    first name that does not exist among the directory asked for and the
    same followed by [-2], [-3], ...; the suffix [-1] is never used. *)
Theorem create_output_first_free fuel self fs k :
  1 ≤ k ≤ S fuel →
  path_exists fs (candidate (Settings.output_directory self) k) = false →
  (∀ j, 1 ≤ j < k →
     path_exists fs (candidate (Settings.output_directory self) j) = true) →
  let dir := candidate (Settings.output_directory self) k in
  Settings.create_output path_exists makedirs fuel self fs
  = ({| Settings.output_directory := dir |}, (makedirs fs dir).1,
     (makedirs fs dir).2 ≫= λ _, Ok dir).
Proof.
  intros Hk Hfree Hbefore dir.
  destruct (create_output_loop_fuel fuel fs (Settings.output_directory self) 1 k)
    as [res Hloop]; [lia|lia|done|].
  destruct (create_output_loop_Ok fuel fs (Settings.output_directory self) 1 res)
    as (k' & -> & Hk' & Hfree' & Hbefore'); [lia|intros j ?; lia|exact Hloop|].
  assert (k' = k) as ->.
  { destruct (decide (k' < k)); [rewrite Hbefore in Hfree' by lia; done|].
    destruct (decide (k < k')); [rewrite Hbefore' in Hfree by lia; done|]. lia. }
  unfold Settings.create_output.
  change (candidate (Settings.output_directory self) 1)
    with (Settings.output_directory self) in Hloop.
  rewrite Hloop. fold dir. by destruct (makedirs fs dir) as [fs1 [[]| |]].
Qed.

(** X26: the directory that [create_output] returns did not exist
    before the call; when [os.makedirs] makes the path that it is given
    exist, a later call never returns the same directory. *)
Theorem create_output_twice_distinct fuel fuel' self self' fs fs1 fs2
    self1 self2 dir1 dir2 :
  (∀ fs p fs', makedirs fs p = (fs', Ok ()) → path_exists fs' p = true) →
  Settings.create_output path_exists makedirs fuel self fs = (self1, fs1, Ok dir1) →
  Settings.create_output path_exists makedirs fuel' self' fs1
  = (self2, fs2, Ok dir2) →
  path_exists fs dir1 = false ∧ path_exists fs1 dir1 = true ∧ dir1 ≠ dir2.
Proof.
  intros Hmk (_ & Hmk1 & Hfree1)%create_output_Ok (_ & _ & Hfree2)%create_output_Ok.
  apply Hmk in Hmk1. split; [done|]. split; [done|]. intros ->. congruence.
Qed.
End create_output_proofs.

(** * The further properties at particular inputs *)

(** The hypothesis holds by evaluation. *)
Ltac evaluated := vm_compute; reflexivity.
Ltac distinct_keys := refine (bool_decide_unpack _ _); vm_compute; exact I.

Lemma make_graph_keeps_node_ids_witness :
  ∃ graph graph_send graph_recv,
    make_graph sr_chain = Ok (graph, graph_send, graph_recv)
    ∧ Dict.keys graph_send = Dict.keys sr_chain
    ∧ Dict.keys graph_recv = Dict.keys sr_chain.
Proof.
  do 3 eexists. split; [evaluated|].
  eapply (make_graph_keeps_node_ids sr_chain). evaluated.
Defined.

Lemma make_graph_adjacency_transposed_witness :
  ∃ graph graph_send graph_recv,
    make_graph sr_chain = Ok (graph, graph_send, graph_recv)
    ∧ ("B" ∈ neighbours graph_send "A" ↔ "A" ∈ neighbours graph_recv "B")
    ∧ (("A", "B") ∈ graph ↔ "B" ∈ neighbours graph_send "A").
Proof.
  do 3 eexists. split; [evaluated|].
  eapply (make_graph_adjacency_transposed sr_chain). evaluated.
Defined.

Lemma make_graph_edge_list_order_witness :
  ∃ graph graph_send graph_recv,
    make_graph sr_chain = Ok (graph, graph_send, graph_recv)
    ∧ graph.*1 = (all_received_of sr_chain).*1
    ∧ graph.*2 = (references sr_chain).*1.
Proof.
  do 3 eexists. split; [evaluated|].
  eapply (make_graph_edge_list_order sr_chain). evaluated.
Defined.

Lemma cycle_in_graph_more_edges_witness :
  (∀ u v, v ∈ neighbours [(1, [1])] u → v ∈ neighbours [(0, [2]); (1, [1])] u)
  ∧ cycle_in_graph [(1, [1])] = Ok true
  ∧ cycle_in_graph [(0, [2]); (1, [1])] = Ok true.
Proof.
  assert (∀ u v, v ∈ neighbours [(1, [1])] u →
                 v ∈ neighbours [(0, [2]); (1, [1])] u) as Hmore.
  { intros u v. unfold neighbours. cbn [Dict.get].
    destruct (decide (1 = u)) as [<-|]; [|by intros ?%elem_of_nil].
    by rewrite decide_False. }
  split; [exact Hmore|]. split; [evaluated|].
  apply (cycle_in_graph_more_edges [(1, [1])] [(0, [2]); (1, [1])] Hmore).
  evaluated.
Defined.

Lemma cycle_in_graph_same_edges_witness :
  (∀ u v, v ∈ neighbours [(1, [2]); (2, [])] u
          ↔ v ∈ neighbours [(2, []); (1, [2; 2])] u)
  ∧ cycle_in_graph [(1, [2]); (2, [])] = cycle_in_graph [(2, []); (1, [2; 2])].
Proof.
  assert (∀ u v, v ∈ neighbours [(1, [2]); (2, [])] u
                 ↔ v ∈ neighbours [(2, []); (1, [2; 2])] u) as Hsame.
  { intros u v. unfold neighbours. cbn [Dict.get].
    destruct (decide (1 = u)) as [<-|].
    - rewrite decide_False by done. cbn.
      rewrite !elem_of_cons. tauto.
    - destruct (decide (2 = u)) as [<-|]; done. }
  split; [exact Hsame|].
  exact (cycle_in_graph_same_edges [(1, [2]); (2, [])] [(2, []); (1, [2; 2])]
           Hsame).
Defined.

Lemma cycle_in_graph_self_loop_witness :
  1 ∈ neighbours [(1, [1])] 1 ∧ cycle_in_graph [(1, [1])] = Ok true.
Proof.
  assert (1 ∈ neighbours [(1, [1])] 1) as Hloop by apply list_elem_of_here.
  split; [exact Hloop|].
  exact (cycle_in_graph_self_loop [(1, [1])] 1 Hloop).
Defined.

Lemma hierarchicy_never_returns_on_cycle_witness :
  ∃ graph graph_send graph_recv,
    make_graph sr_cycle = Ok (graph, graph_send, graph_recv)
    ∧ has_cycle graph_send
    ∧ hierarchicy graph_send graph_recv = Diverge.
Proof.
  do 3 eexists.
  assert (make_graph sr_cycle
          = Ok ([("B", "A"); ("A", "B")], [("A", ["B"]); ("B", ["A"])],
                [("A", ["B"]); ("B", ["A"])])) as Hmake by evaluated.
  assert (has_cycle [("A", ["B"]); ("B", ["A"])]) as Hcycle.
  { exists "A". apply tc_l with "B"; [|apply tc_once]; apply list_elem_of_here. }
  split; [exact Hmake|]. split; [exact Hcycle|].
  apply hierarchicy_never_returns_on_cycle.
  - distinct_keys.
  - reflexivity.
  - intros u v Hu. apply (make_graph_edge_recv _ _ _ _ Hmake).
    by apply (make_graph_edge_send _ _ _ _ Hmake).
  - exact Hcycle.
Defined.

Lemma hierarchicy_as_early_as_possible_witness :
  let graph_send := [("C", []); ("B", ["C"]); ("A", ["B"])] in
  let graph_recv := [("C", ["B"]); ("B", ["A"]); ("A", [])] in
  let layers := [["A"]; ["B"]; ["C"]] in
  hierarchicy graph_send graph_recv = Ok layers
  ∧ layer_index layers "C" = Some 2
  ∧ neighbours graph_recv "C" ≠ []
  ∧ ∃ u, u ∈ neighbours graph_recv "C" ∧ layer_index layers u = Some 1.
Proof.
  intros graph_send graph_recv layers.
  split; [evaluated|]. split; [evaluated|]. split; [done|].
  apply (hierarchicy_as_early_as_possible graph_send graph_recv layers "C" 1).
  - distinct_keys.
  - reflexivity.
  - evaluated.
  - evaluated.
  - done.
Defined.

Lemma hierarchicy_no_empty_layer_after_first_witness :
  hierarchicy graph_isolated graph_isolated = Ok [[]; ["A"]]
  ∧ ∃ first rest, [[]; ["A"]] = first :: rest ∧ Forall (λ l, l ≠ []) rest.
Proof.
  split; [evaluated|].
  apply (hierarchicy_no_empty_layer_after_first graph_isolated graph_isolated).
  evaluated.
Defined.

Lemma hierarchicy_layer_independent_witness :
  ∃ graph graph_send graph_recv layers,
    make_graph sr_chain = Ok (graph, graph_send, graph_recv)
    ∧ hierarchicy graph_send graph_recv = Ok layers
    ∧ ["B"] ∈ layers
    ∧ ("B", "B") ∉ graph.
Proof.
  do 4 eexists. split; [evaluated|]. split; [evaluated|].
  split; [apply list_elem_of_further, list_elem_of_here|].
  eapply (hierarchicy_layer_independent sr_chain _ _ _ _ ["B"] "B" "B").
  - distinct_keys.
  - evaluated.
  - evaluated.
  - apply list_elem_of_further, list_elem_of_here.
  - apply list_elem_of_here.
  - apply list_elem_of_here.
Defined.

Lemma collect_send_recv_per_node_witness :
  ∃ ns send_recv,
    nodes doc_chain = Some ns
    ∧ NoDup (Dict.keys ns)
    ∧ collect_send_recv ns = Ok send_recv
    ∧ Forall2 (λ node entry,
                 entry.1 = node.1
                 ∧ validate_keys node.1 node.2 = Ok ()
                 ∧ (∀ var, var ∈ send entry.2 ↔ sent_by node.2 var)
                 ∧ (∀ token, token ∈ recv entry.2 ↔ received_by node.2 token))
        ns send_recv.
Proof.
  do 2 eexists. split; [reflexivity|].
  assert (NoDup (Dict.keys (default [] (nodes doc_chain)))) as Hnd
    by distinct_keys.
  split; [exact Hnd|]. split; [evaluated|].
  apply collect_send_recv_per_node; [exact Hnd|evaluated].
Defined.

Lemma scan_input_reference_token_witness :
  str_count "@" "A" = 0 ∧ str_count "@" "x " = 0
  ∧ scan_input {| send := []; recv := [] |} ("i", VStr "@A@x ")
    = Ok {| send := []; recv := [("A", "x")] |}.
Proof.
  split; [reflexivity|]. split; [reflexivity|].
  exact (proj1 (scan_input_reference_token {| send := []; recv := [] |} "i"
                  "A" "x " eq_refl eq_refl)).
Defined.

Lemma serialize_switches_off_witness :
  ∃ ns send_recv,
    nodes doc_chain = Some ns
    ∧ NoDup (Dict.keys ns)
    ∧ collect_send_recv ns = Ok send_recv
    ∧ (redundant_send ns "A" "z" →
         outputs_entry (serialize doc_chain).1 "A" "z"
         = (λ _, VBool false) <$> outputs_entry doc_chain "A" "z")
    ∧ (¬ redundant_send ns "A" "x" →
         outputs_entry (serialize doc_chain).1 "A" "x"
         = outputs_entry doc_chain "A" "x").
Proof.
  do 2 eexists. split; [reflexivity|].
  assert (NoDup (Dict.keys (default [] (nodes doc_chain)))) as Hnd
    by distinct_keys.
  split; [exact Hnd|]. split; [evaluated|]. split.
  - intros Hred.
    eapply (serialize_switches_off doc_chain _ _ "A" "z");
      [reflexivity|exact Hnd|evaluated|exact Hred].
  - intros Hred.
    eapply (serialize_switches_off doc_chain _ _ "A" "x");
      [reflexivity|exact Hnd|evaluated|exact Hred].
Defined.

Lemma serialize_true_outputs_are_received_witness :
  ∃ ns send_recv,
    nodes doc_chain = Some ns
    ∧ NoDup (Dict.keys ns)
    ∧ collect_send_recv ns = Ok send_recv
    ∧ outputs_entry (serialize doc_chain).1 "A" "x" = Some (VBool true)
    ∧ received ns ("A", "x").
Proof.
  do 2 eexists. split; [reflexivity|].
  assert (NoDup (Dict.keys (default [] (nodes doc_chain)))) as Hnd
    by distinct_keys.
  split; [exact Hnd|]. split; [evaluated|]. split; [evaluated|].
  eapply (serialize_true_outputs_are_received doc_chain);
    [reflexivity|exact Hnd|evaluated|left; evaluated].
Defined.

Lemma serialize_order_respects_references_witness :
  ∃ ns d' out,
    nodes doc_chain = Some ns
    ∧ NoDup (Dict.keys ns)
    ∧ serialize doc_chain = (d', Ok out)
    ∧ Dict.keys (out_send_recv out) = Dict.keys ns
    ∧ mjoin (out_layers out) ≡ₚ Dict.keys ns
    ∧ ∀ consumer b producer var,
        (consumer, b) ∈ ns → received_by b (producer, var) →
        (∃ b', (producer, b') ∈ ns ∧ sent_by b' var)
        ∧ ∃ i j, layer_index (out_layers out) producer = Some i
                 ∧ layer_index (out_layers out) consumer = Some j ∧ i < j.
Proof.
  do 3 eexists. split; [reflexivity|].
  assert (NoDup (Dict.keys (default [] (nodes doc_chain)))) as Hnd
    by distinct_keys.
  split; [exact Hnd|]. split; [evaluated|].
  eapply (serialize_order_respects_references doc_chain);
    [reflexivity|exact Hnd|evaluated].
Defined.

Lemma serialize_keeps_received_sends_witness :
  ∃ ns d' out b,
    nodes doc_chain = Some ns
    ∧ NoDup (Dict.keys ns)
    ∧ serialize doc_chain = (d', Ok out)
    ∧ ("A", b) ∈ ns
    ∧ ∃ e, Dict.get (out_send_recv out) "A" = Some e
           ∧ (∀ var, var ∈ send e ↔ sent_by b var ∧ received ns ("A", var))
           ∧ (∀ token, token ∈ recv e ↔ received_by b token)
           ∧ ∀ token, token ∈ out_all_received out ↔ received ns token.
Proof.
  do 4 eexists. split; [reflexivity|].
  assert (NoDup (Dict.keys (default [] (nodes doc_chain)))) as Hnd
    by distinct_keys.
  split; [exact Hnd|]. split; [evaluated|].
  split; [do 2 apply list_elem_of_further; apply list_elem_of_here|].
  eapply (serialize_keeps_received_sends doc_chain);
    [reflexivity|exact Hnd|evaluated|].
  do 2 apply list_elem_of_further. apply list_elem_of_here.
Defined.

Lemma serialize_leaves_no_redundant_send_witness :
  ∃ ns d' out,
    nodes doc_chain = Some ns
    ∧ NoDup (Dict.keys ns)
    ∧ serialize doc_chain = (d', Ok out)
    ∧ redundant_of (out_send_recv out) = []
    ∧ all_received_of (out_send_recv out) = out_all_received out
    ∧ ∀ self,
        for_each_p turn_off_redundant (redundant_of (out_send_recv out))
          (out_send_recv out) self
        = (self, Ok (out_send_recv out)).
Proof.
  do 3 eexists. split; [reflexivity|].
  assert (NoDup (Dict.keys (default [] (nodes doc_chain)))) as Hnd
    by distinct_keys.
  split; [exact Hnd|]. split; [evaluated|].
  eapply (serialize_leaves_no_redundant_send doc_chain);
    [reflexivity|exact Hnd|evaluated].
Defined.

Lemma serialize_raises_only_witness :
  ∃ ns,
    nodes doc_empty_string = Some ns
    ∧ NoDup (Dict.keys ns)
    ∧ serialize doc_empty_string = (doc_empty_string, Raise IndexError)
    ∧ serialize_error ns IndexError.
Proof.
  eexists. split; [reflexivity|].
  assert (NoDup (Dict.keys (default [] (nodes doc_empty_string)))) as Hnd
    by distinct_keys.
  split; [exact Hnd|]. split; [evaluated|].
  eapply (serialize_raises_only doc_empty_string);
    [reflexivity|exact Hnd|evaluated].
Defined.

Lemma serialize_terminates_witness :
  (∀ ns, nodes doc_chain = Some ns → NoDup (Dict.keys ns))
  ∧ (serialize doc_chain).2 ≠ Diverge.
Proof.
  assert (∀ ns, nodes doc_chain = Some ns → NoDup (Dict.keys ns)) as Hnd.
  { intros ns [= <-]. distinct_keys. }
  split; [exact Hnd|]. exact (serialize_terminates doc_chain Hnd).
Defined.

Lemma serialize_rejects_unnamed_method_witness :
  ∃ ns b m,
    nodes doc_unnamed_method = Some ns
    ∧ NoDup (Dict.keys ns)
    ∧ ("A", b) ∈ ns ∧ b_method b = Some m ∧ m_name m = None
    ∧ validate_keys "A" b = Ok ()
    ∧ ∃ e, (serialize doc_unnamed_method).2 = Raise e ∧ serialize_error ns e.
Proof.
  do 3 eexists. split; [reflexivity|].
  assert (NoDup (Dict.keys (default [] (nodes doc_unnamed_method)))) as Hnd
    by distinct_keys.
  split; [exact Hnd|]. split; [apply list_elem_of_here|].
  split; [reflexivity|]. split; [reflexivity|]. split; [evaluated|].
  eapply (serialize_rejects_unnamed_method doc_unnamed_method);
    [reflexivity|exact Hnd|apply list_elem_of_here|reflexivity|reflexivity].
Defined.

Lemma Wrapper_call_after_serialize_witness :
  ∃ ns d' out,
    nodes doc_chain = Some ns
    ∧ NoDup (Dict.keys ns)
    ∧ serialize doc_chain = (d', Ok out)
    ∧ ∃ started,
        Wrapper.call d' (out_layers out) = Ok started
        ∧ started.*1.*1 = mjoin (out_layers out)
        ∧ started.*1.*1 ≡ₚ Dict.keys ns
        ∧ Forall (λ s, startable doc_chain s.1.1 s.1.2 s.2) started.
Proof.
  do 3 eexists. split; [reflexivity|].
  assert (NoDup (Dict.keys (default [] (nodes doc_chain)))) as Hnd
    by distinct_keys.
  split; [exact Hnd|]. split; [evaluated|].
  eapply (Wrapper_call_after_serialize doc_chain);
    [reflexivity|exact Hnd|evaluated].
Defined.

Lemma create_output_first_free_witness :
  let self := Settings.init "out" in
  let fs := ["out"; "out-2"] in
  listed_exists fs (candidate "out" 3) = false
  ∧ (∀ j, 1 ≤ j < 3 → listed_exists fs (candidate "out" j) = true)
  ∧ Settings.create_output listed_exists listed_makedirs 5 self fs
    = ({| Settings.output_directory := "out-3" |}, ["out-3"; "out"; "out-2"],
       Ok "out-3").
Proof.
  intros self fs.
  assert (listed_exists fs (candidate "out" 3) = false) as Hfree by evaluated.
  assert (∀ j, 1 ≤ j < 3 → listed_exists fs (candidate "out" j) = true)
    as Hbefore.
  { intros j Hj. assert (j = 1 ∨ j = 2) as [-> | ->] by lia; evaluated. }
  split; [exact Hfree|]. split; [exact Hbefore|].
  refine (create_output_first_free listed_exists listed_makedirs 5 self fs 3
            _ Hfree Hbefore).
  lia.
Defined.

Lemma create_output_twice_distinct_witness :
  let self := Settings.init "out" in
  (∀ fs p fs', listed_makedirs fs p = (fs', Ok ()) → listed_exists fs' p = true)
  ∧ Settings.create_output listed_exists listed_makedirs 5 self ["out"]
    = ({| Settings.output_directory := "out-2" |}, ["out-2"; "out"], Ok "out-2")
  ∧ Settings.create_output listed_exists listed_makedirs 5 self ["out-2"; "out"]
    = ({| Settings.output_directory := "out-3" |}, ["out-3"; "out-2"; "out"],
       Ok "out-3")
  ∧ listed_exists ["out"] "out-2" = false
  ∧ listed_exists ["out-2"; "out"] "out-2" = true
  ∧ "out-2" ≠ "out-3".
Proof.
  intros self.
  assert (∀ fs p fs', listed_makedirs fs p = (fs', Ok ()) →
                      listed_exists fs' p = true) as Hmk.
  { intros fs p fs' [= <-]. apply bool_decide_eq_true_2, list_elem_of_here. }
  split; [exact Hmk|]. split; [evaluated|]. split; [evaluated|].
  apply (create_output_twice_distinct listed_exists listed_makedirs 5 5 self self
           ["out"] ["out-2"; "out"] ["out-3"; "out-2"; "out"]
           {| Settings.output_directory := "out-2" |}
           {| Settings.output_directory := "out-3" |} "out-2" "out-3" Hmk);
    evaluated.
Defined.

Lemma serialize_broken_pipe_witness :
  ∃ ns send_recv,
    nodes doc_broken_pipe = Some ns
    ∧ NoDup (Dict.keys ns)
    ∧ collect_send_recv ns = Ok send_recv
    ∧ received ns ("A", "x")
    ∧ (∀ b, ("A", b) ∈ ns → ¬ sent_by b "x")
    ∧ (serialize doc_broken_pipe).2 = Raise (ValueError msg_broken_pipe).
Proof.
  do 2 eexists. split; [reflexivity|].
  assert (NoDup (Dict.keys (default [] (nodes doc_broken_pipe)))) as Hnd
    by distinct_keys.
  assert (received (default [] (nodes doc_broken_pipe)) ("A", "x"))
    as Hreceived.
  { eexists "B", _. split; [apply list_elem_of_here|].
    exists "i", (VStr "@A@x"). split; [apply list_elem_of_here|].
    exists "@A@x". by repeat split. }
  assert (∀ b, ("A", b) ∈ default [] (nodes doc_broken_pipe) →
               ¬ sent_by b "x") as Hbroken.
  { intros b [[=]|?%elem_of_nil]%elem_of_cons. done. }
  split; [exact Hnd|]. split; [evaluated|]. split; [exact Hreceived|].
  split; [exact Hbroken|].
  eapply (serialize_broken_pipe doc_broken_pipe _ _ ("A", "x"));
    [reflexivity|exact Hnd|evaluated|exact Hreceived|exact Hbroken].
Defined.

Lemma serialize_rejects_cycle_witness :
  ∃ ns send_recv,
    nodes doc_cycle = Some ns
    ∧ NoDup (Dict.keys ns)
    ∧ collect_send_recv ns = Ok send_recv
    ∧ pipes_intact ns
    ∧ tc (refers_to ns) "A" "A"
    ∧ (serialize doc_cycle).2 = Raise (ValueError msg_cycle).
Proof.
  do 2 eexists. split; [reflexivity|].
  assert (NoDup (Dict.keys (default [] (nodes doc_cycle)))) as Hnd
    by distinct_keys.
  assert (collect_send_recv (default [] (nodes doc_cycle))
          = Ok [("A", {| send := ["x"]; recv := [("B", "y")] |});
                ("B", {| send := ["y"]; recv := [("A", "x")] |})]) as Hscan
    by evaluated.
  assert (pipes_intact (default [] (nodes doc_cycle))) as Hintact.
  { destruct (pruned_make_graph _ _ Hnd Hscan) as [[Hintact _]|[_ Hraise]];
      [exact Hintact|]. vm_compute in Hraise. discriminate Hraise. }
  assert (tc (refers_to (default [] (nodes doc_cycle))) "A" "A") as Hcycle.
  { apply tc_l with "B"; [|apply tc_once].
    - eexists _, "y". split; [apply list_elem_of_here|].
      exists "i", (VStr "@B@y"). split; [apply list_elem_of_here|].
      exists "@B@y". by repeat split.
    - eexists _, "x". split; [apply list_elem_of_further, list_elem_of_here|].
      exists "i", (VStr "@A@x"). split; [apply list_elem_of_here|].
      exists "@A@x". by repeat split. }
  split; [exact Hnd|]. split; [exact Hscan|]. split; [exact Hintact|].
  split; [exact Hcycle|].
  exact (serialize_rejects_cycle doc_cycle _ _ "A" eq_refl Hnd Hscan Hintact
           Hcycle).
Defined.

Lemma serialize_first_invalid_node_witness :
  let valid := ("C", plain_block (Some [("i", VStr "plain")]) None None) in
  let nameless :=
    {| b_name := None; b_library := Some (VStr "sklearn"); b_module := None;
       b_inputs := Some [("p", VStr EmptyString)]; b_outputs := None;
       b_method := None; b_wrapper_io := None; b_other := [] |} in
  let empty := ("E", plain_block (Some [("p", VStr EmptyString)]) None None) in
  let d := document [valid; ("A", nameless); empty] in
  Forall (λ node, ∃ send_recv, scan_block [] node = Ok send_recv) [valid]
  ∧ scan_block [] ("A", nameless) = Raise (ValueError (msg_name_missing "A"))
  ∧ serialize d = (d, Raise (ValueError (msg_name_missing "A"))).
Proof.
  intros valid nameless empty d.
  assert (Forall (λ node, ∃ send_recv, scan_block [] node = Ok send_recv)
            [valid]) as Hbefore.
  { constructor; [|constructor]. eexists. evaluated. }
  assert (scan_block [] ("A", nameless)
          = Raise (ValueError (msg_name_missing "A"))) as Hraise by evaluated.
  split; [exact Hbefore|]. split; [exact Hraise|].
  exact (serialize_first_invalid_node d [valid] "A" nameless [empty] _ eq_refl
           Hbefore Hraise).
Defined.
